(** * Calendar event store of the Supercon 8 badge (Calendar_demo.py)

    A shallow embedding of the EEPROM event store: the record layout written
    by [save_event_to_eeprom], the incremental reader
    [load_event_from_eeprom], the chunked page writer
    [write_bytes_to_eeprom], the slot enumeration [list_all_events] and the
    bulk erase [wipe_eeprom].

    Python values are rendered as follows.
    - [int] is [Z]; [len x] is [Z.of_nat (length x)].
    - [bytes] / [bytearray] is [list byte].
    - [str] is [string], holding the UTF-8 encoding of the text, so that
      [s.encode('utf-8')] is the byte list of the string and
      [b.decode('utf-8')] checks the bytes and keeps them.
    - the program runs under MicroPython only (it imports [machine]), so
      the built-ins are MicroPython's. [b.decode] accepts every byte
      string in which each lead byte is followed by its continuation
      bytes: stricter well-formedness (shortest forms, no surrogates) is
      not checked. [int.to_bytes] has no [signed] argument: a non-negative
      value is converted as unsigned, a negative one in two's complement,
      and [OverflowError] is raised when the value does not fit.
    - functions that print, talk to the bus or raise run in the monad [M],
      a state monad over [world] whose results are either a value or a
      raised exception. [print] appends a line to the console; a line keeps
      the text of the Python literal and the values of its fields.

    The device behind the bus is not part of the program. It is taken to be
    a byte-addressable memory of 4096 cells: a successful write stores the
    bytes at consecutive addresses, a successful read returns exactly the
    bytes asked for, addresses count modulo the size, and any transfer may
    fail with [OSError], as a schedule in the world decides.

    The clock functions [set_time] and [read_time] talk to the DS3231 on
    the same bus; they run in a monad [T] of the same shape over the state
    [clock], whose registers keep what was last written to them. The
    functions that CalendarReset.py words differently from
    Calendar_demo.py are embedded a second time in the module
    [CalendarReset]. *)

From Stdlib Require Import ZArith List String Bool Lia.
From Stdlib Require Import Strings.Byte.
Import ListNotations.
Open Scope Z_scope.

(** ** Bytes and integers *)

Definition bytes := list byte.

Definition len {A : Type} (l : list A) : Z := Z.of_nat (List.length l).

Definition int_of_byte (b : byte) : Z := Z.of_N (Byte.to_N b).

(** The byte whose value is [n mod 256]. *)
Definition byte_of_Z (n : Z) : byte :=
  match Byte.of_N (Z.to_N (n mod 256)) with
  | Some b => b
  | None => x00
  end.

Definition bytes_eqb (a b : bytes) : bool :=
  if list_eq_dec Byte.byte_eq_dec a b then true else false.

(** ** Exceptions and results *)

Inductive exn : Type :=
| OSError
| OverflowError
| ValueError
| UnicodeError
| IndexError
| AttributeError
| EOFError.

(** [UnicodeError] is a subclass of [ValueError]. *)
Definition is_ValueError (e : exn) : bool :=
  match e with
  | ValueError | UnicodeError => true
  | _ => false
  end.

Definition is_OSError (e : exn) : bool :=
  match e with
  | OSError => true
  | _ => false
  end.

Inductive result (A : Type) : Type :=
| Ok (a : A)
| Raise (e : exn).
Arguments Ok {A} a.
Arguments Raise {A} e.

(** ** Built-ins used by the store *)

(** [n.to_bytes(size, 'big')] as MicroPython has it: the base-256 digits
    of [n], most significant first. A non-negative [n] must fit [size]
    bytes as an unsigned number; a negative [n] is written in two's
    complement and must fit [size] bytes as a signed number; otherwise
    [OverflowError]. The digits of a negative [n] taken with the floor
    division are its two's complement. *)
Fixpoint le_digits (size : nat) (n : Z) : bytes :=
  match size with
  | O => []
  | S k => byte_of_Z n :: le_digits k (n / 256)
  end.

Definition to_bytes_big (n : Z) (size : nat) : result bytes :=
  if (n <? - (256 ^ Z.of_nat size / 2)) || (256 ^ Z.of_nat size <=? n)
  then Raise OverflowError
  else Ok (rev (le_digits size n)).

(** [int.from_bytes(b, 'big')]. *)
Definition from_bytes_big (b : bytes) : Z :=
  fold_left (fun acc x => acc * 256 + int_of_byte x) b 0.

(** [bytearray.append(n)]: [ValueError] unless [n] is in [range(256)]. *)
Definition bytearray_append (data : bytes) (n : Z) : result bytes :=
  if (0 <=? n) && (n <? 256)
  then Ok (data ++ [byte_of_Z n])
  else Raise ValueError.

(** Well-formed UTF-8 (RFC 3629): shortest forms only, no surrogates,
    nothing above U+10FFFF. This is the notion of text of the data model;
    the program's decoder checks less, see [decodable] below. *)
Definition is_cont (b : byte) : bool :=
  (128 <=? int_of_byte b) && (int_of_byte b <? 192).

Definition in_range (lo hi : Z) (b : byte) : bool :=
  (lo <=? int_of_byte b) && (int_of_byte b <=? hi).

Fixpoint utf8_check (bs : bytes) : bool :=
  match bs with
  | [] => true
  | b0 :: t0 =>
    let c := int_of_byte b0 in
    if c <? 128 then utf8_check t0
    else
      match t0 with
      | [] => false
      | b1 :: t1 =>
        if (194 <=? c) && (c <=? 223) then is_cont b1 && utf8_check t1
        else
          match t1 with
          | [] => false
          | b2 :: t2 =>
            if (224 <=? c) && (c <=? 239) then
              (if c =? 224 then in_range 160 191 b1
               else if c =? 237 then in_range 128 159 b1
               else is_cont b1)
              && is_cont b2 && utf8_check t2
            else
              match t2 with
              | [] => false
              | b3 :: t3 =>
                if (240 <=? c) && (c <=? 244) then
                  (if c =? 240 then in_range 144 191 b1
                   else if c =? 244 then in_range 128 143 b1
                   else is_cont b1)
                  && is_cont b2 && is_cont b3 && utf8_check t3
                else false
              end
          end
      end
  end.

(** The check of MicroPython's decoder: a byte below 0x80 stands alone, a
    lead byte 0xC0..0xF7 asks for one, two or three continuation bytes
    (0x80..0xBF), and nothing may be left pending at the end. A
    continuation byte in lead position and a byte from 0xF8 on are
    refused. [need] is the number of continuation bytes still awaited. *)
Definition utf8_need (c : Z) : Z :=
  Z.land (Z.shiftr 229 (Z.land (Z.shiftr c 3) 6)) 3.

Fixpoint utf8_scan (need : nat) (bs : bytes) : bool :=
  match bs with
  | [] => Nat.eqb need 0
  | b :: rest =>
    let c := int_of_byte b in
    match need with
    | S k => if is_cont b then utf8_scan k rest else false
    | O =>
      if 192 <=? c then
        if 248 <=? c then false
        else utf8_scan (Z.to_nat (utf8_need c)) rest
      else if 128 <=? c then false
      else utf8_scan 0 rest
    end
  end.

Definition decodable (bs : bytes) : bool := utf8_scan 0 bs.

(** [s.encode('utf-8')]. *)
Definition str_encode (s : string) : bytes := list_byte_of_string s.

(** [b.decode('utf-8')]. *)
Definition bytes_decode (b : bytes) : result string :=
  if decodable b then Ok (string_of_list_byte b) else Raise UnicodeError.

(** [range(start, stop, step)] for a positive step. *)
Definition py_range (start stop step : Z) : list Z :=
  map (fun k => start + step * Z.of_nat k)
      (seq 0 (Z.to_nat ((stop - start + step - 1) / step))).

(** ** The world: EEPROM, bus, console *)

Definition EEPROM_SIZE : Z := 4096.
Definition PAGE_SIZE : Z := 32.

(** One entry of the bus log: a transfer on the I2C bus with its outcome
    ([acked = false] when it failed with [OSError]), or the pause after a page
    write. *)
Inductive bus_op : Type :=
| WriteMem (address : Z) (chunk : bytes) (acked : bool)
| ReadMem (address : Z) (nbytes : Z) (acked : bool)
| SleepMs (ms : Z).

(** What an interpolated field of a printed line shows. *)
Inductive arg : Type :=
| AInt (n : Z)
| AStr (s : string)
| AExn (e : exn)
| AHex (b : bytes)
| ALocaltime (t : Z).

(** A printed line: the text of the Python literal and the values that
    fill its fields, in order. *)
Inductive line : Type :=
| Line (text : string) (args : list arg).

(** [eeprom] is the content of the 4 KB device, addressed modulo its size.
    [faults] schedules the bus: each transfer consumes the head, and [true]
    makes that transfer fail with [OSError]; once the list is exhausted every
    transfer succeeds. [bus_log] records every transfer attempted, oldest
    first; [stdout] every line printed; [stdin] the lines [input] will
    return. *)
Record world : Type := World {
  eeprom : Z -> byte;
  faults : list bool;
  bus_log : list bus_op;
  stdout : list line;
  stdin : list string
}.

Definition M (A : Type) : Type := world -> result A * world.

Definition ret {A : Type} (a : A) : M A := fun w => (Ok a, w).

Definition raise {A : Type} (e : exn) : M A := fun w => (Raise e, w).

Definition bind {A B : Type} (m : M A) (k : A -> M B) : M B :=
  fun w =>
    match m w with
    | (Ok a, w') => k a w'
    | (Raise e, w') => (Raise e, w')
    end.

(** Runs [m] and hands back how it ended, for [try ... except]. *)
Definition attempt {A : Type} (m : M A) : M (result A) :=
  fun w => let (r, w') := m w in (Ok r, w').

Definition lift {A : Type} (r : result A) : M A := fun w => (r, w).

Declare Scope py_scope.
Delimit Scope py_scope with py.
Notation "x <- m ;; k" := (bind m (fun x => k))
  (at level 61, m at next level, right associativity) : py_scope.
Notation "m ;; k" := (bind m (fun _ => k))
  (at level 61, right associativity) : py_scope.
Open Scope py_scope.

(** The world after one more line on the console. *)
Definition printed (l : line) (w : world) : world :=
  World (eeprom w) (faults w) (bus_log w) (stdout w ++ [l]) (stdin w).

(** The world after one more entry in the bus log. *)
Definition logged (op : bus_op) (w : world) : world :=
  World (eeprom w) (faults w) (bus_log w ++ [op]) (stdout w) (stdin w).

(** The world after a transfer took its outcome from the schedule. *)
Definition transferred (op : bus_op) (w : world) : world :=
  World (eeprom w) (tl (faults w)) (bus_log w ++ [op]) (stdout w) (stdin w).

(** The outcome scheduled for the next transfer. *)
Definition next_fault (w : world) : bool := hd false (faults w).

Definition print (text : string) (args : list arg) : M unit :=
  fun w => (Ok tt, printed (Line text args) w).

Definition mem_read (m : Z -> byte) (address : Z) : byte :=
  m (address mod EEPROM_SIZE).

Definition mem_read_range (m : Z -> byte) (address : Z) (n : nat) : bytes :=
  map (fun i => mem_read m (address + Z.of_nat i)) (seq 0 n).

(** Stores [data] at [address], [address + 1], ... (modulo the size). *)
Definition mem_write (m : Z -> byte) (address : Z) (data : bytes)
  : Z -> byte :=
  fun x =>
    let off := (x - address) mod EEPROM_SIZE in
    if off <? len data then nth (Z.to_nat off) data x00 else m x.

(** [i2c.writeto_mem(EEPROM_I2C_ADDR, address, chunk, addrsize=16)]:
    on success the chunk is in the device. *)
Definition i2c_writeto_mem (address : Z) (chunk : bytes) : M unit :=
  fun w =>
    if next_fault w
    then (Raise OSError, transferred (WriteMem address chunk false) w)
    else (Ok tt,
          World (mem_write (eeprom w) address chunk) (tl (faults w))
                (bus_log w ++ [WriteMem address chunk true])
                (stdout w) (stdin w)).

(** [i2c.readfrom_mem(EEPROM_I2C_ADDR, address, nbytes, addrsize=16)]:
    on success exactly [nbytes] bytes come back. *)
Definition i2c_readfrom_mem (address : Z) (nbytes : Z) : M bytes :=
  fun w =>
    if next_fault w
    then (Raise OSError, transferred (ReadMem address nbytes false) w)
    else (Ok (mem_read_range (eeprom w) address (Z.to_nat nbytes)),
          transferred (ReadMem address nbytes true) w).

(** [time.sleep_ms(ms)]. *)
Definition sleep_ms (ms : Z) : M unit :=
  fun w => (Ok tt, logged (SleepMs ms) w).

(** [input(prompt)]: shows the prompt and takes the next line typed. *)
Definition input (prompt : string) : M string :=
  fun w =>
    let w1 := printed (Line prompt []) w in
    match stdin w with
    | [] => (Raise EOFError, w1)
    | l :: ls =>
      (Ok l, World (eeprom w1) (faults w1) (bus_log w1) (stdout w1) ls)
    end.

(** [for x in xs: body x], for loops without [break] or [return]. *)
Fixpoint for_in {A : Type} (xs : list A) (body : A -> M unit) : M unit :=
  match xs with
  | [] => ret tt
  | x :: rest => body x ;; for_in rest body
  end.

(** [b[i]] on a bytes object. *)
Definition bytes_getitem (b : bytes) (i : nat) : result Z :=
  match nth_error b i with
  | Some x => Ok (int_of_byte x)
  | None => Raise IndexError
  end.

(** [s.strip()] and [s.lower()], on ASCII. *)
Definition is_space (c : Ascii.ascii) : bool :=
  let n := Z.of_nat (Ascii.nat_of_ascii c) in
  (n =? 32) || ((9 <=? n) && (n <=? 13)).

Fixpoint lstrip (s : string) : string :=
  match s with
  | EmptyString => EmptyString
  | String c t => if is_space c then lstrip t else s
  end.

Fixpoint rstrip (s : string) : string :=
  match s with
  | EmptyString => EmptyString
  | String c t =>
    match rstrip t with
    | EmptyString => if is_space c then EmptyString else String c EmptyString
    | t' => String c t'
    end
  end.

Definition strip (s : string) : string := rstrip (lstrip s).

Definition lower_char (c : Ascii.ascii) : Ascii.ascii :=
  let n := Ascii.nat_of_ascii c in
  if (65 <=? n)%nat && (n <=? 90)%nat then Ascii.ascii_of_nat (n + 32) else c.

Fixpoint lower (s : string) : string :=
  match s with
  | EmptyString => EmptyString
  | String c t => String (lower_char c) (lower t)
  end.

(** ** EEPROM read/write functions *)

(** The body of [while data:] in [write_bytes_to_eeprom]. Every round
    removes at least one byte, so [length data] rounds of [fuel] are
    enough: with that much the loop ends on exhausted data or on a failed
    page write, never on the fuel (see [write_loop_spec]). *)
Fixpoint write_loop (fuel : nat) (address : Z) (data : bytes) : M unit :=
  match fuel, data with
  | O, _ => ret tt
  | _, [] => ret tt
  | S fuel', _ =>
    let chunk := firstn (Z.to_nat PAGE_SIZE) data in
    let data' := skipn (Z.to_nat PAGE_SIZE) data in
    r <- attempt (i2c_writeto_mem address chunk ;;
                  sleep_ms 10 ;;
                  ret (address + len chunk)) ;;
    match r with
    | Ok address' => write_loop fuel' address' data'
    | Raise e =>
      if is_OSError e
      then print "Failed to write to EEPROM:" [AExn e]   (* break *)
      else raise e
    end
  end.

Definition write_bytes_to_eeprom (address : Z) (data : bytes) : M unit :=
  write_loop (List.length data) address data ;;
  print "Bytes written to EEPROM successfully." [].

Definition read_bytes_from_eeprom (address : Z) (length : Z)
  : M (option bytes) :=
  r <- attempt (i2c_readfrom_mem address length) ;;
  match r with
  | Ok data => ret (Some data)
  | Raise e =>
    if is_OSError e
    then print "Failed to read from EEPROM:" [AExn e] ;; ret None
    else raise e
  end.

Definition read_string_from_eeprom (address : Z) (length : Z)
  : M (option string) :=
  data <- read_bytes_from_eeprom address length ;;
  match data with
  | Some d =>
    if len d =? length then
      match bytes_decode d with
      | Ok s => ret (Some s)
      | Raise e =>
        if is_ValueError e
        then print "Failed to decode string from EEPROM:" [AExn e] ;;
             ret None
        else raise e
      end
    else
      print "Failed to read {length} bytes from EEPROM at address {address}"
            [AInt length; AInt address] ;;
      ret None
  | None =>
    print "Failed to read {length} bytes from EEPROM at address {address}"
          [AInt length; AInt address] ;;
    ret None
  end.

(** ** Event management *)

Record Event : Type := mkEvent {
  event_name : string;
  start_time : Z;
  end_time : Z;
  speaker_name : string;
  description : string
}.

Definition save_event_to_eeprom (event : Event) (address : Z) : M unit :=
  let data : bytes := [] in
  (* Serialize Event Name *)
  let event_name_bytes := str_encode (event_name event) in
  if len event_name_bytes >? 50 then
    print "Event name too long! Maximum 50 bytes allowed." []
  else
    data <- lift (bytearray_append data (len event_name_bytes)) ;;
    let data := data ++ event_name_bytes in
    (* Serialize Start Time (4 bytes) *)
    st <- lift (to_bytes_big (start_time event) 4) ;;
    let data := data ++ st in
    (* Serialize End Time (4 bytes) *)
    et <- lift (to_bytes_big (end_time event) 4) ;;
    let data := data ++ et in
    (* Serialize Speaker Name *)
    let speaker_name_bytes := str_encode (speaker_name event) in
    if len speaker_name_bytes >? 50 then
      print "Speaker name too long! Maximum 50 bytes allowed." []
    else
      data <- lift (bytearray_append data (len speaker_name_bytes)) ;;
      let data := data ++ speaker_name_bytes in
      (* Serialize Description *)
      let description_bytes := str_encode (description event) in
      if len description_bytes >? 138 then
        print "Description too long! Maximum 138 bytes allowed." []
      else
        dl <- lift (to_bytes_big (len description_bytes) 2) ;;
        let data := data ++ dl in
        let data := data ++ description_bytes in
        (* Ensure total data length does not exceed 250 bytes *)
        if len data >? 250 then
          print "Serialized event size {len(data)} exceeds 250 bytes. Cannot save."
                [AInt (len data)]
        else
          (* Write serialized data to EEPROM *)
          write_bytes_to_eeprom address data ;;
          print "Event saved successfully." [] ;;
          (* Optional Verification *)
          verification_data <- read_bytes_from_eeprom address (len data) ;;
          match verification_data with
          | Some v =>
            if bytes_eqb v data
            then print "Verification Successful: Data written correctly." []
            else print "Verification Failed: Data mismatch." []
          | None => print "Verification Failed: Data mismatch." []
          end.

Definition load_event_from_eeprom (address : Z) : M (option Event) :=
  print "Loading event from EEPROM address {address}" [AInt address] ;;
  (* Read Event Name Length *)
  event_name_length_bytes <- read_bytes_from_eeprom address 1 ;;
  match event_name_length_bytes with
  | None => print "Failed to read event name length." [] ;; ret None
  | Some event_name_length_bytes =>
  event_name_length <- lift (bytes_getitem event_name_length_bytes 0) ;;
  print "Event Name Length: {event_name_length}" [AInt event_name_length] ;;
  (* Check if the entire event slot is empty *)
  if event_name_length =? 255 then
    print "Event slot at address {address} is empty." [AInt address] ;;
    ret None
  else
  (* Validate event_name_length *)
  if (event_name_length =? 0) || (event_name_length >? 50) then
    print "Invalid event name length ({event_name_length}) at address {address}. Skipping."
          [AInt event_name_length; AInt address] ;;
    ret None
  else
  let address := address + 1 in
  (* Read Event Name *)
  event_name <- read_string_from_eeprom address event_name_length ;;
  match event_name with
  | None =>
    print "Invalid event name at address {address}. Skipping event."
          [AInt address] ;;
    ret None
  | Some event_name =>
  let address := address + event_name_length in
  (* Read Start Time *)
  start_time_bytes <- read_bytes_from_eeprom address 4 ;;
  match start_time_bytes with
  | None => print "Failed to read start time." [] ;; ret None
  | Some start_time_bytes =>
  if negb (len start_time_bytes =? 4) then
    print "Failed to read start time." [] ;; ret None
  else
  let start_time := from_bytes_big start_time_bytes in
  print "Start Time (Epoch): {start_time}" [AInt start_time] ;;
  let address := address + 4 in
  (* Read End Time *)
  end_time_bytes <- read_bytes_from_eeprom address 4 ;;
  match end_time_bytes with
  | None => print "Failed to read end time." [] ;; ret None
  | Some end_time_bytes =>
  if negb (len end_time_bytes =? 4) then
    print "Failed to read end time." [] ;; ret None
  else
  let end_time := from_bytes_big end_time_bytes in
  print "End Time (Epoch): {end_time}" [AInt end_time] ;;
  let address := address + 4 in
  (* Read Speaker Name Length *)
  speaker_name_length_bytes <- read_bytes_from_eeprom address 1 ;;
  match speaker_name_length_bytes with
  | None => print "Failed to read speaker name length." [] ;; ret None
  | Some speaker_name_length_bytes =>
  speaker_name_length <- lift (bytes_getitem speaker_name_length_bytes 0) ;;
  print "Speaker Name Length: {speaker_name_length}"
        [AInt speaker_name_length] ;;
  (* Check if the speaker name field is entirely empty *)
  if speaker_name_length =? 255 then
    print "Speaker name field at address {address} is empty." [AInt address] ;;
    ret None
  else
  (* Validate speaker_name_length *)
  if (speaker_name_length =? 0) || (speaker_name_length >? 50) then
    print "Invalid speaker name length ({speaker_name_length}) at address {address}. Skipping."
          [AInt speaker_name_length; AInt address] ;;
    ret None
  else
  let address := address + 1 in
  (* Read Speaker Name *)
  speaker_name <- read_string_from_eeprom address speaker_name_length ;;
  match speaker_name with
  | None =>
    print "Invalid speaker name at address {address}. Skipping event."
          [AInt address] ;;
    ret None
  | Some speaker_name =>
  let address := address + speaker_name_length in
  (* Read Description Length *)
  description_length_bytes <- read_bytes_from_eeprom address 2 ;;
  match description_length_bytes with
  | None => print "Failed to read description length." [] ;; ret None
  | Some description_length_bytes =>
  if negb (len description_length_bytes =? 2) then
    print "Failed to read description length." [] ;; ret None
  else
  let description_length := from_bytes_big description_length_bytes in
  print "Description Length: {description_length}"
        [AInt description_length] ;;
  (* Check if the description field is entirely empty *)
  if description_length =? 65535 then
    print "Description field at address {address} is empty." [AInt address] ;;
    ret None
  else
  (* Validate description_length *)
  if (description_length =? 0) || (description_length >? 138) then
    print "Invalid description length ({description_length}) at address {address}. Skipping."
          [AInt description_length; AInt address] ;;
    ret None
  else
  let address := address + 2 in
  (* Read Description *)
  description <- read_string_from_eeprom address description_length ;;
  match description with
  | None =>
    print "Invalid description at address {address}. Skipping event."
          [AInt address] ;;
    ret None
  | Some description =>
  (* Create Event Object *)
  let event :=
    mkEvent event_name start_time end_time speaker_name description in
  print "Event loaded successfully." [] ;;
  ret (Some event)
  end end end end end end end end.

(** [range(max_events)]. *)
Definition list_all_events (start_address max_events event_size : Z)
  : M unit :=
  print "\nListing All Events:" [] ;;
  for_in (py_range 0 max_events 1) (fun i =>
    let addr := start_address + i * event_size in
    print "\nChecking Event {i + 1} at EEPROM address {addr}:"
          [AInt (i + 1); AInt addr] ;;
    event <- load_event_from_eeprom addr ;;
    match event with
    | Some event =>
      print "  Event {i + 1}:" [AInt (i + 1)] ;;
      print "    Name: {event.event_name}" [AStr (event_name event)] ;;
      print "    Start Time: {start_tuple[0]}-{start_tuple[1]:02}-{start_tuple[2]:02} {start_tuple[3]:02}:{start_tuple[4]:02}:{start_tuple[5]:02}"
            [ALocaltime (start_time event)] ;;
      print "    End Time: {end_tuple[0]}-{end_tuple[1]:02}-{end_tuple[2]:02} {end_tuple[3]:02}:{end_tuple[4]:02}:{end_tuple[5]:02}"
            [ALocaltime (end_time event)] ;;
      print "    Speaker: {event.speaker_name}" [AStr (speaker_name event)] ;;
      print "    Description: {event.description}"
            [AStr (description event)]
    | None =>
      print "  Event {i + 1}: No valid data found." [AInt (i + 1)]
    end).

(** ** EEPROM management *)

(** The strokes of [wipe_eeprom]: [true] when the loop ran to its end,
    [false] when the handler returned from inside it. *)
Fixpoint wipe_strokes (addrs : list Z) : M bool :=
  match addrs with
  | [] => ret true
  | addr :: rest =>
    let remaining := EEPROM_SIZE - addr in
    let chunk_size :=
      if remaining >=? PAGE_SIZE then PAGE_SIZE else remaining in
    (* Create a chunk filled with 0xFF (common erased state) *)
    let chunk := repeat xff (Z.to_nat chunk_size) in
    r <- attempt (write_bytes_to_eeprom addr chunk ;;
                  print "  Wiped {addr} to {addr + chunk_size - 1}"
                        [AInt addr; AInt (addr + chunk_size - 1)]) ;;
    match r with
    | Ok _ => wipe_strokes rest
    | Raise e =>
      print "Failed to wipe EEPROM at address {addr}: {e}"
            [AInt addr; AExn e] ;;
      ret false
    end
  end.

Definition verification_addresses : list Z :=
  [0; 250; 500; 750; 1000; 1250; 1500; 1750; 2000; 2250; 2500; 2750; 3000;
   3250; 3500; 3750; 4000].

(** The read-back loop of [wipe_eeprom], threading [all_wiped]. *)
Fixpoint verify_wiped (addrs : list Z) (all_wiped : bool) : M bool :=
  match addrs with
  | [] => ret all_wiped
  | v_addr :: rest =>
    data <- read_bytes_from_eeprom v_addr 1 ;;
    match data with
    | Some d =>
      if bytes_eqb d [xff] then verify_wiped rest all_wiped
      else
        print "Verification Failed: Address {v_addr} contains {data.hex()} instead of FF."
              [AInt v_addr; AHex d] ;;
        verify_wiped rest false
    | None => raise AttributeError   (* data.hex() on None *)
    end
  end.

Definition wipe_eeprom : M unit :=
  print "\n*** WARNING: This will erase all data in the EEPROM! ***" [] ;;
  reply <- input "Are you sure you want to wipe the EEPROM? (yes/no): " ;;
  let confirmation := lower (strip reply) in
  if negb (String.eqb confirmation "yes" || String.eqb confirmation "y") then
    print "EEPROM wipe canceled." []
  else
    print "Wiping EEPROM..." [] ;;
    (* Iterate through the entire EEPROM in PAGE_SIZE chunks *)
    finished <- wipe_strokes (py_range 0 EEPROM_SIZE PAGE_SIZE) ;;
    if negb finished then ret tt
    else
      print "EEPROM wiped successfully." [] ;;
      (* Verification Step *)
      all_wiped <- verify_wiped verification_addresses true ;;
      if all_wiped
      then print "Verification Successful: All checked addresses are wiped." []
      else print "Verification Failed: Some addresses were not wiped correctly." [].

(** ** The record layout *)

(** The bytes [save_event_to_eeprom] hands to the writer for an event it
    accepts: length-prefixed name, two big-endian 32-bit times,
    length-prefixed speaker, 16-bit-length-prefixed description. *)
Definition encode (e : Event) : bytes :=
  [byte_of_Z (len (str_encode (event_name e)))]
    ++ str_encode (event_name e)
    ++ rev (le_digits 4 (start_time e))
    ++ rev (le_digits 4 (end_time e))
    ++ [byte_of_Z (len (str_encode (speaker_name e)))]
    ++ str_encode (speaker_name e)
    ++ rev (le_digits 2 (len (str_encode (description e))))
    ++ str_encode (description e).

(** Address of a slot. *)
Definition slot_address (slot_index : Z) : Z := slot_index * 250.

(** A device in the erased state, a quiet bus and an empty console. *)
Definition erased : Z -> byte := fun _ => xff.

Definition fresh_world : world := World erased [] [] [] [].

Definition ceremony : Event :=
  mkEvent "Ceremony" 1730649600 1730653200 "Elliot" "Badges!".

(** * Vocabulary of the properties *)

(** ** Runs *)

(** [wp m Q w]: running [m] in [w] ends in a result and a world that
    satisfy [Q]. Every [m] runs to an end, so this is total correctness. *)
Definition wp {A : Type} (m : M A) (Q : result A -> world -> Prop)
  (w : world) : Prop :=
  Q (fst (m w)) (snd (m w)).

(** Two worlds that differ at most in what is on the console. *)
Definition same_device (w1 w2 : world) : Prop :=
  eeprom w1 = eeprom w2 /\ faults w1 = faults w2
  /\ bus_log w1 = bus_log w2 /\ stdin w1 = stdin w2.

(** [m] does not look at the console: from worlds that differ only there it
    gives the same result and worlds that again differ only there. *)
Definition blind {A : Type} (m : M A) : Prop :=
  forall w1 w2,
    same_device w1 w2 ->
    fst (m w1) = fst (m w2) /\ same_device (snd (m w1)) (snd (m w2)).

(** ** Device and bus *)

(** The bytes [data] sit in the device from [address] on. *)
Definition slot_holds (m : Z -> byte) (address : Z) (data : bytes) : Prop :=
  mem_read_range m address (List.length data) = data.

(** The next [n] transfers succeed. *)
Fixpoint quiet_for (n : nat) (fs : list bool) : Prop :=
  match n with
  | O => True
  | S k => hd false fs = false /\ quiet_for k (tl fs)
  end.

(** Number of page writes that [n] bytes take. *)
Definition pages (n : Z) : nat := Z.to_nat ((n + PAGE_SIZE - 1) / PAGE_SIZE).

Definition is_write (op : bus_op) : bool :=
  match op with
  | WriteMem _ _ _ => true
  | _ => false
  end.

Definition is_acked_write (op : bus_op) : bool :=
  match op with
  | WriteMem _ _ acked => acked
  | _ => false
  end.

(** What the read-back of [wipe_eeprom] cannot do: it leaves the device
    alone and puts no write on the bus. *)
Definition reads_only (w w' : world) : Prop :=
  eeprom w' = eeprom w
  /\ exists t, bus_log w' = bus_log w ++ t
               /\ forallb (fun op => negb (is_write op)) t = true.

(** ** Events of the data model *)

(** Encoded lengths of the three text fields. *)
Definition name_len (e : Event) : Z := len (str_encode (event_name e)).
Definition speaker_len (e : Event) : Z := len (str_encode (speaker_name e)).
Definition description_len (e : Event) : Z :=
  len (str_encode (description e)).

(** [n] fits an unsigned 32-bit integer. *)
Definition in_u32 (n : Z) : bool := (0 <=? n) && (n <? 2 ^ 32).

(** [n] is a value that [to_bytes(4, 'big')] converts: unsigned 32-bit, or
    negative and signed 32-bit. *)
Definition to_bytes_fits (n : Z) : bool := (- 2 ^ 31 <=? n) && (n <? 2 ^ 32).

(** A text field is well-formed UTF-8 within its bound. *)
Definition valid_text (s : string) (bound : Z) : Prop :=
  utf8_check (str_encode s) = true /\ len (str_encode s) <= bound.

(** Upper bounds, encodings and timestamps of the data model; the lower
    bound of one byte is left out here and handled where it matters. *)
Definition encodable (e : Event) : Prop :=
  valid_text (event_name e) 50
  /\ valid_text (speaker_name e) 50
  /\ valid_text (description e) 138
  /\ in_u32 (start_time e) = true
  /\ in_u32 (end_time e) = true.

Definition has_empty_field (e : Event) : bool :=
  (name_len e =? 0) || (speaker_len e =? 0) || (description_len e =? 0).

(** An event of the data model: every text field well-formed UTF-8 of at
    least one byte and at most its bound, both times unsigned 32-bit. *)
Definition valid_event (e : Event) : Prop :=
  encodable e /\ 1 <= name_len e /\ 1 <= speaker_len e
  /\ 1 <= description_len e.

Definition with_description (e : Event) (d : string) : Event :=
  mkEvent (event_name e) (start_time e) (end_time e) (speaker_name e) d.

(** A text that the decoder accepts, within its bound. *)
Definition decodable_text (s : string) (bound : Z) : Prop :=
  decodable (str_encode s) = true /\ len (str_encode s) <= bound.

(** As [encodable], with the decoder's check in place of well-formedness:
    the records that [load_event_from_eeprom] can read. *)
Definition storable (e : Event) : Prop :=
  decodable_text (event_name e) 50
  /\ decodable_text (speaker_name e) 50
  /\ decodable_text (description e) 138
  /\ in_u32 (start_time e) = true
  /\ in_u32 (end_time e) = true.

(** As [valid_event], with the decoder's check in place of
    well-formedness: the events that [load_event_from_eeprom] can
    return. *)
Definition loadable (e : Event) : Prop :=
  storable e /\ 1 <= name_len e /\ 1 <= speaker_len e
  /\ 1 <= description_len e.

(** The event passes every check on the way to the writer in
    [save_event_to_eeprom]. *)
Definition passes_checks (e : Event) : bool :=
  negb (name_len e >? 50)
  && to_bytes_fits (start_time e) && to_bytes_fits (end_time e)
  && negb (speaker_len e >? 50) && negb (description_len e >? 138).

(** ** The writer and the save *)

Definition write_failed_line : line :=
  Line "Failed to write to EEPROM:" [AExn OSError].

Definition read_failed_line : line :=
  Line "Failed to read from EEPROM:" [AExn OSError].

Definition verified_line : line :=
  Line "Verification Successful: Data written correctly." [].

Definition mismatch_line : line :=
  Line "Verification Failed: Data mismatch." [].

Definition saved_lines : list line :=
  [Line "Bytes written to EEPROM successfully." [];
   Line "Event saved successfully." []].

(** The bus log of one run of the [while data:] loop on [data] from
    [address]: page after page, each followed by its pause, until the data
    is exhausted ([true]) or a page write fails, which ends the log
    ([false]). *)
Inductive write_trace : Z -> bytes -> list bus_op -> bool -> Prop :=
| wt_done address : write_trace address [] [] true
| wt_fail address data :
    data <> [] ->
    write_trace address data
      [WriteMem address (firstn (Z.to_nat PAGE_SIZE) data) false] false
| wt_ok address data l ok :
    data <> [] ->
    write_trace (address + len (firstn (Z.to_nat PAGE_SIZE) data))
                (skipn (Z.to_nat PAGE_SIZE) data) l ok ->
    write_trace address data
      (WriteMem address (firstn (Z.to_nat PAGE_SIZE) data) true
         :: SleepMs 10 :: l) ok.

(** What a run of the loop guarantees. It returns normally; its bus log is
    a [write_trace]; a failure is printed; when all pages went through, the
    device holds the data; and it goes through when the bus is quiet for as
    many transfers as there are pages. *)
Definition write_post (address : Z) (data : bytes) (w : world)
  (r : result unit) (w' : world) : Prop :=
  r = Ok tt
  /\ exists l ok,
      write_trace address data l ok
      /\ bus_log w' = bus_log w ++ l
      /\ stdout w' = stdout w ++ (if ok then [] else [write_failed_line])
      /\ stdin w' = stdin w
      /\ (ok = true -> len data <= EEPROM_SIZE ->
          forall x, eeprom w' x = mem_write (eeprom w) address data x)
      /\ (quiet_for (pages (len data)) (faults w) ->
          ok = true /\ faults w' = skipn (pages (len data)) (faults w)).

(** The end of [save_event_to_eeprom], once [data] is serialized and found
    to fit: write, announce, read back and compare. *)
Definition commit (address : Z) (data : bytes) : M unit :=
  write_bytes_to_eeprom address data ;;
  print "Event saved successfully." [] ;;
  verification_data <- read_bytes_from_eeprom address (len data) ;;
  match verification_data with
  | Some v =>
    if bytes_eqb v data
    then print "Verification Successful: Data written correctly." []
    else print "Verification Failed: Data mismatch." []
  | None => print "Verification Failed: Data mismatch." []
  end.

(** What [commit] guarantees: it returns normally whatever the bus does;
    its transfers are the pages of a [write_trace] and then one read-back;
    the console shows the two success lines in every case; and on a quiet
    bus the device holds the data and the read-back agrees. *)
Definition commit_post (address : Z) (data : bytes) (w : world)
  (r : result unit) (w' : world) : Prop :=
  r = Ok tt
  /\ exists l ok rd verdict,
      write_trace address data l ok
      /\ bus_log w' = bus_log w ++ l ++ [ReadMem address (len data) rd]
      /\ stdout w' = stdout w
                       ++ (if ok then [] else [write_failed_line])
                       ++ saved_lines
                       ++ (if rd then [] else [read_failed_line])
                       ++ [verdict]
      /\ stdin w' = stdin w
      /\ (ok = true -> len data <= EEPROM_SIZE ->
          forall x, eeprom w' x = mem_write (eeprom w) address data x)
      /\ (quiet_for (S (pages (len data))) (faults w) ->
          ok = true /\ rd = true
          /\ faults w' = skipn (S (pages (len data))) (faults w)
          /\ (len data <= EEPROM_SIZE -> verdict = verified_line)).

(** ** The load *)

(** What [load_event_from_eeprom] leaves behind when it stops at the first
    byte: nothing but that one-byte read on the bus, and the device as it
    was. *)
Definition stopped_at_first_byte (address : Z) (w w' : world) : Prop :=
  (exists acked, bus_log w' = bus_log w ++ [ReadMem address 1 acked])
  /\ eeprom w' = eeprom w.

Definition loading_text : string :=
  "Loading event from EEPROM address {address}".

Definition header_text : string := "  Event {i + 1}:".

(** A line that is neither the announcement of a load nor the header of a
    listed event. *)
Definition is_plain (l : line) : bool :=
  match l with
  | Line text _ =>
    negb (String.eqb text loading_text) && negb (String.eqb text header_text)
  end.

(** What every run of [load_event_from_eeprom] does, whatever it finds:
    it returns normally, it announces the address first and prints only
    plain lines after that, and it leaves the device and the keyboard
    alone. *)
Definition load_post (address : Z) (w : world)
  (r : result (option Event)) (w' : world) : Prop :=
  (exists v, r = Ok v)
  /\ (exists l, stdout w' = stdout w ++ Line loading_text [AInt address] :: l
                /\ forallb is_plain l = true)
  /\ eeprom w' = eeprom w
  /\ stdin w' = stdin w
  /\ (faults w = [] -> faults w' = []).

(** ** The wipe *)

(** A whole page of 0xFF bytes. *)
Definition blank_page : bytes := repeat xff (Z.to_nat PAGE_SIZE).

(** The buffer of the stroke at [offset]: [min(P, S - offset)] bytes of
    0xFF. *)
Definition stroke (offset : Z) : bytes :=
  repeat xff (Z.to_nat (Z.min PAGE_SIZE (EEPROM_SIZE - offset))).

Definition stroke_ops (addr : Z) : list bus_op :=
  [WriteMem addr (stroke addr) true; SleepMs 10].

Definition stroke_lines (addr : Z) : list line :=
  [Line "Bytes written to EEPROM successfully." [];
   Line "  Wiped {addr} to {addr + chunk_size - 1}"
        [AInt addr; AInt (addr + PAGE_SIZE - 1)]].

(** Whether some stroke at one of [addrs] covers the cell [x]. *)
Definition covered (addrs : list Z) (x : Z) : bool :=
  existsb (fun addr => (x - addr) mod EEPROM_SIZE <? PAGE_SIZE) addrs.

Definition wipe_addresses : list Z := py_range 0 EEPROM_SIZE PAGE_SIZE.

(** The reply that lets [wipe_eeprom] go ahead. *)
Definition confirms (reply : string) : bool :=
  String.eqb (lower (strip reply)) "yes" || String.eqb (lower (strip reply)) "y".

(** The state of affairs after a wipe: on the bus, the strokes over the
    whole address range, page by page, followed by no further write; in the
    device, 0xFF everywhere. *)
Definition wiped (w w' : world) : Prop :=
  (exists t,
      bus_log w' = bus_log w ++ flat_map stroke_ops wipe_addresses ++ t
      /\ forallb (fun op => negb (is_write op)) t = true)
  /\ (forall a, mem_read (eeprom w') a = xff).

(** ** The listing *)

(** The enumeration as the specification words it: slot indices from 0 to
    [maxSlots - 1] in order, one load each, and only the pairs of an index
    and the record its load returned. *)
Fixpoint listSlots_from (start_address : Z) (n : nat) (slot_index : Z)
  : M (list (Z * Event)) :=
  match n with
  | O => ret []
  | S n' =>
    r <- load_event_from_eeprom (start_address + slot_index * 250) ;;
    rest <- listSlots_from start_address n' (slot_index + 1) ;;
    ret (match r with
         | Some event => (slot_index, event) :: rest
         | None => rest
         end)
  end.

Definition listSlots (start_address maxSlots : Z) : M (list (Z * Event)) :=
  listSlots_from start_address (Z.to_nat maxSlots) 0.

(** Reading the console: which loads were announced, and which events were
    listed. An event is listed by its header line, which carries the index
    plus one, and the five lines of its fields. *)
Fixpoint loaded_addresses (out : list line) : list Z :=
  match out with
  | [] => []
  | Line text [AInt address] :: rest =>
    if String.eqb text loading_text
    then address :: loaded_addresses rest
    else loaded_addresses rest
  | _ :: rest => loaded_addresses rest
  end.

Definition fields_of (lines : list line) : option Event :=
  match lines with
  | Line _ [AStr name] :: Line _ [ALocaltime st] :: Line _ [ALocaltime et]
      :: Line _ [AStr speaker] :: Line _ [AStr descr] :: _ =>
    Some (mkEvent name st et speaker descr)
  | _ => None
  end.

Definition parse_block (l : line) (rest : list line) : option (Z * Event) :=
  match l with
  | Line text [AInt n] =>
    if String.eqb text header_text
    then option_map (fun e => (n - 1, e)) (fields_of rest)
    else None
  | _ => None
  end.

Fixpoint emitted (out : list line) : list (Z * Event) :=
  match out with
  | [] => []
  | l :: rest =>
    match parse_block l rest with
    | Some p => p :: emitted rest
    | None => emitted rest
    end
  end.

Definition not_header (l : line) : bool :=
  match l with Line text _ => negb (String.eqb text header_text) end.

Definition not_loading (l : line) : bool :=
  match l with Line text _ => negb (String.eqb text loading_text) end.

(** The lines that list the event found at index [i]. *)
Definition event_lines (i : Z) (event : Event) : list line :=
  [Line "  Event {i + 1}:" [AInt (i + 1)];
   Line "    Name: {event.event_name}" [AStr (event_name event)];
   Line "    Start Time: {start_tuple[0]}-{start_tuple[1]:02}-{start_tuple[2]:02} {start_tuple[3]:02}:{start_tuple[4]:02}:{start_tuple[5]:02}"
        [ALocaltime (start_time event)];
   Line "    End Time: {end_tuple[0]}-{end_tuple[1]:02}-{end_tuple[2]:02} {end_tuple[3]:02}:{end_tuple[4]:02}:{end_tuple[5]:02}"
        [ALocaltime (end_time event)];
   Line "    Speaker: {event.speaker_name}" [AStr (speaker_name event)];
   Line "    Description: {event.description}" [AStr (description event)]].

(** What the loop of [list_all_events] prints after the load at index [i]
    returned [r]. *)
Definition report_lines (i : Z) (r : option Event) : list line :=
  match r with
  | Some event => event_lines i event
  | None => [Line "  Event {i + 1}: No valid data found." [AInt (i + 1)]]
  end.

Definition checking_line (i addr : Z) : line :=
  Line "\nChecking Event {i + 1} at EEPROM address {addr}:"
       [AInt (i + 1); AInt addr].

(** The body of the loop of [list_all_events]. *)
Definition slot_report (start_address event_size i : Z) : M unit :=
  let addr := start_address + i * event_size in
  print "\nChecking Event {i + 1} at EEPROM address {addr}:"
        [AInt (i + 1); AInt addr] ;;
  event <- load_event_from_eeprom addr ;;
  match event with
  | Some event =>
    print "  Event {i + 1}:" [AInt (i + 1)] ;;
    print "    Name: {event.event_name}" [AStr (event_name event)] ;;
    print "    Start Time: {start_tuple[0]}-{start_tuple[1]:02}-{start_tuple[2]:02} {start_tuple[3]:02}:{start_tuple[4]:02}:{start_tuple[5]:02}"
          [ALocaltime (start_time event)] ;;
    print "    End Time: {end_tuple[0]}-{end_tuple[1]:02}-{end_tuple[2]:02} {end_tuple[3]:02}:{end_tuple[4]:02}:{end_tuple[5]:02}"
          [ALocaltime (end_time event)] ;;
    print "    Speaker: {event.speaker_name}" [AStr (speaker_name event)] ;;
    print "    Description: {event.description}" [AStr (description event)]
  | None =>
    print "  Event {i + 1}: No valid data found." [AInt (i + 1)]
  end.

(** ** Sample events and worlds *)

Definition long_name : string :=
  "012345678901234567890123456789012345678901234567890".

Definition full_event : Event :=
  mkEvent "01234567890123456789012345678901234567890123456789" 1730649600 1730653200
          "abcdefghijklmnopqrstuvwxyzabcdefghijklmnopqrstuvwx"
          "ABCDEFGHIJKLMNOPQRSTUVWXYZABCDEFGHIJKLMNOPQRSTUVWXYZABCDEFGHIJKLMNOPQRSTUVWXYZABCDEFGHIJKLMNOPQRSTUVWXYZABCDEFGHIJKLMNOPQRSTUVWXYZABCDEFGH".

Definition overfull_description : string :=
  "ABCDEFGHIJKLMNOPQRSTUVWXYZABCDEFGHIJKLMNOPQRSTUVWXYZABCDEFGHIJKLMNOPQRSTUVWXYZABCDEFGHIJKLMNOPQRSTUVWXYZABCDEFGHIJKLMNOPQRSTUVWXYZABCDEFGH!".

Definition nameless : Event :=
  mkEvent "" 1730649600 1730653200 "Elliot" "Badges!".

Definition workshop : Event :=
  mkEvent "Workshop" 1730656800 1730660400 "Voja" "Soldering 101".

(** A bus on which the very first transfer fails. *)
Definition failing_world : world := World erased [true] [] [] [].

(** A device holding the ceremony in slot 0, and an operator about to
    answer the prompt. *)
Definition used_world : world :=
  World (eeprom (snd (save_event_to_eeprom ceremony 0 fresh_world)))
        [] [] [] ["  YES "%string].

(** The same device, and an operator about to decline. *)
Definition declined_world : world :=
  World (eeprom used_world) [] [] [] ["no"%string].

(** The ceremony in slot 0, nothing in slot 1, the workshop in slot 2. *)
Definition listing_world : world :=
  World (eeprom (snd (save_event_to_eeprom workshop (slot_address 2)
                        (snd (save_event_to_eeprom ceremony (slot_address 0)
                                                   fresh_world)))))
        [] [] [] [].

(** * The real-time clock (DS3231) *)

(** ** BCD conversion *)

(** [dec_to_bcd(val)]: [(val // 10 << 4) + (val % 10)]. *)
Definition dec_to_bcd (val : Z) : Z := Z.shiftl (val / 10) 4 + val mod 10.

(** [bcd_to_dec(val)]: [((val >> 4) * 10) + (val & 0x0F)]. *)
Definition bcd_to_dec (val : Z) : Z := Z.shiftr val 4 * 10 + Z.land val 15.

(** [bytes([...])]: [ValueError] unless every element is in [range(256)]. *)
Fixpoint bytes_of_ints (l : list Z) : result bytes :=
  match l with
  | [] => Ok []
  | n :: rest =>
    if (0 <=? n) && (n <? 256) then
      match bytes_of_ints rest with
      | Ok bs => Ok (byte_of_Z n :: bs)
      | Raise e => Raise e
      end
    else Raise ValueError
  end.

(** ** The clock on the bus *)

(** The clock chip as the program sees it: its registers, the schedule and
    the log of its transfers, and the console. The registers are taken to
    be plain cells that keep what was written to them: the running of the
    clock between two transfers is not modelled. *)
Record clock : Type := Clock {
  registers : Z -> byte;
  clock_faults : list bool;
  clock_log : list bus_op;
  clock_out : list line
}.

Definition T (A : Type) : Type := clock -> result A * clock.

Definition tret {A : Type} (a : A) : T A := fun c => (Ok a, c).

Definition traise {A : Type} (e : exn) : T A := fun c => (Raise e, c).

Definition tbind {A B : Type} (m : T A) (k : A -> T B) : T B :=
  fun c =>
    match m c with
    | (Ok a, c') => k a c'
    | (Raise e, c') => (Raise e, c')
    end.

Definition tattempt {A : Type} (m : T A) : T (result A) :=
  fun c => let (r, c') := m c in (Ok r, c').

Definition tlift {A : Type} (r : result A) : T A := fun c => (r, c).

Declare Scope rtc_scope.
Delimit Scope rtc_scope with rtc.
Notation "x <- m ;; k" := (tbind m (fun x => k))
  (at level 61, m at next level, right associativity) : rtc_scope.
Notation "m ;; k" := (tbind m (fun _ => k))
  (at level 61, right associativity) : rtc_scope.

Definition tprinted (l : line) (c : clock) : clock :=
  Clock (registers c) (clock_faults c) (clock_log c) (clock_out c ++ [l]).

Definition tprint (text : string) (args : list arg) : T unit :=
  fun c => (Ok tt, tprinted (Line text args) c).

Definition regs_read (r : Z -> byte) (memaddr : Z) (n : nat) : bytes :=
  map (fun i => r (memaddr + Z.of_nat i)) (seq 0 n).

Definition regs_write (r : Z -> byte) (memaddr : Z) (data : bytes)
  : Z -> byte :=
  fun x =>
    if (memaddr <=? x) && (x <? memaddr + len data)
    then nth (Z.to_nat (x - memaddr)) data x00
    else r x.

(** [i2c.writeto_mem(DS3231_I2C_ADDR, memaddr, data)]. *)
Definition rtc_writeto_mem (memaddr : Z) (data : bytes) : T unit :=
  fun c =>
    if hd false (clock_faults c)
    then (Raise OSError,
          Clock (registers c) (tl (clock_faults c))
                (clock_log c ++ [WriteMem memaddr data false]) (clock_out c))
    else (Ok tt,
          Clock (regs_write (registers c) memaddr data) (tl (clock_faults c))
                (clock_log c ++ [WriteMem memaddr data true]) (clock_out c)).

(** [i2c.readfrom_mem(DS3231_I2C_ADDR, memaddr, nbytes)]. *)
Definition rtc_readfrom_mem (memaddr : Z) (nbytes : Z) : T bytes :=
  fun c =>
    if hd false (clock_faults c)
    then (Raise OSError,
          Clock (registers c) (tl (clock_faults c))
                (clock_log c ++ [ReadMem memaddr nbytes false]) (clock_out c))
    else (Ok (regs_read (registers c) memaddr (Z.to_nat nbytes)),
          Clock (registers c) (tl (clock_faults c))
                (clock_log c ++ [ReadMem memaddr nbytes true]) (clock_out c)).

(** ** Setting and reading the time *)

Definition set_time (year month date day hour minute second : Z) : T unit :=
  (let year := year mod 100 in
   data <- tlift (bytes_of_ints [dec_to_bcd second;
                                 dec_to_bcd minute;
                                 dec_to_bcd hour;
                                 dec_to_bcd day;
                                 dec_to_bcd date;
                                 dec_to_bcd month;
                                 dec_to_bcd year]) ;;
   r <- tattempt (rtc_writeto_mem 0 data ;;
                  tprint "Time set successfully." []) ;;
   match r with
   | Ok _ => tret tt
   | Raise e =>
     if is_OSError e
     then tprint "Failed to set time:" [AExn e]
     else traise e
   end)%rtc.

Definition read_time : T (option (Z * Z * Z * Z * Z * Z * Z)) :=
  (r <- tattempt
         (data <- rtc_readfrom_mem 0 7 ;;
          d0 <- tlift (bytes_getitem data 0) ;;
          let second := bcd_to_dec d0 in
          d1 <- tlift (bytes_getitem data 1) ;;
          let minute := bcd_to_dec d1 in
          d2 <- tlift (bytes_getitem data 2) ;;
          let hour := bcd_to_dec d2 in
          d3 <- tlift (bytes_getitem data 3) ;;
          let day := bcd_to_dec d3 in
          d4 <- tlift (bytes_getitem data 4) ;;
          let date := bcd_to_dec d4 in
          d5 <- tlift (bytes_getitem data 5) ;;
          let month := bcd_to_dec (Z.land d5 31) in
          d6 <- tlift (bytes_getitem data 6) ;;
          let year := bcd_to_dec d6 + 2000 in
          tprint "Read Time: {year}-{month:02}-{date:02} {hour:02}:{minute:02}:{second:02}"
                 [AInt year; AInt month; AInt date; AInt hour; AInt minute;
                  AInt second] ;;
          tret (year, month, date, day, hour, minute, second)) ;;
   match r with
   | Ok t => tret (Some t)
   | Raise e =>
     if is_OSError e
     then tprint "Failed to read time:" [AExn e] ;; tret None
     else traise e
   end)%rtc.

(** ** Vocabulary for the clock *)

(** A field value whose BCD code fits one register. *)
Definition bcd_field (v : Z) : Prop := 0 <= v < 160.

(** The seven bytes [set_time] builds, seconds first. *)
Definition time_registers (year month date day hour minute second : Z)
  : bytes :=
  map byte_of_Z [dec_to_bcd second; dec_to_bcd minute; dec_to_bcd hour;
                 dec_to_bcd day; dec_to_bcd date; dec_to_bcd month;
                 dec_to_bcd (year mod 100)].

Definition time_set_line : line := Line "Time set successfully." [].

Definition time_failed_line : line := Line "Failed to set time:" [AExn OSError].

(** * More of the store *)

(** ** Strings on the device *)

Definition write_string_to_eeprom (address : Z) (string : string) : M unit :=
  let data := str_encode string in
  write_bytes_to_eeprom address data ;;
  print "String written to EEPROM successfully." [].

(** ** Vocabulary for the writer *)

(** How many of the next [n] transfers succeed before the first failure. *)
Fixpoint acked_run (n : nat) (fs : list bool) : nat :=
  match n with
  | O => O
  | S k => if hd false fs then O else S (acked_run k (tl fs))
  end.

(** The bytes of [data] that sit in its first [k] pages. *)
Definition first_pages (k : nat) (data : bytes) : bytes :=
  firstn (Z.to_nat PAGE_SIZE * k) data.

(** Page [k] of [data]. *)
Definition page (k : nat) (data : bytes) : bytes :=
  firstn (Z.to_nat PAGE_SIZE) (skipn (Z.to_nat PAGE_SIZE * k) data).

(** What the writer may put on the bus for [data] at [address]: page [k]
    of the data, not empty, at [address] plus [k] pages; or its pause. *)
Definition page_op (address : Z) (data : bytes) (op : bus_op) : Prop :=
  match op with
  | WriteMem a chunk _ =>
    exists k : nat,
      (k < pages (len data))%nat
      /\ a = address + PAGE_SIZE * Z.of_nat k
      /\ chunk = page k data
      /\ 1 <= len chunk <= PAGE_SIZE
  | SleepMs ms => ms = 10
  | ReadMem _ _ _ => False
  end.

(** The line of the last check of [save_event_to_eeprom]. *)
Definition size_line (n : Z) : line :=
  Line "Serialized event size {len(data)} exceeds 250 bytes. Cannot save."
       [AInt n].

(** Every line the end of [save_event_to_eeprom] can print. *)
Definition commit_lines : list line :=
  [write_failed_line;
   Line "Bytes written to EEPROM successfully." [];
   Line "Event saved successfully." [];
   read_failed_line; verified_line; mismatch_line].

(** The lines with which [save_event_to_eeprom] turns an event down. *)
Definition rejection_lines : list line :=
  [Line "Event name too long! Maximum 50 bytes allowed." [];
   Line "Speaker name too long! Maximum 50 bytes allowed." [];
   Line "Description too long! Maximum 138 bytes allowed." []].

(** The 250 cells of slot [slot_index]. *)
Definition slot_content (m : Z -> byte) (slot_index : Z) : bytes :=
  mem_read_range m (slot_address slot_index) 250.

(** ** Vocabulary for the bus log *)

Definition is_read (op : bus_op) : bool :=
  match op with
  | ReadMem _ _ _ => true
  | _ => false
  end.

(** A transfer that failed with [OSError]. *)
Definition is_failed (op : bus_op) : bool :=
  match op with
  | WriteMem _ _ acked => negb acked
  | ReadMem _ _ acked => negb acked
  | SleepMs _ => false
  end.

(** What every run of [load_event_from_eeprom] puts on the bus: between
    one and eight reads; and when one of them failed, the result is
    [None]. *)
Definition load_bus_post (w : world) (r : result (option Event))
  (w' : world) : Prop :=
  exists l,
    bus_log w' = bus_log w ++ l
    /\ forallb is_read l = true
    /\ (1 <= List.length l <= 8)%nat
    /\ (existsb is_failed l = true -> r = Ok None).

(** A world whose second transfer fails. *)
Definition second_fails (w : world) : world :=
  World (eeprom w) [false; true] (bus_log w) (stdout w) (stdin w).

(** ** Vocabulary for the wipe *)

(** The addresses of the writes attempted in a bus log, oldest first. *)
Definition write_attempts (l : list bus_op) : list Z :=
  flat_map (fun op => match op with
                      | WriteMem a _ _ => [a]
                      | _ => []
                      end) l.

Definition wipe_done_line : line := Line "EEPROM wiped successfully." [].

(** Whether a line is the report of the handler in the stroke loop. *)
Definition is_wipe_failure (l : line) : bool :=
  match l with
  | Line text _ =>
    String.eqb text "Failed to wipe EEPROM at address {addr}: {e}"
  end.

(** The console of a wipe that was confirmed and went through. *)
Definition wipe_transcript : list line :=
  [Line "\n*** WARNING: This will erase all data in the EEPROM! ***" [];
   Line "Are you sure you want to wipe the EEPROM? (yes/no): " [];
   Line "Wiping EEPROM..." []]
    ++ flat_map stroke_lines wipe_addresses
    ++ [wipe_done_line;
        Line "Verification Successful: All checked addresses are wiped." []].

(** The reads of the verification of a wipe, all acknowledged. *)
Definition verification_reads : list bus_op :=
  map (fun a => ReadMem a 1 true) verification_addresses.

(** What the stroke loop does on any bus: it runs to its end, makes one
    write attempt per stroke, and never reports a failed stroke. *)
Definition strokes_post (addrs : list Z) (w : world) (r : result bool)
  (w' : world) : Prop :=
  r = Ok true
  /\ faults w' = skipn (List.length addrs) (faults w)
  /\ stdin w' = stdin w
  /\ (exists t, bus_log w' = bus_log w ++ t /\ write_attempts t = addrs)
  /\ (exists out, stdout w' = stdout w ++ out
                  /\ existsb is_wipe_failure out = false).

(** The strokes among [addrs] that the schedule [fs] lets through, one
    transfer per stroke. *)
Fixpoint acked_strokes (addrs : list Z) (fs : list bool) : list Z :=
  match addrs with
  | [] => []
  | addr :: rest =>
    if hd false fs
    then acked_strokes rest (tl fs)
    else addr :: acked_strokes rest (tl fs)
  end.

Definition check_passed_line : line :=
  Line "Verification Successful: All checked addresses are wiped." [].

(** The cell [a] reads 0xFF once the strokes acknowledged under the
    schedule [fs] have been made on the device [m]. *)
Definition reads_blank (m : Z -> byte) (fs : list bool) (a : Z) : Prop :=
  covered (acked_strokes wipe_addresses fs) a = true \/ mem_read m a = xff.

(** A device with the ceremony in slot 0 and a bus that refuses the second
    transfer; the operator will confirm. *)
Definition half_wiped_world : world :=
  World (eeprom used_world) [false; true] [] [] ["yes"%string].

(** ** Vocabulary for the listing *)

(** The events a run of [list_all_events] over slots of 250 bytes lists on
    the console, each with its slot index. *)
Definition listing (start_address max_events : Z) (w : world)
  : list (Z * Event) :=
  emitted (skipn (List.length (stdout w))
                 (stdout (snd (list_all_events start_address max_events 250
                                               w)))).

(** Slot [i] from [start_address] on holds the record of [e], an event
    that the loader can return. *)
Definition stores (m : Z -> byte) (start_address i : Z) (e : Event) : Prop :=
  loadable e /\ slot_holds m (start_address + i * 250) (encode e).

(** * The reset script (CalendarReset.py) *)

(** The script has its own copies of the store's functions. The loop of
    the writer, the readers and the clock functions are the same text as in
    Calendar_demo.py and are shared here; what differs is modelled again
    under the same names. *)
Module CalendarReset.

(** No line is printed after the loop. *)
Definition write_bytes_to_eeprom (address : Z) (data : bytes) : M unit :=
  write_loop (List.length data) address data.

(** No read-back after the write. *)
Definition save_event_to_eeprom (event : Event) (address : Z) : M unit :=
  let data : bytes := [] in
  let event_name_bytes := str_encode (event_name event) in
  if len event_name_bytes >? 50 then
    print "Event name too long! Maximum 50 bytes allowed." []
  else
    data <- lift (bytearray_append data (len event_name_bytes)) ;;
    let data := data ++ event_name_bytes in
    st <- lift (to_bytes_big (start_time event) 4) ;;
    let data := data ++ st in
    et <- lift (to_bytes_big (end_time event) 4) ;;
    let data := data ++ et in
    let speaker_name_bytes := str_encode (speaker_name event) in
    if len speaker_name_bytes >? 50 then
      print "Speaker name too long! Maximum 50 bytes allowed." []
    else
      data <- lift (bytearray_append data (len speaker_name_bytes)) ;;
      let data := data ++ speaker_name_bytes in
      let description_bytes := str_encode (description event) in
      if len description_bytes >? 138 then
        print "Description too long! Maximum 138 bytes allowed." []
      else
        dl <- lift (to_bytes_big (len description_bytes) 2) ;;
        let data := data ++ dl in
        let data := data ++ description_bytes in
        if len data >? 250 then
          print "Serialized event size {len(data)} exceeds 250 bytes. Cannot save."
                [AInt (len data)]
        else
          write_bytes_to_eeprom address data ;;
          print "Event saved successfully." [].

(** No announcement, no echo of the lengths, and no separate test for an
    erased speaker or description field. *)
Definition load_event_from_eeprom (address : Z) : M (option Event) :=
  event_name_length_bytes <- read_bytes_from_eeprom address 1 ;;
  match event_name_length_bytes with
  | None => print "Failed to read event name length." [] ;; ret None
  | Some event_name_length_bytes =>
  event_name_length <- lift (bytes_getitem event_name_length_bytes 0) ;;
  if event_name_length =? 255 then
    print "Event slot at address {address} is empty." [AInt address] ;;
    ret None
  else
  if (event_name_length =? 0) || (event_name_length >? 50) then
    print "Invalid event name length ({event_name_length}) at address {address}."
          [AInt event_name_length; AInt address] ;;
    ret None
  else
  let address := address + 1 in
  event_name <- read_string_from_eeprom address event_name_length ;;
  match event_name with
  | None =>
    print "Invalid event name at address {address}." [AInt address] ;;
    ret None
  | Some event_name =>
  let address := address + event_name_length in
  start_time_bytes <- read_bytes_from_eeprom address 4 ;;
  match start_time_bytes with
  | None => print "Failed to read start time." [] ;; ret None
  | Some start_time_bytes =>
  if negb (len start_time_bytes =? 4) then
    print "Failed to read start time." [] ;; ret None
  else
  let start_time := from_bytes_big start_time_bytes in
  let address := address + 4 in
  end_time_bytes <- read_bytes_from_eeprom address 4 ;;
  match end_time_bytes with
  | None => print "Failed to read end time." [] ;; ret None
  | Some end_time_bytes =>
  if negb (len end_time_bytes =? 4) then
    print "Failed to read end time." [] ;; ret None
  else
  let end_time := from_bytes_big end_time_bytes in
  let address := address + 4 in
  speaker_name_length_bytes <- read_bytes_from_eeprom address 1 ;;
  match speaker_name_length_bytes with
  | None => print "Failed to read speaker name length." [] ;; ret None
  | Some speaker_name_length_bytes =>
  speaker_name_length <- lift (bytes_getitem speaker_name_length_bytes 0) ;;
  if (speaker_name_length =? 0) || (speaker_name_length >? 50) then
    print "Invalid speaker name length ({speaker_name_length}) at address {address}."
          [AInt speaker_name_length; AInt address] ;;
    ret None
  else
  let address := address + 1 in
  speaker_name <- read_string_from_eeprom address speaker_name_length ;;
  match speaker_name with
  | None =>
    print "Invalid speaker name at address {address}." [AInt address] ;;
    ret None
  | Some speaker_name =>
  let address := address + speaker_name_length in
  description_length_bytes <- read_bytes_from_eeprom address 2 ;;
  match description_length_bytes with
  | None => print "Failed to read description length." [] ;; ret None
  | Some description_length_bytes =>
  if negb (len description_length_bytes =? 2) then
    print "Failed to read description length." [] ;; ret None
  else
  let description_length := from_bytes_big description_length_bytes in
  if (description_length =? 0) || (description_length >? 138) then
    print "Invalid description length ({description_length}) at address {address}."
          [AInt description_length; AInt address] ;;
    ret None
  else
  let address := address + 2 in
  description <- read_string_from_eeprom address description_length ;;
  match description with
  | None =>
    print "Invalid description at address {address}." [AInt address] ;;
    ret None
  | Some description =>
  let event :=
    mkEvent event_name start_time end_time speaker_name description in
  print "Event loaded successfully." [] ;;
  ret (Some event)
  end end end end end end end end.

(** The strokes of the wipe; nothing is printed per stroke. *)
Fixpoint wipe_strokes (addrs : list Z) : M bool :=
  match addrs with
  | [] => ret true
  | addr :: rest =>
    let remaining := EEPROM_SIZE - addr in
    let chunk_size :=
      if remaining >=? PAGE_SIZE then PAGE_SIZE else remaining in
    let chunk := repeat xff (Z.to_nat chunk_size) in
    r <- attempt (write_bytes_to_eeprom addr chunk) ;;
    match r with
    | Ok _ => wipe_strokes rest
    | Raise e =>
      print "Failed to wipe EEPROM at address {addr}: {e}"
            [AInt addr; AExn e] ;;
      ret false
    end
  end.

(** No question is asked and nothing is read back. *)
Definition wipe_eeprom : M unit :=
  print "Wiping EEPROM..." [] ;;
  finished <- wipe_strokes (py_range 0 EEPROM_SIZE PAGE_SIZE) ;;
  if negb finished then ret tt
  else print "EEPROM wiped successfully." [].

End CalendarReset.

(** ** Vocabulary for comparing the two programs *)

(** Two runs that, from worlds differing at most on the console, give the
    same result and worlds that again differ at most there. *)
Definition agree {A : Type} (m1 m2 : M A) : Prop :=
  forall w1 w2,
    same_device w1 w2 ->
    fst (m1 w1) = fst (m2 w2) /\ same_device (snd (m1 w1)) (snd (m2 w2)).

(** * Properties *)

(** ** Bytes and big-endian integers *)

Lemma int_of_byte_range (b : byte) : 0 <= int_of_byte b < 256.
Proof.
  unfold int_of_byte. pose proof (Byte.to_N_bounded b). lia.
Qed.

Lemma int_of_byte_of_Z (n : Z) : int_of_byte (byte_of_Z n) = n mod 256.
Proof.
  unfold int_of_byte, byte_of_Z.
  assert (Hr : 0 <= n mod 256 < 256) by (apply Z.mod_pos_bound; lia).
  destruct (Byte.of_N (Z.to_N (n mod 256))) as [b|] eqn:E.
  - apply Byte.to_of_N in E. rewrite E. lia.
  - apply Byte.of_N_None_iff in E. lia.
Qed.

Lemma int_of_byte_of_Z_small (n : Z) :
  0 <= n < 256 -> int_of_byte (byte_of_Z n) = n.
Proof.
  intros H. rewrite int_of_byte_of_Z. apply Z.mod_small; lia.
Qed.

Lemma len_app {A : Type} (l1 l2 : list A) : len (l1 ++ l2) = len l1 + len l2.
Proof. unfold len. rewrite length_app. lia. Qed.

Lemma len_nonneg {A : Type} (l : list A) : 0 <= len l.
Proof. unfold len. lia. Qed.

Lemma length_le_digits (k : nat) (n : Z) : List.length (le_digits k n) = k.
Proof.
  revert n. induction k as [|k IH]; intros n; simpl; [reflexivity|].
  now rewrite IH.
Qed.

Lemma from_bytes_big_snoc (l : bytes) (b : byte) :
  from_bytes_big (l ++ [b]) = from_bytes_big l * 256 + int_of_byte b.
Proof. unfold from_bytes_big. rewrite fold_left_app. reflexivity. Qed.

(** Reading back the [k] big-endian digits of [n] gives [n] modulo
    [256 ^ k]. *)
Lemma from_bytes_big_digits (k : nat) (n : Z) :
  from_bytes_big (rev (le_digits k n)) = n mod 256 ^ Z.of_nat k.
Proof.
  revert n. induction k as [|k IH]; intros n.
  - simpl. now rewrite Z.mod_1_r.
  - cbn [le_digits rev]. rewrite from_bytes_big_snoc, IH, int_of_byte_of_Z.
    rewrite Nat2Z.inj_succ, Z.pow_succ_r by lia.
    assert (Hp : 0 < 256 ^ Z.of_nat k) by (apply Z.pow_pos_nonneg; lia).
    rewrite (Z.rem_mul_r n 256 (256 ^ Z.of_nat k)) by lia. lia.
Qed.

Lemma to_bytes_big_fits (n : Z) (k : nat) :
  - (256 ^ Z.of_nat k / 2) <= n < 256 ^ Z.of_nat k ->
  to_bytes_big n k = Ok (rev (le_digits k n)).
Proof.
  intros H. unfold to_bytes_big.
  destruct (n <? _) eqn:E1; [apply Z.ltb_lt in E1; lia|].
  destruct (256 ^ Z.of_nat k <=? n) eqn:E2; [apply Z.leb_le in E2; lia|].
  reflexivity.
Qed.

Lemma to_bytes_big_ok (n : Z) (k : nat) :
  0 <= n < 256 ^ Z.of_nat k -> to_bytes_big n k = Ok (rev (le_digits k n)).
Proof.
  intros H. apply to_bytes_big_fits.
  assert (0 < 256 ^ Z.of_nat k) by (apply Z.pow_pos_nonneg; lia).
  assert (0 <= 256 ^ Z.of_nat k / 2) by (apply Z.div_pos; lia).
  lia.
Qed.

Lemma to_bytes_big_overflow (n : Z) (k : nat) :
  n < - (256 ^ Z.of_nat k / 2) \/ 256 ^ Z.of_nat k <= n ->
  to_bytes_big n k = Raise OverflowError.
Proof.
  intros H. unfold to_bytes_big.
  destruct (n <? _) eqn:E1; [reflexivity|].
  destruct (256 ^ Z.of_nat k <=? n) eqn:E2; [reflexivity|].
  apply Z.ltb_ge in E1. apply Z.leb_gt in E2. lia.
Qed.

Lemma from_to_bytes_big (n : Z) (k : nat) :
  0 <= n < 256 ^ Z.of_nat k -> from_bytes_big (rev (le_digits k n)) = n.
Proof.
  intros H. rewrite from_bytes_big_digits. apply Z.mod_small. exact H.
Qed.

Lemma bytes_eqb_eq (a b : bytes) : bytes_eqb a b = true <-> a = b.
Proof.
  unfold bytes_eqb. destruct (list_eq_dec _ a b); split; congruence.
Qed.

(** ** The decoder's check *)

(** The continuation bytes a lead byte asks for, by its range. *)
Lemma utf8_need_table (b : byte) :
  (let c := int_of_byte b in
   if c <? 192 then true
   else if c <? 224 then utf8_need c =? 1
   else if c <? 240 then utf8_need c =? 2
   else if c <? 248 then utf8_need c =? 3
   else true) = true.
Proof. destruct b; reflexivity. Qed.

Lemma utf8_need_1 (b : byte) :
  192 <= int_of_byte b < 224 -> Z.to_nat (utf8_need (int_of_byte b)) = 1%nat.
Proof.
  intros H. pose proof (utf8_need_table b) as T. cbv zeta in T.
  destruct (_ <? 192) eqn:E1; [apply Z.ltb_lt in E1; lia|].
  destruct (_ <? 224) eqn:E2; [|apply Z.ltb_ge in E2; lia].
  apply Z.eqb_eq in T. now rewrite T.
Qed.

Lemma utf8_need_2 (b : byte) :
  224 <= int_of_byte b < 240 -> Z.to_nat (utf8_need (int_of_byte b)) = 2%nat.
Proof.
  intros H. pose proof (utf8_need_table b) as T. cbv zeta in T.
  destruct (_ <? 192) eqn:E1; [apply Z.ltb_lt in E1; lia|].
  destruct (_ <? 224) eqn:E2; [apply Z.ltb_lt in E2; lia|].
  destruct (_ <? 240) eqn:E3; [|apply Z.ltb_ge in E3; lia].
  apply Z.eqb_eq in T. now rewrite T.
Qed.

Lemma utf8_need_3 (b : byte) :
  240 <= int_of_byte b < 248 -> Z.to_nat (utf8_need (int_of_byte b)) = 3%nat.
Proof.
  intros H. pose proof (utf8_need_table b) as T. cbv zeta in T.
  destruct (_ <? 192) eqn:E1; [apply Z.ltb_lt in E1; lia|].
  destruct (_ <? 224) eqn:E2; [apply Z.ltb_lt in E2; lia|].
  destruct (_ <? 240) eqn:E3; [apply Z.ltb_lt in E3; lia|].
  destruct (_ <? 248) eqn:E4; [|apply Z.ltb_ge in E4; lia].
  apply Z.eqb_eq in T. now rewrite T.
Qed.

Lemma in_range_cont (lo hi : Z) (b : byte) :
  128 <= lo -> hi <= 191 -> in_range lo hi b = true -> is_cont b = true.
Proof.
  unfold in_range, is_cont. intros Hlo Hhi H.
  apply andb_true_iff in H. destruct H as [H1 H2].
  apply Z.leb_le in H1, H2. apply andb_true_iff. split.
  - apply Z.leb_le. lia.
  - apply Z.ltb_lt. lia.
Qed.

(** Where the scan goes from a lead position. *)
Lemma utf8_scan_ascii (b : byte) (rest : bytes) :
  int_of_byte b < 128 -> utf8_scan 0 (b :: rest) = utf8_scan 0 rest.
Proof.
  intros H. cbn [utf8_scan].
  destruct (192 <=? _) eqn:E1; [apply Z.leb_le in E1; lia|].
  destruct (128 <=? _) eqn:E2; [apply Z.leb_le in E2; lia|].
  reflexivity.
Qed.

Lemma utf8_scan_lead (b : byte) (rest : bytes) :
  192 <= int_of_byte b < 248 ->
  utf8_scan 0 (b :: rest)
  = utf8_scan (Z.to_nat (utf8_need (int_of_byte b))) rest.
Proof.
  intros H. cbn [utf8_scan].
  destruct (192 <=? _) eqn:E1; [|apply Z.leb_gt in E1; lia].
  destruct (248 <=? _) eqn:E2; [apply Z.leb_le in E2; lia|].
  reflexivity.
Qed.

(** Well-formed UTF-8 passes the decoder's check. *)
Lemma utf8_check_decodable_len (n : nat) :
  forall bs, (List.length bs <= n)%nat ->
             utf8_check bs = true -> decodable bs = true.
Proof.
  unfold decodable.
  induction n as [|n IH]; intros bs Hn H.
  - destruct bs; [reflexivity | simpl in Hn; lia].
  - destruct bs as [|b0 t0]; [reflexivity|].
    cbn [utf8_check] in H. cbv zeta in H.
    destruct (int_of_byte b0 <? 128) eqn:E0.
    { apply Z.ltb_lt in E0. rewrite utf8_scan_ascii by exact E0.
      apply IH; [simpl in Hn; lia | exact H]. }
    apply Z.ltb_ge in E0.
    destruct t0 as [|b1 t1]; [discriminate H|].
    destruct ((194 <=? int_of_byte b0) && (int_of_byte b0 <=? 223)) eqn:E1.
    { apply andb_true_iff in E1. destruct E1 as [L1 L2].
      apply Z.leb_le in L1, L2.
      apply andb_true_iff in H. destruct H as [C1 H].
      rewrite utf8_scan_lead, utf8_need_1 by lia.
      cbn [utf8_scan]. rewrite C1.
      apply IH; [simpl in Hn; lia | exact H]. }
    destruct t1 as [|b2 t2]; [discriminate H|].
    destruct ((224 <=? int_of_byte b0) && (int_of_byte b0 <=? 239)) eqn:E2.
    { apply andb_true_iff in E2. destruct E2 as [L1 L2].
      apply Z.leb_le in L1, L2.
      apply andb_true_iff in H. destruct H as [H H2].
      apply andb_true_iff in H. destruct H as [C1 C2].
      assert (C1' : is_cont b1 = true).
      { destruct (int_of_byte b0 =? 224);
          [apply (in_range_cont 160 191); [lia | lia | exact C1]|].
        destruct (int_of_byte b0 =? 237);
          [apply (in_range_cont 128 159); [lia | lia | exact C1]|].
        exact C1. }
      rewrite utf8_scan_lead, utf8_need_2 by lia.
      cbn [utf8_scan]. rewrite C1', C2.
      apply IH; [simpl in Hn; lia | exact H2]. }
    destruct t2 as [|b3 t3]; [discriminate H|].
    destruct ((240 <=? int_of_byte b0) && (int_of_byte b0 <=? 244)) eqn:E3;
      [|discriminate H].
    apply andb_true_iff in E3. destruct E3 as [L1 L2].
    apply Z.leb_le in L1, L2.
    apply andb_true_iff in H. destruct H as [H H3].
    apply andb_true_iff in H. destruct H as [H C3].
    apply andb_true_iff in H. destruct H as [C1 C2].
    assert (C1' : is_cont b1 = true).
    { destruct (int_of_byte b0 =? 240);
        [apply (in_range_cont 144 191); [lia | lia | exact C1]|].
      destruct (int_of_byte b0 =? 244);
        [apply (in_range_cont 128 143); [lia | lia | exact C1]|].
      exact C1. }
    rewrite utf8_scan_lead, utf8_need_3 by lia.
    cbn [utf8_scan]. rewrite C1', C2, C3.
    apply IH; [simpl in Hn; lia | exact H3].
Qed.

Lemma utf8_check_decodable (bs : bytes) :
  utf8_check bs = true -> decodable bs = true.
Proof. apply (utf8_check_decodable_len (List.length bs)), le_n. Qed.

(** The converse fails: the decoder takes the overlong form of U+0000 and
    an encoded surrogate. *)
Lemma decodable_not_well_formed :
  decodable [xc0; x80] = true /\ utf8_check [xc0; x80] = false
  /\ decodable [xed; xa0; x80] = true /\ utf8_check [xed; xa0; x80] = false.
Proof. repeat split. Qed.

(** ** Reasoning about runs: weakest preconditions *)

Section WpRules.
Context {A B : Type}.

Lemma wp_ret (a : A) Q w : Q (Ok a) w -> wp (ret a) Q w.
Proof. exact (fun H => H). Qed.

Lemma wp_raise (e : exn) (Q : result A -> world -> Prop) w :
  Q (Raise e) w -> wp (raise e) Q w.
Proof. exact (fun H => H). Qed.

Lemma wp_lift (r : result A) Q w : Q r w -> wp (lift r) Q w.
Proof. exact (fun H => H). Qed.

Lemma wp_bind (m : M A) (k : A -> M B) Q w :
  wp m (fun r w' =>
          match r with
          | Ok a => wp (k a) Q w'
          | Raise e => Q (Raise e) w'
          end) w ->
  wp (bind m k) Q w.
Proof.
  unfold wp, bind. destruct (m w) as [[a|e] w']; simpl; auto.
Qed.

Lemma wp_attempt (m : M A) Q w :
  wp m (fun r w' => Q (Ok r) w') w -> wp (attempt m) Q w.
Proof.
  unfold wp, attempt. destruct (m w) as [r w']; simpl; auto.
Qed.

Lemma wp_mono (m : M A) (Q Q' : result A -> world -> Prop) w :
  wp m Q w -> (forall r w', Q r w' -> Q' r w') -> wp m Q' w.
Proof. unfold wp. auto. Qed.

Lemma wp_run (m : M A) Q w r w' : m w = (r, w') -> Q r w' -> wp m Q w.
Proof. unfold wp. intros ->. auto. Qed.
End WpRules.

Lemma wp_print text args Q w :
  Q (Ok tt) (printed (Line text args) w) -> wp (print text args) Q w.
Proof. exact (fun H => H). Qed.

Lemma wp_sleep_ms ms Q w :
  Q (Ok tt) (logged (SleepMs ms) w) -> wp (sleep_ms ms) Q w.
Proof. exact (fun H => H). Qed.

Lemma wp_i2c_writeto_mem address chunk Q w :
  (next_fault w = true ->
   Q (Raise OSError) (transferred (WriteMem address chunk false) w)) ->
  (next_fault w = false ->
   Q (Ok tt)
     (World (mem_write (eeprom w) address chunk) (tl (faults w))
            (bus_log w ++ [WriteMem address chunk true])
            (stdout w) (stdin w))) ->
  wp (i2c_writeto_mem address chunk) Q w.
Proof.
  intros Hf Hs. unfold wp, i2c_writeto_mem.
  destruct (next_fault w); simpl; auto.
Qed.

Lemma wp_i2c_readfrom_mem address nbytes Q w :
  (next_fault w = true ->
   Q (Raise OSError) (transferred (ReadMem address nbytes false) w)) ->
  (next_fault w = false ->
   Q (Ok (mem_read_range (eeprom w) address (Z.to_nat nbytes)))
     (transferred (ReadMem address nbytes true) w)) ->
  wp (i2c_readfrom_mem address nbytes) Q w.
Proof.
  intros Hf Hs. unfold wp, i2c_readfrom_mem.
  destruct (next_fault w); simpl; auto.
Qed.

(** A read either delivers the bytes, or fails, says so, and gives
    [None]. *)
Lemma wp_read_bytes address length Q w :
  (next_fault w = false ->
   Q (Ok (Some (mem_read_range (eeprom w) address (Z.to_nat length))))
     (transferred (ReadMem address length true) w)) ->
  (next_fault w = true ->
   Q (Ok None)
     (printed (Line "Failed to read from EEPROM:" [AExn OSError])
              (transferred (ReadMem address length false) w))) ->
  wp (read_bytes_from_eeprom address length) Q w.
Proof.
  intros Hs Hf. unfold read_bytes_from_eeprom.
  apply wp_bind, wp_attempt, wp_i2c_readfrom_mem; intros Hn; cbv beta iota.
  - cbn [is_OSError]. apply wp_bind, wp_print. cbv beta iota.
    apply wp_ret. auto.
  - apply wp_ret. auto.
Qed.

Lemma length_mem_read_range m address n :
  List.length (mem_read_range m address n) = n.
Proof. unfold mem_read_range. now rewrite length_map, length_seq. Qed.

(** A string read has three ends: the text, undecodable bytes, or a failed
    transfer. *)
Lemma wp_read_string address length Q w :
  0 <= length ->
  (next_fault w = false ->
   decodable (mem_read_range (eeprom w) address (Z.to_nat length)) = true ->
   Q (Ok (Some (string_of_list_byte
                  (mem_read_range (eeprom w) address (Z.to_nat length)))))
     (transferred (ReadMem address length true) w)) ->
  (next_fault w = false ->
   decodable (mem_read_range (eeprom w) address (Z.to_nat length)) = false ->
   Q (Ok None)
     (printed (Line "Failed to decode string from EEPROM:" [AExn UnicodeError])
              (transferred (ReadMem address length true) w))) ->
  (next_fault w = true ->
   Q (Ok None)
     (printed (Line "Failed to read {length} bytes from EEPROM at address {address}"
                    [AInt length; AInt address])
        (printed (Line "Failed to read from EEPROM:" [AExn OSError])
                 (transferred (ReadMem address length false) w)))) ->
  wp (read_string_from_eeprom address length) Q w.
Proof.
  intros Hlen Hok Hbad Hf. unfold read_string_from_eeprom.
  apply wp_bind, wp_read_bytes; intros Hn; cbv beta iota.
  - unfold len. rewrite length_mem_read_range, Z2Nat.id, Z.eqb_refl by lia.
    unfold bytes_decode.
    destruct (decodable _) eqn:E.
    + apply wp_ret. auto.
    + cbn [is_ValueError]. apply wp_bind, wp_print. cbv beta iota.
      apply wp_ret. auto.
  - apply wp_bind, wp_print. cbv beta iota. apply wp_ret. auto.
Qed.

Lemma mem_read_range_1 m address :
  mem_read_range m address 1 = [mem_read m address].
Proof.
  unfold mem_read_range. simpl. now rewrite Z.add_0_r.
Qed.

(** One step of a run. *)
Ltac wp_step :=
  lazymatch goal with
  | |- wp (bind _ _) _ _ => apply wp_bind
  | |- wp (ret _) _ _ => apply wp_ret
  | |- wp (raise _) _ _ => apply wp_raise
  | |- wp (lift _) _ _ => apply wp_lift
  | |- wp (print _ _) _ _ => apply wp_print
  | |- wp (sleep_ms _) _ _ => apply wp_sleep_ms
  | |- wp (attempt _) _ _ => apply wp_attempt
  | |- wp (read_bytes_from_eeprom _ _) _ _ =>
    apply wp_read_bytes; intros ?
  end; cbv beta iota.

Ltac wp_steps := repeat wp_step.

(** ** Decoding: the first byte decides *)

Lemma load_stops_at_first_byte (address : Z) (w : world) :
  let first := int_of_byte (mem_read (eeprom w) address) in
  first = 255 \/ first = 0 \/ first > 50 ->
  fst (load_event_from_eeprom address w) = Ok None
  /\ stopped_at_first_byte address w
       (snd (load_event_from_eeprom address w)).
Proof.
  intros first Hfirst.
  change (wp (load_event_from_eeprom address)
             (fun r w' => r = Ok None /\ stopped_at_first_byte address w w')
             w).
  unfold load_event_from_eeprom, stopped_at_first_byte. wp_steps.
  - change (Z.to_nat 1) with 1%nat. cbn [eeprom printed].
    rewrite mem_read_range_1. cbn [bytes_getitem nth_error].
    wp_steps. fold first.
    destruct (first =? 255) eqn:E255.
    + wp_steps. cbn. eauto.
    + apply Z.eqb_neq in E255.
      destruct ((first =? 0) || (first >? 50)) eqn:Einv.
      * wp_steps. cbn. eauto.
      * apply orb_false_elim in Einv. destruct Einv as [E0 E50].
        apply Z.eqb_neq in E0. rewrite Z.gtb_ltb in E50.
        apply Z.ltb_ge in E50. lia.
  - cbn. eauto.
Qed.

(** C4. A slot whose first byte is 0xFF (erased), 0, or above 50 loads as
    [None], whatever follows that byte, and the only transfer of the load is
    the one-byte read of that first byte. *)
Theorem load_first_byte_classification (address : Z) (w : world) :
  let first := int_of_byte (mem_read (eeprom w) address) in
  first = 255 \/ first = 0 \/ first > 50 ->
  fst (load_event_from_eeprom address w) = Ok None
  /\ stopped_at_first_byte address w
       (snd (load_event_from_eeprom address w)).
Proof.
  intros first Hfirst.
  destruct (load_stops_at_first_byte address w Hfirst) as [Hnone Hstop].
  split.
  - exact Hnone.
  - exact Hstop.
Qed.

Lemma load_first_byte_classification_witness :
  int_of_byte (mem_read (eeprom fresh_world) 0) = 255
  /\ fst (load_event_from_eeprom 0 fresh_world) = Ok None
  /\ stopped_at_first_byte 0 fresh_world
       (snd (load_event_from_eeprom 0 fresh_world)).
Proof.
  split; [reflexivity|].
  apply (load_first_byte_classification 0 fresh_world).
  left. reflexivity.
Defined.

(** ** The device as a memory *)

Lemma map_seq_shift {A : Type} (f : nat -> A) (s n : nat) :
  map f (seq s n) = map (fun i => f (s + i)%nat) (seq 0 n).
Proof.
  revert f s. induction n as [|n IH]; intros f s; simpl.
  - reflexivity.
  - rewrite Nat.add_0_r. f_equal.
    rewrite (IH f (S s)), (IH (fun i => f (s + i)%nat) 1%nat).
    apply map_ext. intros i. f_equal. lia.
Qed.

Lemma mem_read_range_app m address n1 n2 :
  mem_read_range m address (n1 + n2)
  = mem_read_range m address n1
      ++ mem_read_range m (address + Z.of_nat n1) n2.
Proof.
  unfold mem_read_range. rewrite seq_app, map_app. f_equal.
  rewrite Nat.add_0_l, map_seq_shift.
  apply map_ext. intros i. f_equal. lia.
Qed.

Lemma app_eq_length {A : Type} (a b c d : list A) :
  a ++ b = c ++ d -> List.length a = List.length c -> a = c /\ b = d.
Proof.
  revert c. induction a as [|x a IH]; intros [|y c] H Hl; simpl in *;
    try discriminate.
  - auto.
  - injection H as -> H. injection Hl as Hl.
    destruct (IH c H Hl) as [-> ->]. auto.
Qed.

Lemma slot_holds_app m address d1 d2 :
  slot_holds m address (d1 ++ d2) ->
  slot_holds m address d1 /\ slot_holds m (address + len d1) d2.
Proof.
  unfold slot_holds. rewrite length_app, mem_read_range_app. intros H.
  apply app_eq_length in H.
  - exact H.
  - now rewrite length_mem_read_range.
Qed.

Lemma mem_write_same m address data i :
  0 <= i < len data -> len data <= EEPROM_SIZE ->
  mem_read (mem_write m address data) (address + i)
  = nth (Z.to_nat i) data x00.
Proof.
  unfold mem_read, mem_write, EEPROM_SIZE. intros Hi Hl.
  replace (((address + i) mod 4096 - address) mod 4096) with i.
  - destruct (i <? len data) eqn:E; [reflexivity|].
    apply Z.ltb_ge in E. lia.
  - rewrite Zminus_mod_idemp_l.
    replace (address + i - address) with i by lia.
    symmetry. apply Z.mod_small. lia.
Qed.

Lemma mem_read_range_eq m address data :
  (forall i, (i < List.length data)%nat ->
             mem_read m (address + Z.of_nat i) = nth i data x00) ->
  mem_read_range m address (List.length data) = data.
Proof.
  revert address. induction data as [|x d IH]; intros address H.
  - reflexivity.
  - change (List.length (x :: d)) with (1 + List.length d)%nat.
    rewrite mem_read_range_app, mem_read_range_1. cbn [app]. f_equal.
    + assert (H0 : (0 < List.length (x :: d))%nat) by (simpl; lia).
      specialize (H 0%nat H0). cbn [nth Z.of_nat] in H.
      rewrite Z.add_0_r in H. exact H.
    + apply IH. intros i Hi.
      assert (Hs : (S i < List.length (x :: d))%nat) by (simpl; lia).
      specialize (H (S i) Hs). cbn [nth] in H. rewrite <- H.
      f_equal. lia.
Qed.

(** What was written can be read back. *)
Lemma slot_holds_write m address data :
  len data <= EEPROM_SIZE -> slot_holds (mem_write m address data) address data.
Proof.
  intros Hl. apply mem_read_range_eq. intros i Hi.
  rewrite mem_write_same by (unfold len in *; lia).
  now rewrite Nat2Z.id.
Qed.

Lemma slot_holds_ext m m' address data :
  (forall x, m' x = m x) -> slot_holds m address data ->
  slot_holds m' address data.
Proof.
  unfold slot_holds, mem_read_range, mem_read. intros Hx H.
  rewrite <- H at 2. apply map_ext. intros i. apply Hx.
Qed.

(** Writing [c1] and then [c2] right behind it is writing [c1 ++ c2]. *)
Lemma mem_write_app m address c1 c2 x :
  len c1 + len c2 <= EEPROM_SIZE ->
  mem_write (mem_write m address c1) (address + len c1) c2 x
  = mem_write m address (c1 ++ c2) x.
Proof.
  unfold mem_write, EEPROM_SIZE. intros Hl.
  pose proof (len_nonneg c1) as H1. pose proof (len_nonneg c2) as H2.
  rewrite len_app.
  replace (x - (address + len c1)) with (x - address - len c1) by lia.
  rewrite <- (Zminus_mod_idemp_l (x - address)).
  assert (Ho : 0 <= (x - address) mod 4096 < 4096)
    by (apply Z.mod_pos_bound; lia).
  set (off := (x - address) mod 4096) in *.
  destruct (off <? len c1) eqn:E1.
  - apply Z.ltb_lt in E1.
    replace ((off - len c1) mod 4096) with (off - len c1 + 4096)
      by (apply Z.mod_unique with (q := -1); lia).
    destruct (off - len c1 + 4096 <? len c2) eqn:E2;
      [apply Z.ltb_lt in E2; lia|].
    destruct (off <? len c1 + len c2) eqn:E3;
      [|apply Z.ltb_ge in E3; lia].
    rewrite app_nth1 by (unfold len in E1; lia). reflexivity.
  - apply Z.ltb_ge in E1.
    rewrite (Z.mod_small (off - len c1)) by lia.
    destruct (off - len c1 <? len c2) eqn:E2.
    + apply Z.ltb_lt in E2.
      destruct (off <? len c1 + len c2) eqn:E3;
        [|apply Z.ltb_ge in E3; lia].
      rewrite app_nth2 by (unfold len in E1; lia).
      f_equal. unfold len. lia.
    + apply Z.ltb_ge in E2.
      destruct (off <? len c1 + len c2) eqn:E3;
        [apply Z.ltb_lt in E3; lia|].
      reflexivity.
Qed.

Lemma mem_write_nil m address x : mem_write m address [] x = m x.
Proof.
  unfold mem_write, EEPROM_SIZE. cbn [len List.length Z.of_nat].
  destruct (_ <? 0) eqn:E; [|reflexivity].
  apply Z.ltb_lt in E.
  pose proof (Z.mod_pos_bound (x - address) 4096). lia.
Qed.

(** ** The bus schedule *)

Lemma quiet_for_skipn n k fs :
  quiet_for (n + k) fs -> quiet_for k (skipn n fs).
Proof.
  revert fs. induction n as [|n IH]; intros fs H.
  - exact H.
  - destruct H as [_ H]. destruct fs as [|f fs].
    + simpl in *. specialize (IH [] H). now rewrite skipn_nil in IH.
    + simpl. apply IH, H.
Qed.

Lemma quiet_for_le n k fs : (k <= n)%nat -> quiet_for n fs -> quiet_for k fs.
Proof.
  revert k fs. induction n as [|n IH]; intros k fs Hk H.
  - replace k with 0%nat by lia. exact I.
  - destruct k as [|k]; [exact I|]. destruct H as [H0 H]. split.
    + exact H0.
    + apply IH; [lia | exact H].
Qed.

Lemma quiet_for_nil n : quiet_for n [].
Proof. induction n; simpl; auto. Qed.

Lemma skipn_tl {A : Type} n (l : list A) : skipn n (tl l) = skipn (S n) l.
Proof. destruct l; [now rewrite skipn_nil | reflexivity]. Qed.

Lemma pages_step (data : bytes) :
  data <> [] ->
  pages (len data) = S (pages (len (skipn (Z.to_nat PAGE_SIZE) data))).
Proof.
  intros Hne. unfold pages, len, PAGE_SIZE. rewrite length_skipn.
  assert (0 < List.length data)%nat
    by (destruct data; [congruence | simpl; lia]).
  change (Z.to_nat 32) with 32%nat.
  rewrite <- Z2Nat.inj_succ.
  - f_equal. zify. Z.div_mod_to_equations. lia.
  - zify. Z.div_mod_to_equations. lia.
Qed.

(** ** The chunked writer *)

(** Splits a conjunction into its parts, and nothing else. *)
Ltac conjs := repeat match goal with |- _ /\ _ => split end.

Lemma write_post_nil address w : write_post address [] w (Ok tt) w.
Proof.
  split; [reflexivity|]. exists [], true. conjs.
  - constructor.
  - now rewrite app_nil_r.
  - now rewrite app_nil_r.
  - reflexivity.
  - intros _ _ x. now rewrite mem_write_nil.
  - intros _. split; reflexivity.
Qed.

Lemma write_loop_spec (fuel : nat) :
  forall address data w,
    (List.length data <= fuel)%nat ->
    wp (write_loop fuel address data) (write_post address data w) w.
Proof.
  induction fuel as [|fuel IH]; intros address data w Hfuel.
  - destruct data; [|simpl in Hfuel; lia]. apply write_post_nil.
  - destruct data as [|b d]; [apply write_post_nil|].
    set (data := b :: d) in *.
    assert (Hne : data <> []) by discriminate.
    change (write_loop (S fuel) address data)
      with (r <- attempt (i2c_writeto_mem address
                            (firstn (Z.to_nat PAGE_SIZE) data) ;;
                          sleep_ms 10 ;;
                          ret (address
                               + len (firstn (Z.to_nat PAGE_SIZE) data))) ;;
            match r with
            | Ok address' =>
              write_loop fuel address' (skipn (Z.to_nat PAGE_SIZE) data)
            | Raise e =>
              if is_OSError e
              then print "Failed to write to EEPROM:" [AExn e]
              else raise e
            end).
    set (chunk := firstn (Z.to_nat PAGE_SIZE) data).
    set (rest := skipn (Z.to_nat PAGE_SIZE) data).
    assert (Hsplit : chunk ++ rest = data) by apply firstn_skipn.
    apply wp_bind, wp_attempt, wp_bind, wp_i2c_writeto_mem;
      intros Hfault; cbv beta iota.
    + (* the page write fails: report and leave the loop *)
      cbn [is_OSError]. apply wp_print.
      split; [reflexivity|].
      exists [WriteMem address chunk false], false.
      cbn [bus_log stdout stdin eeprom faults printed transferred].
      conjs; try reflexivity.
      * now constructor.
      * discriminate.
      * intros H. rewrite (pages_step data Hne) in H.
        destruct H as [H _]. unfold next_fault in Hfault. congruence.
    + (* the page is written: pause and go round again *)
      wp_steps.
      match goal with |- wp _ _ ?w1 => set (w1' := w1) end.
      assert (Hrest : (List.length rest <= fuel)%nat).
      { subst rest. rewrite length_skipn. simpl in Hfuel. simpl. lia. }
      apply (wp_mono _ _ _ _ (IH (address + len chunk) rest w1' Hrest)).
      intros r w' [Hr (l & ok & Htr & Hlog & Hout & Hin & Hmem & Hq)].
      split; [exact Hr|].
      exists (WriteMem address chunk true :: SleepMs 10 :: l), ok.
      subst w1'. cbn [bus_log stdout stdin eeprom faults logged] in *.
      conjs.
      * now constructor.
      * rewrite Hlog, <- !app_assoc. reflexivity.
      * exact Hout.
      * exact Hin.
      * intros Hok Hlen x.
        assert (Hl : len chunk + len rest = len data)
          by (rewrite <- len_app, Hsplit; reflexivity).
        pose proof (len_nonneg chunk).
        rewrite Hmem by (auto; lia).
        rewrite mem_write_app by lia. now rewrite Hsplit.
      * intros H. rewrite (pages_step data Hne) in H |- *.
        destruct H as [_ H]. destruct (Hq H) as [-> ->].
        split; [reflexivity | apply skipn_tl].
Qed.

Lemma wp_write_bytes address data Q w :
  (forall w', write_post address data w (Ok tt) w' ->
              Q (Ok tt)
                (printed (Line "Bytes written to EEPROM successfully." []) w')) ->
  wp (write_bytes_to_eeprom address data) Q w.
Proof.
  intros HQ. unfold write_bytes_to_eeprom. apply wp_bind.
  apply (wp_mono _ _ _ _ (write_loop_spec _ address data w (le_n _))).
  intros r w' Hpost. pose proof Hpost as [-> _].
  apply wp_print, HQ, Hpost.
Qed.

(** ** Saving: validation, then the write *)

Lemma len_single {A : Type} (x : A) : len [x] = 1.
Proof. reflexivity. Qed.

Lemma len_rev_digits (k : nat) (n : Z) :
  len (rev (le_digits k n)) = Z.of_nat k.
Proof. unfold len. now rewrite length_rev, length_le_digits. Qed.

Lemma len_encode (e : Event) :
  len (encode e) = 12 + name_len e + speaker_len e + description_len e.
Proof.
  unfold encode, name_len, speaker_len, description_len.
  rewrite !len_app, !len_rev_digits, !len_single. lia.
Qed.

Lemma in_u32_true (n : Z) : in_u32 n = true <-> 0 <= n < 2 ^ 32.
Proof. unfold in_u32. rewrite andb_true_iff, Z.leb_le, Z.ltb_lt. tauto. Qed.

Lemma in_u32_false (n : Z) : in_u32 n = false <-> n < 0 \/ 2 ^ 32 <= n.
Proof.
  unfold in_u32. rewrite andb_false_iff, Z.leb_gt, Z.ltb_ge. tauto.
Qed.

Lemma to_bytes_fits_true (n : Z) :
  to_bytes_fits n = true <-> - 2 ^ 31 <= n < 2 ^ 32.
Proof.
  unfold to_bytes_fits. rewrite andb_true_iff, Z.leb_le, Z.ltb_lt. tauto.
Qed.

Lemma to_bytes_fits_false (n : Z) :
  to_bytes_fits n = false <-> n < - 2 ^ 31 \/ 2 ^ 32 <= n.
Proof.
  unfold to_bytes_fits. rewrite andb_false_iff, Z.leb_gt, Z.ltb_ge. tauto.
Qed.

Lemma in_u32_fits (n : Z) : in_u32 n = true -> to_bytes_fits n = true.
Proof.
  intros H. apply in_u32_true in H. apply to_bytes_fits_true. lia.
Qed.

Lemma to_bytes_big_4 (n : Z) :
  to_bytes_big n 4
  = if to_bytes_fits n then Ok (rev (le_digits 4 n)) else Raise OverflowError.
Proof.
  unfold to_bytes_big, to_bytes_fits.
  change (256 ^ Z.of_nat 4) with 4294967296.
  change (4294967296 / 2) with 2147483648.
  change (2 ^ 31) with 2147483648. change (2 ^ 32) with 4294967296.
  destruct (Z.ltb_spec n (Z.opp 2147483648)),
    (Z.leb_spec (Z.opp 2147483648) n),
    (Z.leb_spec 4294967296 n),
    (Z.ltb_spec n 4294967296); try reflexivity; lia.
Qed.

Lemma bytearray_append_ok (data : bytes) (n : Z) :
  0 <= n < 256 -> bytearray_append data n = Ok (data ++ [byte_of_Z n]).
Proof.
  intros H. unfold bytearray_append.
  destruct (0 <=? n) eqn:E1; [|apply Z.leb_gt in E1; lia].
  destruct (n <? 256) eqn:E2; [|apply Z.ltb_ge in E2; lia].
  reflexivity.
Qed.

(** [save_event_to_eeprom] as a decision list: the checks in the order the
    code makes them, and [commit] of the encoded record when all pass. *)
Lemma save_event_cases (e : Event) (address : Z) (w : world) :
  save_event_to_eeprom e address w =
  if name_len e >? 50 then
    print "Event name too long! Maximum 50 bytes allowed." [] w
  else if negb (to_bytes_fits (start_time e)) then (Raise OverflowError, w)
  else if negb (to_bytes_fits (end_time e)) then (Raise OverflowError, w)
  else if speaker_len e >? 50 then
    print "Speaker name too long! Maximum 50 bytes allowed." [] w
  else if description_len e >? 138 then
    print "Description too long! Maximum 138 bytes allowed." [] w
  else commit address (encode e) w.
Proof.
  pose proof (len_encode e) as Hlen. revert Hlen.
  unfold save_event_to_eeprom, encode, name_len, speaker_len, description_len.
  set (n := str_encode (event_name e)).
  set (s := str_encode (speaker_name e)).
  set (d := str_encode (description e)).
  intros Hlen.
  pose proof (len_nonneg n). pose proof (len_nonneg s).
  pose proof (len_nonneg d).
  destruct (len n >? 50) eqn:En; [reflexivity|].
  rewrite Z.gtb_ltb in En. apply Z.ltb_ge in En.
  rewrite bytearray_append_ok by lia. cbn [bind lift app].
  rewrite (to_bytes_big_4 (start_time e)).
  destruct (to_bytes_fits (start_time e)) eqn:Es; cbn [negb];
    [|reflexivity].
  cbn [bind lift].
  rewrite (to_bytes_big_4 (end_time e)).
  destruct (to_bytes_fits (end_time e)) eqn:Ee; cbn [negb];
    [|reflexivity].
  cbn [bind lift].
  destruct (len s >? 50) eqn:Esp; [reflexivity|].
  rewrite Z.gtb_ltb in Esp. apply Z.ltb_ge in Esp.
  rewrite bytearray_append_ok by lia. cbn [bind lift].
  destruct (len d >? 138) eqn:Ed; [reflexivity|].
  rewrite Z.gtb_ltb in Ed. apply Z.ltb_ge in Ed.
  rewrite to_bytes_big_ok by (change (256 ^ Z.of_nat 2) with 65536; lia).
  cbn [bind lift].
  cbn [app] in Hlen |- *.
  repeat first [rewrite <- app_assoc | rewrite <- app_comm_cons].
  cbn [app].
  destruct (len _ >? 250) eqn:Etot.
  - rewrite Z.gtb_ltb in Etot. apply Z.ltb_lt in Etot. lia.
  - reflexivity.
Qed.

Lemma tl_skipn {A : Type} n (l : list A) : tl (skipn n l) = skipn (S n) l.
Proof.
  revert l. induction n as [|n IH]; intros l.
  - destruct l; reflexivity.
  - destruct l as [|x l]; [reflexivity|]. simpl. rewrite IH.
    destruct l; reflexivity.
Qed.

Lemma quiet_for_hd_skipn n fs :
  quiet_for (S n) fs -> hd false (skipn n fs) = false.
Proof.
  intros H. replace (S n) with (n + 1)%nat in H by lia.
  apply quiet_for_skipn in H. apply H.
Qed.

Lemma commit_spec (address : Z) (data : bytes) (w : world) :
  wp (commit address data) (commit_post address data w) w.
Proof.
  unfold commit. apply wp_bind, wp_write_bytes.
  intros w1 [_ (l & ok & Htr & Hlog & Hout & Hin & Hmem & Hq)].
  cbv beta iota. wp_steps.
  - (* the read-back goes through *)
    cbn [eeprom printed] in *.
    set (v := mem_read_range (eeprom w1) address (Z.to_nat (len data))).
    assert (Hv : quiet_for (S (pages (len data))) (faults w) ->
                 len data <= EEPROM_SIZE -> bytes_eqb v data = true).
    { intros Hquiet Hlen.
      destruct (Hq (quiet_for_le _ _ _ (Nat.le_succ_diag_r _) Hquiet))
        as [Hok _].
      apply bytes_eqb_eq. subst v. unfold len. rewrite Nat2Z.id.
      apply (slot_holds_ext (mem_write (eeprom w) address data)).
      - intros x. apply Hmem; assumption.
      - apply slot_holds_write, Hlen. }
    destruct (bytes_eqb v data) eqn:Ev; wp_steps;
      (split; [reflexivity|]);
      [exists l, ok, true, verified_line | exists l, ok, true, mismatch_line];
      cbn [bus_log stdout stdin eeprom faults printed transferred];
      (conjs;
       [ exact Htr
       | rewrite Hlog, <- app_assoc; reflexivity
       | rewrite Hout, <- !app_assoc; reflexivity
       | exact Hin
       | exact Hmem
       | intros Hquiet;
         destruct (Hq (quiet_for_le _ _ _ (Nat.le_succ_diag_r _) Hquiet))
           as [Hok Hfs];
         conjs;
         [ exact Hok | reflexivity | rewrite Hfs; apply tl_skipn
         | intros Hlen; try reflexivity;
           specialize (Hv Hquiet Hlen); congruence ] ]).
  - (* the read-back fails *)
    split; [reflexivity|].
    exists l, ok, false, mismatch_line.
    cbn [bus_log stdout stdin eeprom faults printed transferred].
    conjs.
    + exact Htr.
    + rewrite Hlog, <- app_assoc. reflexivity.
    + rewrite Hout, <- !app_assoc. reflexivity.
    + exact Hin.
    + exact Hmem.
    + intros Hquiet. exfalso.
      destruct (Hq (quiet_for_le _ _ _ (Nat.le_succ_diag_r _) Hquiet))
        as [_ Hfs].
      apply quiet_for_hd_skipn in Hquiet.
      unfold next_fault in H. cbn [faults printed] in H.
      rewrite Hfs in H. congruence.
Qed.

(** In the log of the writer followed by transfers [t] that hold no failed
    write, a failed write can only be the writer's last entry. *)
Lemma write_trace_fail_last address data l ok :
  write_trace address data l ok ->
  forall t pre a c post,
    l ++ t = pre ++ WriteMem a c false :: post ->
    (forall x y, ~ In (WriteMem x y false) t) ->
    ok = false /\ post = t.
Proof.
  induction 1 as [address | address data Hne | address data l ok Hne Htr IH];
    intros t pre a c post Heq Ht.
  - exfalso. apply (Ht a c). cbn [app] in Heq. rewrite Heq.
    apply in_elt.
  - destruct pre as [|p pre]; cbn [app] in Heq.
    + injection Heq as _ _ Heq. auto.
    + exfalso. injection Heq as _ Heq. apply (Ht a c). rewrite Heq.
      apply in_elt.
  - destruct pre as [|p1 [|p2 pre]]; cbn [app] in Heq; try discriminate.
    injection Heq as _ _ Heq. exact (IH t pre a c post Heq Ht).
Qed.

(** ** C6: a rejected event touches nothing *)

(** C6. When [save_event_to_eeprom] is given an event with a text field
    over its bound (name or speaker above 50 bytes, description above 138),
    or whose record would exceed 250 bytes, no transfer reaches the bus and
    the device keeps its content: the world changes by printed lines only. *)
Theorem save_rejected_writes_nothing (e : Event) (address : Z) (w : world) :
  name_len e > 50 \/ speaker_len e > 50 \/ description_len e > 138
  \/ len (encode e) > 250 ->
  bus_log (snd (save_event_to_eeprom e address w)) = bus_log w
  /\ eeprom (snd (save_event_to_eeprom e address w)) = eeprom w
  /\ faults (snd (save_event_to_eeprom e address w)) = faults w.
Proof.
  intros Hover. rewrite save_event_cases.
  destruct (name_len e >? 50) eqn:En; [cbn; auto|].
  destruct (negb (to_bytes_fits (start_time e))); [cbn; auto|].
  destruct (negb (to_bytes_fits (end_time e))); [cbn; auto|].
  destruct (speaker_len e >? 50) eqn:Es; [cbn; auto|].
  destruct (description_len e >? 138) eqn:Ed; [cbn; auto|].
  exfalso. rewrite Z.gtb_ltb in En, Es, Ed.
  apply Z.ltb_ge in En, Es, Ed. rewrite len_encode in Hover. lia.
Qed.

Lemma save_rejected_writes_nothing_witness :
  name_len (mkEvent long_name 0 0 "Elliot" "Badges!") = 51
  /\ bus_log (snd (save_event_to_eeprom
                     (mkEvent long_name 0 0 "Elliot" "Badges!") 250
                     fresh_world)) = bus_log fresh_world
  /\ eeprom (snd (save_event_to_eeprom
                    (mkEvent long_name 0 0 "Elliot" "Badges!") 250
                    fresh_world)) = eeprom fresh_world
  /\ faults (snd (save_event_to_eeprom
                    (mkEvent long_name 0 0 "Elliot" "Badges!") 250
                    fresh_world)) = faults fresh_world.
Proof.
  split; [reflexivity|].
  apply (save_rejected_writes_nothing
           (mkEvent long_name 0 0 "Elliot" "Badges!") 250 fresh_world).
  left. vm_compute. reflexivity.
Defined.

(** ** C10: timestamps outside 32 bits *)




(** ** C2: a failed page write *)

(** C2, as the code has it. Whenever a page write of a save fails, no
    further write goes to the bus (what follows in the log is not a write),
    the failure is printed ("Failed to write to EEPROM:"), and
    [save_event_to_eeprom] returns normally, with [None], as it does after a
    successful save. *)
Theorem save_write_failure_stops (e : Event) (address : Z) (w : world) :
  forall pre a c post,
    bus_log (snd (save_event_to_eeprom e address w))
    = bus_log w ++ pre ++ WriteMem a c false :: post ->
    (forall op, In op post -> is_write op = false)
    /\ (exists out,
           stdout (snd (save_event_to_eeprom e address w)) = stdout w ++ out
           /\ In write_failed_line out)
    /\ fst (save_event_to_eeprom e address w) = Ok tt.
Proof.
  intros pre a c post. rewrite save_event_cases.
  assert (Hnone : bus_log w = bus_log w ++ pre ++ WriteMem a c false :: post
                  -> False).
  { intros H. rewrite <- (app_nil_r (bus_log w)) in H at 1.
    apply app_inv_head in H. destruct pre; discriminate. }
  destruct (name_len e >? 50); [intros H; destruct (Hnone H)|].
  destruct (negb (to_bytes_fits (start_time e))); [intros H; destruct (Hnone H)|].
  destruct (negb (to_bytes_fits (end_time e))); [intros H; destruct (Hnone H)|].
  destruct (speaker_len e >? 50); [intros H; destruct (Hnone H)|].
  destruct (description_len e >? 138); [intros H; destruct (Hnone H)|].
  destruct (commit_spec address (encode e) w)
    as [Hr (l & ok & rd & verdict & Htr & Hlog & Hout & _)].
  intros H. rewrite Hlog in H. apply app_inv_head in H.
  destruct (write_trace_fail_last _ _ _ _ Htr _ _ _ _ _ H) as [-> ->].
  { intros x y [Hin|[]]. discriminate. }
  conjs.
  - intros op [<-|[]]. reflexivity.
  - rewrite Hout. eexists. split; [reflexivity|]. left. reflexivity.
  - exact Hr.
Qed.

Lemma save_write_failure_stops_witness :
  (forall op, In op [ReadMem 0 33 true] -> is_write op = false)
  /\ (exists out,
         stdout (snd (save_event_to_eeprom ceremony 0 failing_world))
         = stdout failing_world ++ out
         /\ In write_failed_line out)
  /\ fst (save_event_to_eeprom ceremony 0 failing_world) = Ok tt.
Proof.
  apply (save_write_failure_stops ceremony 0 failing_world []
           0 (firstn 32 (encode ceremony)) [ReadMem 0 33 true]).
  vm_compute. reflexivity.
Defined.

(** C2 as stated fails in its second half: after a failed page write the
    caller gets the same [None] as after a successful save, and the console
    still announces "Event saved successfully.". *)
Lemma save_write_failure_counterexample :
  In (WriteMem 0 (firstn 32 (encode ceremony)) false)
     (bus_log (snd (save_event_to_eeprom ceremony 0 failing_world)))
  /\ fst (save_event_to_eeprom ceremony 0 failing_world) = Ok tt
  /\ fst (save_event_to_eeprom ceremony 0 failing_world)
     = fst (save_event_to_eeprom ceremony 0 fresh_world)
  /\ In (Line "Event saved successfully." [])
        (stdout (snd (save_event_to_eeprom ceremony 0 failing_world))).
Proof.
  conjs.
  - left. reflexivity.
  - reflexivity.
  - reflexivity.
  - vm_compute. tauto.
Qed.

(** ** C3: the largest record *)

(** On a quiet bus [commit] stores the record and confirms it. *)
Lemma commit_quiet (address : Z) (data : bytes) (w : world) :
  len data <= EEPROM_SIZE ->
  quiet_for (S (pages (len data))) (faults w) ->
  fst (commit address data w) = Ok tt
  /\ slot_holds (eeprom (snd (commit address data w))) address data
  /\ stdout (snd (commit address data w))
     = stdout w ++ saved_lines ++ [verified_line]
  /\ faults (snd (commit address data w))
     = skipn (S (pages (len data))) (faults w)
  /\ stdin (snd (commit address data w)) = stdin w.
Proof.
  intros Hlen Hquiet.
  destruct (commit_spec address data w)
    as [Hr (l & ok & rd & verdict & Htr & Hlog & Hout & Hin & Hmem & Hq)].
  destruct (Hq Hquiet) as (-> & -> & Hfs & Hv). rewrite (Hv Hlen) in Hout.
  conjs; auto.
  apply (slot_holds_ext (mem_write (eeprom w) address data)).
  - intros x. apply Hmem; auto.
  - apply slot_holds_write, Hlen.
Qed.

(** C3, as the code has it. An event with a 50-byte name, a 50-byte
    speaker and a 138-byte description encodes to exactly 250 bytes and
    passes every check of [save_event_to_eeprom]: the record goes to the
    writer, and on a quiet bus it is stored at the address and confirmed.
    The same event with a 139-byte description is turned away with
    "Description too long!": the call only prints that line, so nothing is
    written; and it returns normally, with the same [None] as the accepted
    save, on any bus: the caller is given no validation error. *)
Theorem exact_fit_boundary (e : Event) (d139 : string) (address : Z)
  (w : world) :
  name_len e = 50 -> speaker_len e = 50 -> description_len e = 138 ->
  in_u32 (start_time e) = true -> in_u32 (end_time e) = true ->
  len (str_encode d139) = 139 ->
  len (encode e) = 250
  /\ save_event_to_eeprom e address w = commit address (encode e) w
  /\ (quiet_for 9 (faults w) ->
      slot_holds (eeprom (snd (save_event_to_eeprom e address w)))
                 address (encode e)
      /\ stdout (snd (save_event_to_eeprom e address w))
         = stdout w ++ saved_lines ++ [verified_line])
  /\ save_event_to_eeprom (with_description e d139) address w
     = (Ok tt,
        printed (Line "Description too long! Maximum 138 bytes allowed." [])
                w)
  /\ fst (save_event_to_eeprom (with_description e d139) address w)
     = fst (save_event_to_eeprom e address w).
Proof.
  intros Hn Hs Hd Hst Het H139.
  assert (Hlen : len (encode e) = 250) by (rewrite len_encode; lia).
  assert (Hsave : save_event_to_eeprom e address w
                  = commit address (encode e) w).
  { rewrite save_event_cases, Hn, Hs, Hd, (in_u32_fits _ Hst),
      (in_u32_fits _ Het). reflexivity. }
  assert (Hrej : save_event_to_eeprom (with_description e d139) address w
                 = (Ok tt,
                    printed
                      (Line "Description too long! Maximum 138 bytes allowed."
                            []) w)).
  { rewrite save_event_cases.
    unfold name_len, speaker_len, description_len in *.
    cbn [with_description event_name speaker_name description
         start_time end_time].
    rewrite Hn, Hs, (in_u32_fits _ Hst), (in_u32_fits _ Het), H139.
    reflexivity. }
  conjs.
  - exact Hlen.
  - exact Hsave.
  - intros Hquiet. rewrite Hsave.
    destruct (commit_quiet address (encode e) w) as (_ & Hm & Hout & _).
    + rewrite Hlen. unfold EEPROM_SIZE. lia.
    + rewrite Hlen. exact Hquiet.
    + auto.
  - exact Hrej.
  - rewrite Hrej, Hsave.
    destruct (commit_spec address (encode e) w) as [Hr _].
    rewrite Hr. reflexivity.
Qed.

Lemma exact_fit_boundary_witness :
  len (encode full_event) = 250
  /\ slot_holds (eeprom (snd (save_event_to_eeprom full_event 3750
                                                   fresh_world)))
                3750 (encode full_event)
  /\ stdout (snd (save_event_to_eeprom full_event 3750 fresh_world))
     = stdout fresh_world ++ saved_lines ++ [verified_line]
  /\ save_event_to_eeprom (with_description full_event overfull_description)
                          3750 fresh_world
     = (Ok tt,
        printed (Line "Description too long! Maximum 138 bytes allowed." [])
                fresh_world)
  /\ fst (save_event_to_eeprom
            (with_description full_event overfull_description) 3750
            fresh_world)
     = fst (save_event_to_eeprom full_event 3750 fresh_world).
Proof.
  destruct (exact_fit_boundary full_event overfull_description 3750
                               fresh_world)
    as (Hlen & _ & Hquiet & Hrej & Hsame); try reflexivity.
  destruct (Hquiet (quiet_for_nil 9)) as [Hm Hout].
  conjs; assumption.
Defined.

(** C3 as stated fails in its last part: the save of the event with the
    139-byte description is not told apart from an accepted save by its
    result. Both calls return normally with [None]; the rejection is a
    printed line only. *)
Lemma exact_fit_counterexample :
  description_len (with_description full_event overfull_description) = 139
  /\ fst (save_event_to_eeprom
            (with_description full_event overfull_description) 3750
            fresh_world) = Ok tt
  /\ fst (save_event_to_eeprom full_event 3750 fresh_world) = Ok tt
  /\ stdout (snd (save_event_to_eeprom
                    (with_description full_event overfull_description) 3750
                    fresh_world))
     = [Line "Description too long! Maximum 138 bytes allowed." []].
Proof. conjs; reflexivity. Qed.

(** ** Decoding an encoded record *)

Lemma wp_read_bytes_quiet address length Q w :
  next_fault w = false ->
  Q (Ok (Some (mem_read_range (eeprom w) address (Z.to_nat length))))
    (transferred (ReadMem address length true) w) ->
  wp (read_bytes_from_eeprom address length) Q w.
Proof.
  intros Hq HQ. apply wp_read_bytes; intros H; [exact HQ | congruence].
Qed.

(** Reading back a stored string on a quiet bus. *)
Lemma wp_read_string_stored address (s : string) Q w :
  next_fault w = false ->
  slot_holds (eeprom w) address (str_encode s) ->
  decodable (str_encode s) = true ->
  Q (Ok (Some s))
    (transferred (ReadMem address (len (str_encode s)) true) w) ->
  wp (read_string_from_eeprom address (len (str_encode s))) Q w.
Proof.
  intros Hq Hm Hu HQ. unfold slot_holds in Hm.
  apply wp_read_string; unfold len in *; rewrite ?Nat2Z.id, ?Hm.
  - lia.
  - intros _ _. unfold str_encode. rewrite string_of_list_byte_of_string.
    exact HQ.
  - congruence.
  - congruence.
Qed.

Lemma encodable_storable (e : Event) : encodable e -> storable e.
Proof.
  intros ([Hnu Hnl] & [Hsu Hsl] & [Hdu Hdl] & Hst & Het).
  unfold storable, decodable_text.
  auto 10 using utf8_check_decodable.
Qed.

Lemma valid_event_loadable (e : Event) : valid_event e -> loadable e.
Proof.
  intros (He & Hn & Hs & Hd). split; [apply encodable_storable, He | auto].
Qed.

(** A stored record is read back, whatever follows it in the device. *)
Lemma load_storable (e : Event) (address : Z) (w : world) :
  storable e ->
  slot_holds (eeprom w) address (encode e) ->
  quiet_for 8 (faults w) ->
  fst (load_event_from_eeprom address w)
  = Ok (if has_empty_field e then None else Some e).
Proof.
  intros ([Hnu Hnl] & [Hsu Hsl] & [Hdu Hdl] & Hst & Het) Hm Hq.
  apply in_u32_true in Hst, Het.
  unfold encode in Hm.
  apply slot_holds_app in Hm. destruct Hm as [M1 Hm].
  apply slot_holds_app in Hm. destruct Hm as [M2 Hm].
  apply slot_holds_app in Hm. destruct Hm as [M3 Hm].
  apply slot_holds_app in Hm. destruct Hm as [M4 Hm].
  apply slot_holds_app in Hm. destruct Hm as [M5 Hm].
  apply slot_holds_app in Hm. destruct Hm as [M6 Hm].
  apply slot_holds_app in Hm. destruct Hm as [M7 M8].
  rewrite ?len_rev_digits, ?len_single in *.
  cbn [Z.of_nat Pos.of_succ_nat Pos.succ] in *.
  cbn [quiet_for] in Hq.
  destruct Hq as (Q0 & Q1 & Q2 & Q3 & Q4 & Q5 & Q6 & Q7 & _).
  unfold slot_holds in M1, M3, M4, M5, M7.
  rewrite ?length_rev, ?length_le_digits in *. cbn [List.length] in *.
  pose proof (len_nonneg (str_encode (event_name e))) as Pn.
  pose proof (len_nonneg (str_encode (speaker_name e))) as Ps.
  pose proof (len_nonneg (str_encode (description e))) as Pd.
  unfold has_empty_field, name_len, speaker_len, description_len.
  change (wp (load_event_from_eeprom address)
             (fun r _ =>
                r = Ok (if (len (str_encode (event_name e)) =? 0)
                           || (len (str_encode (speaker_name e)) =? 0)
                           || (len (str_encode (description e)) =? 0)
                        then None else Some e)) w).
  unfold load_event_from_eeprom.
  wp_step. wp_step.
  apply wp_bind, wp_read_bytes_quiet; [exact Q0|]. cbv beta iota.
  cbn [eeprom faults printed transferred].
  change (Z.to_nat 1) with 1%nat. rewrite M1.
  cbn [bytes_getitem nth_error]. rewrite int_of_byte_of_Z_small by lia.
  wp_step. wp_step. wp_step. wp_step.
  destruct (len (str_encode (event_name e)) =? 255) eqn:E255;
    [apply Z.eqb_eq in E255; lia|].
  replace (len (str_encode (event_name e)) >? 50) with false
    by (symmetry; rewrite Z.gtb_ltb; apply Z.ltb_ge; lia).
  rewrite orb_false_r.
  destruct (len (str_encode (event_name e)) =? 0) eqn:En0.
  { wp_steps. reflexivity. }
  cbn [orb].
  apply wp_bind, wp_read_string_stored;
    [exact Q1 | exact M2 | exact Hnu |]. cbv beta iota.
  (* start and end time *)
  apply wp_bind, wp_read_bytes_quiet; [exact Q2|]. cbv beta iota.
  cbn [eeprom faults printed transferred].
  change (Z.to_nat 4) with 4%nat. rewrite M3, len_rev_digits.
  change (negb (Z.of_nat 4 =? 4)) with false. cbv beta iota.
  rewrite from_to_bytes_big by (change (256 ^ Z.of_nat 4) with (2 ^ 32); lia).
  wp_step. wp_step.
  apply wp_bind, wp_read_bytes_quiet; [exact Q3|]. cbv beta iota.
  cbn [eeprom faults printed transferred].
  change (Z.to_nat 4) with 4%nat. rewrite M4, len_rev_digits.
  change (negb (Z.of_nat 4 =? 4)) with false. cbv beta iota.
  rewrite from_to_bytes_big by (change (256 ^ Z.of_nat 4) with (2 ^ 32); lia).
  wp_step. wp_step.
  (* speaker *)
  apply wp_bind, wp_read_bytes_quiet; [exact Q4|]. cbv beta iota.
  cbn [eeprom faults printed transferred].
  change (Z.to_nat 1) with 1%nat. rewrite M5.
  cbn [bytes_getitem nth_error]. rewrite int_of_byte_of_Z_small by lia.
  wp_step. wp_step. wp_step. wp_step.
  destruct (len (str_encode (speaker_name e)) =? 255) eqn:S255;
    [apply Z.eqb_eq in S255; lia|].
  replace (len (str_encode (speaker_name e)) >? 50) with false
    by (symmetry; rewrite Z.gtb_ltb; apply Z.ltb_ge; lia).
  rewrite orb_false_r.
  destruct (len (str_encode (speaker_name e)) =? 0) eqn:Es0.
  { wp_steps. reflexivity. }
  cbn [orb].
  apply wp_bind, wp_read_string_stored;
    [exact Q5 | exact M6 | exact Hsu |]. cbv beta iota.
  (* description *)
  apply wp_bind, wp_read_bytes_quiet; [exact Q6|]. cbv beta iota.
  cbn [eeprom faults printed transferred].
  change (Z.to_nat 2) with 2%nat. rewrite M7, len_rev_digits.
  change (negb (Z.of_nat 2 =? 2)) with false. cbv beta iota.
  rewrite from_to_bytes_big by (change (256 ^ Z.of_nat 2) with 65536; lia).
  wp_step. wp_step.
  destruct (len (str_encode (description e)) =? 65535) eqn:D65535;
    [apply Z.eqb_eq in D65535; lia|].
  replace (len (str_encode (description e)) >? 138) with false
    by (symmetry; rewrite Z.gtb_ltb; apply Z.ltb_ge; lia).
  rewrite orb_false_r.
  destruct (len (str_encode (description e)) =? 0) eqn:Ed0.
  { wp_steps. reflexivity. }
  cbn [orb].
  apply wp_bind, wp_read_string_stored;
    [exact Q7 | exact M8 | exact Hdu |]. cbv beta iota.
  wp_steps. destruct e; reflexivity.
Qed.

Lemma load_encoded (e : Event) (address : Z) (w : world) :
  encodable e ->
  slot_holds (eeprom w) address (encode e) ->
  quiet_for 8 (faults w) ->
  fst (load_event_from_eeprom address w)
  = Ok (if has_empty_field e then None else Some e).
Proof. intros He. apply load_storable, encodable_storable, He. Qed.

Lemma save_encodable (e : Event) (address : Z) (w : world) :
  encodable e ->
  save_event_to_eeprom e address w = commit address (encode e) w.
Proof.
  intros ([_ Hn] & [_ Hs] & [_ Hd] & Hst & Het).
  rewrite save_event_cases. fold (name_len e) in Hn.
  fold (speaker_len e) in Hs. fold (description_len e) in Hd.
  rewrite (in_u32_fits _ Hst), (in_u32_fits _ Het). cbn [negb].
  replace (name_len e >? 50) with false
    by (symmetry; rewrite Z.gtb_ltb; apply Z.ltb_ge; lia).
  replace (speaker_len e >? 50) with false
    by (symmetry; rewrite Z.gtb_ltb; apply Z.ltb_ge; lia).
  replace (description_len e >? 138) with false
    by (symmetry; rewrite Z.gtb_ltb; apply Z.ltb_ge; lia).
  reflexivity.
Qed.

Lemma len_encode_bound (e : Event) :
  encodable e -> 12 <= len (encode e) <= 250.
Proof.
  intros ([_ Hn] & [_ Hs] & [_ Hd] & _). rewrite len_encode.
  unfold name_len, speaker_len, description_len.
  pose proof (len_nonneg (str_encode (event_name e))).
  pose proof (len_nonneg (str_encode (speaker_name e))).
  pose proof (len_nonneg (str_encode (description e))). lia.
Qed.

Lemma pages_bound (n : Z) : n <= 250 -> (pages n <= 8)%nat.
Proof.
  intros H. unfold pages, PAGE_SIZE.
  assert ((n + 32 - 1) / 32 <= 8) by (Z.div_mod_to_equations; lia). lia.
Qed.

(** A save on a quiet bus, and a load of the same address right after. *)
Lemma save_then_load (e : Event) (address : Z) (w : world) :
  encodable e ->
  quiet_for (S (pages (len (encode e))) + 8) (faults w) ->
  fst (save_event_to_eeprom e address w) = Ok tt
  /\ slot_holds (eeprom (snd (save_event_to_eeprom e address w)))
                address (encode e)
  /\ stdout (snd (save_event_to_eeprom e address w))
     = stdout w ++ saved_lines ++ [verified_line]
  /\ fst (load_event_from_eeprom address
            (snd (save_event_to_eeprom e address w)))
     = Ok (if has_empty_field e then None else Some e).
Proof.
  intros He Hquiet. rewrite (save_encodable e address w He).
  pose proof (len_encode_bound e He) as Hlen.
  destruct (commit_quiet address (encode e) w) as (Hr & Hm & Hout & Hfs & _).
  - unfold EEPROM_SIZE. lia.
  - eapply quiet_for_le; [|exact Hquiet]. lia.
  - conjs; auto. apply load_encoded; auto.
    rewrite Hfs. apply quiet_for_skipn, Hquiet.
Qed.

(** ** C1: round trip *)

Lemma valid_event_no_empty_field (e : Event) :
  valid_event e -> has_empty_field e = false.
Proof.
  intros (_ & Hn & Hs & Hd). unfold has_empty_field.
  destruct (name_len e =? 0) eqn:E1; [apply Z.eqb_eq in E1; lia|].
  destruct (speaker_len e =? 0) eqn:E2; [apply Z.eqb_eq in E2; lia|].
  destruct (description_len e =? 0) eqn:E3; [apply Z.eqb_eq in E3; lia|].
  reflexivity.
Qed.

(** C1. For every event of the data model, loading a slot whose content
    begins with the encoded record gives back that event, in all five
    fields, provided the eight reads of the load go through; and the
    content left by [save_event_to_eeprom] on a quiet bus is such a slot, so
    that saving and then loading at the same address returns the event. *)
Theorem round_trip (e : Event) (address : Z) (w : world) :
  valid_event e ->
  (slot_holds (eeprom w) address (encode e) ->
   quiet_for 8 (faults w) ->
   fst (load_event_from_eeprom address w) = Ok (Some e))
  /\ (quiet_for 17 (faults w) ->
      slot_holds (eeprom (snd (save_event_to_eeprom e address w)))
                 address (encode e)
      /\ fst (load_event_from_eeprom address
                (snd (save_event_to_eeprom e address w)))
         = Ok (Some e)).
Proof.
  intros Hv. pose proof (valid_event_no_empty_field e Hv) as Hne.
  destruct Hv as (He & _). split.
  - intros Hm Hq. rewrite (load_encoded e address w He Hm Hq), Hne.
    reflexivity.
  - intros Hq.
    pose proof (pages_bound _ (proj2 (len_encode_bound e He))) as Hp.
    destruct (save_then_load e address w He) as (_ & Hm & _ & Hl).
    + eapply quiet_for_le; [|exact Hq]. lia.
    + rewrite Hne in Hl. auto.
Qed.

Lemma encodable_ceremony : encodable ceremony.
Proof.
  unfold encodable, valid_text. vm_compute. repeat split; discriminate.
Defined.

Lemma valid_event_ceremony : valid_event ceremony.
Proof.
  split; [exact encodable_ceremony|]. vm_compute.
  repeat split; discriminate.
Defined.

Lemma round_trip_witness :
  valid_event ceremony
  /\ slot_holds (eeprom (snd (save_event_to_eeprom ceremony 500 fresh_world)))
                500 (encode ceremony)
  /\ fst (load_event_from_eeprom 500
            (snd (save_event_to_eeprom ceremony 500 fresh_world)))
     = Ok (Some ceremony).
Proof.
  split; [exact valid_event_ceremony|].
  assert (Hm : slot_holds
                 (eeprom (snd (save_event_to_eeprom ceremony 500
                                                    fresh_world)))
                 500 (encode ceremony)) by reflexivity.
  split; [exact Hm|].
  apply (proj1 (round_trip ceremony 500
                  (snd (save_event_to_eeprom ceremony 500 fresh_world))
                  valid_event_ceremony)).
  - exact Hm.
  - apply quiet_for_nil.
Defined.

(** ** C5: zero-length text fields *)

(** C5 as stated fails: an event with an empty name is not turned away.
    Its record goes to the bus, overwrites the erased slot (the first byte
    becomes 0), and the save is announced. *)
Lemma save_empty_name_counterexample :
  name_len nameless = 0
  /\ existsb is_acked_write
       (bus_log (snd (save_event_to_eeprom nameless 0 fresh_world))) = true
  /\ mem_read (eeprom (snd (save_event_to_eeprom nameless 0 fresh_world))) 0
     = x00
  /\ In (Line "Event saved successfully." [])
        (stdout (snd (save_event_to_eeprom nameless 0 fresh_world))).
Proof.
  conjs; try reflexivity. vm_compute. tauto.
Qed.

(** C5, as the code has it. [save_event_to_eeprom] checks upper bounds
    only. An event within them that has a name, speaker or description of
    zero bytes is serialized and written like any other: on a quiet bus the
    record is in the slot and the save is announced. The minimum of one byte
    is enforced on the other side: loading that slot gives [None]. *)
Theorem save_has_no_minimum_length (e : Event) (address : Z) (w : world) :
  encodable e ->
  has_empty_field e = true ->
  save_event_to_eeprom e address w = commit address (encode e) w
  /\ (quiet_for 17 (faults w) ->
      slot_holds (eeprom (snd (save_event_to_eeprom e address w)))
                 address (encode e)
      /\ stdout (snd (save_event_to_eeprom e address w))
         = stdout w ++ saved_lines ++ [verified_line]
      /\ fst (load_event_from_eeprom address
                (snd (save_event_to_eeprom e address w)))
         = Ok None).
Proof.
  intros He Hempty. split.
  - apply save_encodable, He.
  - intros Hq.
    pose proof (pages_bound _ (proj2 (len_encode_bound e He))) as Hp.
    destruct (save_then_load e address w He) as (_ & Hm & Hout & Hl).
    + eapply quiet_for_le; [|exact Hq]. lia.
    + rewrite Hempty in Hl. auto.
Qed.

Lemma encodable_nameless : encodable nameless.
Proof.
  unfold encodable, valid_text. vm_compute. repeat split; discriminate.
Defined.

Lemma save_has_no_minimum_length_witness :
  save_event_to_eeprom nameless 0 fresh_world
  = commit 0 (encode nameless) fresh_world
  /\ slot_holds (eeprom (snd (save_event_to_eeprom nameless 0 fresh_world)))
                0 (encode nameless)
  /\ stdout (snd (save_event_to_eeprom nameless 0 fresh_world))
     = stdout fresh_world ++ saved_lines ++ [verified_line]
  /\ fst (load_event_from_eeprom 0
            (snd (save_event_to_eeprom nameless 0 fresh_world)))
     = Ok None.
Proof.
  destruct (save_has_no_minimum_length nameless 0 fresh_world)
    as (Hsave & Hquiet).
  - exact encodable_nameless.
  - reflexivity.
  - destruct (Hquiet (quiet_for_nil 17)) as (Hm & Hout & Hload).
    conjs; assumption.
Defined.

(** ** C9: the ceremony *)

(** C9 as stated fails on the length: the record of the ceremony is 33
    bytes, not 34, since "Badges!" is 7 bytes long. *)
Lemma ceremony_length_counterexample :
  len (str_encode (description ceremony)) = 7
  /\ len (encode ceremony) = 33
  /\ len (encode ceremony) <> 34.
Proof. conjs; try reflexivity. discriminate. Qed.

(** C9, as the code has it. The ceremony encodes to exactly 33 bytes
    (1+8+4+4+1+6+2+7), and on a quiet bus saving it at slot 0 and then
    reloading slot 0 gives back the same five field values. *)
Theorem ceremony_round_trip (w : world) :
  len (encode ceremony) = 33
  /\ encode ceremony
     = [byte_of_Z 8] ++ str_encode "Ceremony"
         ++ rev (le_digits 4 1730649600) ++ rev (le_digits 4 1730653200)
         ++ [byte_of_Z 6] ++ str_encode "Elliot"
         ++ rev (le_digits 2 7) ++ str_encode "Badges!"
  /\ (quiet_for 11 (faults w) ->
      fst (save_event_to_eeprom ceremony (slot_address 0) w) = Ok tt
      /\ fst (load_event_from_eeprom (slot_address 0)
                (snd (save_event_to_eeprom ceremony (slot_address 0) w)))
         = Ok (Some ceremony)).
Proof.
  conjs; try reflexivity. intros Hq.
  destruct (save_then_load ceremony (slot_address 0) w encodable_ceremony)
    as (Hr & _ & _ & Hl).
  - exact Hq.
  - auto.
Qed.

Lemma ceremony_round_trip_witness :
  fst (save_event_to_eeprom ceremony (slot_address 0) fresh_world) = Ok tt
  /\ fst (load_event_from_eeprom (slot_address 0)
            (snd (save_event_to_eeprom ceremony (slot_address 0)
                                       fresh_world)))
     = Ok (Some ceremony).
Proof.
  destruct (ceremony_round_trip fresh_world) as (_ & _ & Hquiet).
  exact (Hquiet (quiet_for_nil 11)).
Defined.

(** ** C7: wiping the device *)

(** A buffer of at most one page takes a single page write. *)
Lemma write_single_page (address : Z) (chunk : bytes) (w : world) :
  chunk <> [] ->
  (List.length chunk <= Z.to_nat PAGE_SIZE)%nat ->
  next_fault w = false ->
  write_bytes_to_eeprom address chunk w
  = (Ok tt,
     printed (Line "Bytes written to EEPROM successfully." [])
       (logged (SleepMs 10)
          (World (mem_write (eeprom w) address chunk) (tl (faults w))
                 (bus_log w ++ [WriteMem address chunk true])
                 (stdout w) (stdin w)))).
Proof.
  intros Hne Hlen Hq. unfold write_bytes_to_eeprom.
  destruct chunk as [|b c]; [congruence|].
  change (List.length (b :: c)) with (S (List.length c)).
  cbn [write_loop].
  rewrite (firstn_all2 (b :: c) Hlen), (skipn_all2 (b :: c) Hlen).
  unfold bind, attempt, i2c_writeto_mem. rewrite Hq.
  cbn [sleep_ms ret fst snd].
  destruct (List.length c); reflexivity.
Qed.

Lemma stroke_room (offset : Z) :
  EEPROM_SIZE - offset >= PAGE_SIZE -> stroke offset = blank_page.
Proof.
  intros H. unfold stroke, blank_page. now rewrite Z.min_l by lia.
Qed.

(** The strokes over [addrs], each leaving room for a whole page, on a bus
    quiet for that many transfers: page after page of 0xFF. *)
Lemma wipe_strokes_quiet (addrs : list Z) :
  forall w,
    Forall (fun addr => EEPROM_SIZE - addr >= PAGE_SIZE) addrs ->
    quiet_for (List.length addrs) (faults w) ->
    wipe_strokes addrs w
    = (Ok true,
       World (fold_left (fun m addr => mem_write m addr (stroke addr)) addrs
                        (eeprom w))
             (skipn (List.length addrs) (faults w))
             (bus_log w ++ flat_map stroke_ops addrs)
             (stdout w ++ flat_map stroke_lines addrs)
             (stdin w)).
Proof.
  induction addrs as [|addr rest IH]; intros w Hroom Hq.
  - cbn. rewrite !app_nil_r. destruct w; reflexivity.
  - inversion Hroom as [|? ? Ha Hrest]; subst.
    destruct Hq as [Hq0 Hq].
    cbn [wipe_strokes].
    replace (EEPROM_SIZE - addr >=? PAGE_SIZE) with true
      by (symmetry; rewrite Z.geb_leb; apply Z.leb_le; lia).
    fold blank_page.
    unfold bind at 1. unfold attempt. unfold bind at 1.
    rewrite write_single_page; [|discriminate|reflexivity|exact Hq0].
    cbn [print fst snd].
    rewrite IH; [|exact Hrest|exact Hq].
    cbn [eeprom faults bus_log stdout stdin printed logged fold_left
         flat_map List.length].
    unfold stroke_ops at 2. rewrite (stroke_room addr Ha).
    rewrite skipn_tl. repeat (f_equal; try (rewrite <- !app_assoc; reflexivity)).
Qed.

Lemma strokes_memory (addrs : list Z) :
  Forall (fun addr => EEPROM_SIZE - addr >= PAGE_SIZE) addrs ->
  forall m x,
    fold_left (fun m addr => mem_write m addr (stroke addr)) addrs m x
    = if covered addrs x then xff else m x.
Proof.
  induction 1 as [|addr rest Ha Hrest IH]; intros m x.
  - reflexivity.
  - cbn [fold_left covered existsb]. fold (covered rest x). rewrite IH.
    destruct (covered rest x); [now rewrite orb_true_r|].
    rewrite orb_false_r, (stroke_room addr Ha). unfold mem_write.
    change (len blank_page) with PAGE_SIZE.
    destruct (_ <? PAGE_SIZE) eqn:E; [|reflexivity].
    apply Z.ltb_lt in E. unfold blank_page. apply nth_repeat_lt.
    pose proof (Z.mod_pos_bound (x - addr) EEPROM_SIZE eq_refl).
    unfold PAGE_SIZE in *. lia.
Qed.

Lemma wipe_addresses_eq :
  wipe_addresses = map (fun k => 0 + PAGE_SIZE * Z.of_nat k) (seq 0 128).
Proof. reflexivity. Qed.

Lemma wipe_addresses_room :
  Forall (fun addr => EEPROM_SIZE - addr >= PAGE_SIZE) wipe_addresses.
Proof.
  rewrite wipe_addresses_eq. apply Forall_forall. intros a Ha.
  apply in_map_iff in Ha. destruct Ha as (k & <- & Hk).
  apply in_seq in Hk. unfold EEPROM_SIZE, PAGE_SIZE. lia.
Qed.

(** The strokes tile the device: every cell lies under one of them. *)
Lemma wipe_addresses_cover (x : Z) :
  covered wipe_addresses (x mod EEPROM_SIZE) = true.
Proof.
  unfold covered. apply existsb_exists. rewrite wipe_addresses_eq.
  pose proof (Z.mod_pos_bound x EEPROM_SIZE eq_refl) as Hy.
  set (y := x mod EEPROM_SIZE) in *. unfold EEPROM_SIZE, PAGE_SIZE in *.
  assert (Hd : 0 <= y / 32 < 128) by (Z.div_mod_to_equations; lia).
  exists (32 * (y / 32)). split.
  - apply in_map_iff. exists (Z.to_nat (y / 32)). split.
    + rewrite Z2Nat.id by lia. lia.
    + apply in_seq. lia.
  - apply Z.ltb_lt.
    rewrite Z.mod_small by (Z.div_mod_to_equations; lia).
    Z.div_mod_to_equations; lia.
Qed.

Lemma reads_only_refl w : reads_only w w.
Proof. split; [reflexivity|]. exists []. now rewrite app_nil_r. Qed.

Lemma reads_only_trans w1 w2 w3 :
  reads_only w1 w2 -> reads_only w2 w3 -> reads_only w1 w3.
Proof.
  intros [He1 (t1 & Hl1 & Ht1)] [He2 (t2 & Hl2 & Ht2)]. split.
  - congruence.
  - exists (t1 ++ t2). rewrite Hl2, Hl1, app_assoc, forallb_app, Ht1, Ht2.
    auto.
Qed.

Lemma reads_only_printed l w : reads_only w (printed l w).
Proof. split; [reflexivity|]. exists []. cbn. now rewrite app_nil_r. Qed.

Lemma reads_only_read address n acked w :
  reads_only w (transferred (ReadMem address n acked) w).
Proof. split; [reflexivity|]. exists [ReadMem address n acked]. auto. Qed.

Lemma verify_wiped_reads_only (addrs : list Z) :
  forall all_wiped w,
    wp (verify_wiped addrs all_wiped) (fun _ w' => reads_only w w') w.
Proof.
  induction addrs as [|v_addr rest IH]; intros all_wiped w.
  - apply reads_only_refl.
  - cbn [verify_wiped]. apply wp_bind, wp_read_bytes; intros _;
      cbv beta iota.
    + destruct (bytes_eqb _ _).
      * eapply wp_mono; [apply IH|]. cbv beta. intros _ w' H.
        eapply reads_only_trans; [apply reads_only_read | exact H].
      * apply wp_bind, wp_print. cbv beta iota.
        eapply wp_mono; [apply IH|]. cbv beta. intros _ w' H.
        eapply reads_only_trans; [apply reads_only_read|].
        eapply reads_only_trans; [apply reads_only_printed | exact H].
    + apply wp_raise.
      eapply reads_only_trans; [apply reads_only_read|].
      apply reads_only_printed.
Qed.

Lemma wp_input prompt reply rest Q w :
  stdin w = reply :: rest ->
  Q (Ok reply)
    (World (eeprom w) (faults w) (bus_log w) (stdout w ++ [Line prompt []])
           rest) ->
  wp (input prompt) Q w.
Proof. intros Hin HQ. unfold wp, input. rewrite Hin. exact HQ. Qed.

Lemma wipe_eeprom_wiped (w : world) (reply : string) (rest : list string) :
  stdin w = reply :: rest ->
  confirms reply = true ->
  quiet_for 128 (faults w) ->
  wiped w (snd (wipe_eeprom w)).
Proof.
  intros Hin Hc Hq.
  change (wp wipe_eeprom (fun _ w' => wiped w w') w).
  unfold wipe_eeprom. wp_step. wp_step.
  apply wp_bind. eapply wp_input; [exact Hin|]. cbv beta iota zeta.
  fold (confirms reply). rewrite Hc. cbn [negb].
  wp_step. wp_step. apply wp_bind.
  eapply wp_run.
  { apply wipe_strokes_quiet; [apply wipe_addresses_room | exact Hq]. }
  cbn [negb]. wp_step. wp_step. apply wp_bind.
  eapply wp_mono; [apply verify_wiped_reads_only|].
  cbv beta. intros r w' [Hmem (t & Hlog & Ht)].
  cbn [eeprom bus_log printed] in Hmem, Hlog.
  assert (Hw : forall l, wiped w (printed l w')).
  { intros l. split.
    - exists t. cbn [bus_log printed]. rewrite Hlog, <- app_assoc. auto.
    - intros a. cbn [eeprom printed]. rewrite Hmem. unfold mem_read.
      rewrite (strokes_memory _ wipe_addresses_room), wipe_addresses_cover.
      reflexivity. }
  destruct r as [[|]|e]; wp_steps; try apply Hw.
  destruct (Hw (Line "" [])) as [H1 H2]. split; assumption.
Qed.

(** C7, as the code has it. [wipe_eeprom] asks first; once the operator
    has confirmed ("yes" or "y"), a wipe whose 128 strokes all succeed runs
    over the offsets 0, 32, ..., 4064 in that order; the stroke at each
    offset is one page write of [min(32, 4096 - offset)] bytes of 0xFF, made
    by [write_bytes_to_eeprom] and followed by its pause; no other write
    follows. Afterwards every byte of the device reads 0xFF, and loading any
    of the slots 0..15 gives [None]. *)
Theorem wipe_erases_device (w : world) (reply : string) (rest : list string) :
  stdin w = reply :: rest ->
  confirms reply = true ->
  quiet_for 128 (faults w) ->
  wipe_addresses = map (fun k => PAGE_SIZE * Z.of_nat k) (seq 0 128)
  /\ wiped w (snd (wipe_eeprom w))
  /\ (forall i, 0 <= i <= 15 ->
       fst (load_event_from_eeprom (slot_address i) (snd (wipe_eeprom w)))
       = Ok None).
Proof.
  intros Hin Hc Hq.
  pose proof (wipe_eeprom_wiped w reply rest Hin Hc Hq) as Hw.
  conjs.
  - reflexivity.
  - exact Hw.
  - intros i _. apply load_stops_at_first_byte.
    left. destruct Hw as [_ Hmem]. rewrite Hmem. reflexivity.
Qed.

Lemma wipe_erases_device_witness :
  mem_read (eeprom used_world) 0 = byte_of_Z 8
  /\ wiped used_world (snd (wipe_eeprom used_world))
  /\ (forall i, 0 <= i <= 15 ->
       fst (load_event_from_eeprom (slot_address i)
              (snd (wipe_eeprom used_world)))
       = Ok None).
Proof.
  split; [reflexivity|].
  apply (wipe_erases_device used_world "  YES " []).
  - reflexivity.
  - reflexivity.
  - apply quiet_for_nil.
Defined.

(** C7 as stated fails when the operator declines: [wipe_eeprom] then
    returns without a single stroke, the device keeps its content, and slot
    0 still loads. *)
Lemma wipe_declined_counterexample :
  confirms "no" = false
  /\ In (Line "EEPROM wipe canceled." [])
        (stdout (snd (wipe_eeprom declined_world)))
  /\ bus_log (snd (wipe_eeprom declined_world)) = []
  /\ mem_read (eeprom (snd (wipe_eeprom declined_world))) 0 = byte_of_Z 8
  /\ fst (load_event_from_eeprom (slot_address 0)
            (snd (wipe_eeprom declined_world)))
     = Ok (Some ceremony).
Proof.
  conjs; try reflexivity. vm_compute. tauto.
Qed.

(** ** C8: listing the slots *)

(** A string read, whatever the length asked for: the text, undecodable
    bytes, a short read, or a failed transfer. *)
Lemma wp_read_string_any address length Q w :
  (forall s, Q (Ok (Some s)) (transferred (ReadMem address length true) w)) ->
  Q (Ok None)
    (printed (Line "Failed to decode string from EEPROM:" [AExn UnicodeError])
             (transferred (ReadMem address length true) w)) ->
  Q (Ok None)
    (printed (Line "Failed to read {length} bytes from EEPROM at address {address}"
                   [AInt length; AInt address])
             (transferred (ReadMem address length true) w)) ->
  Q (Ok None)
    (printed (Line "Failed to read {length} bytes from EEPROM at address {address}"
                   [AInt length; AInt address])
       (printed (Line "Failed to read from EEPROM:" [AExn OSError])
                (transferred (ReadMem address length false) w))) ->
  wp (read_string_from_eeprom address length) Q w.
Proof.
  intros Hok Hbad Hshort Hf. unfold read_string_from_eeprom.
  apply wp_bind, wp_read_bytes; intros Hn; cbv beta iota.
  - destruct (len _ =? length).
    + unfold bytes_decode. destruct (decodable _).
      * apply wp_ret, Hok.
      * cbn [is_ValueError]. apply wp_bind, wp_print. cbv beta iota.
        apply wp_ret, Hbad.
    + apply wp_bind, wp_print. cbv beta iota. apply wp_ret, Hshort.
  - apply wp_bind, wp_print. cbv beta iota. apply wp_ret, Hf.
Qed.

Lemma wp_getitem_first m address (Q : result Z -> world -> Prop) w :
  Q (Ok (int_of_byte (mem_read m address))) w ->
  wp (lift (bytes_getitem (mem_read_range m address (Z.to_nat 1)) 0)) Q w.
Proof.
  change (Z.to_nat 1) with 1%nat. rewrite mem_read_range_1. exact (fun H => H).
Qed.

(** Follows a run down every path. *)
Ltac wp_crawl :=
  repeat first
    [ lazymatch goal with
      | |- wp (lift (bytes_getitem (mem_read_range _ _ _) _)) _ _ =>
        apply wp_getitem_first; cbv beta iota
      | |- wp (read_string_from_eeprom _ _) _ _ =>
        apply wp_read_string_any; [intros ?| | |]; cbv beta iota
      | |- wp (if ?b then _ else _) _ _ => destruct b
      end
    | wp_step ].

Ltac load_leaf :=
  unfold load_post;
  cbn [eeprom stdin stdout faults printed transferred];
  rewrite <- ?app_assoc; cbn [app];
  conjs; [eexists; reflexivity
         | eexists; split; [reflexivity | reflexivity]
         | reflexivity | reflexivity
         | intros ->; reflexivity].

Lemma load_event_spec (address : Z) (w : world) :
  wp (load_event_from_eeprom address) (load_post address w) w.
Proof.
  unfold load_event_from_eeprom. wp_crawl; load_leaf.
Qed.

Lemma blind_ret {A : Type} (a : A) : blind (ret a).
Proof. intros w1 w2 H. split; [reflexivity | exact H]. Qed.

Lemma blind_raise {A : Type} (e : exn) : blind (@raise A e).
Proof. intros w1 w2 H. split; [reflexivity | exact H]. Qed.

Lemma blind_lift {A : Type} (r : result A) : blind (lift r).
Proof. intros w1 w2 H. split; [reflexivity | exact H]. Qed.

Lemma blind_print text args : blind (print text args).
Proof. intros w1 w2 H. split; [reflexivity | exact H]. Qed.

Lemma blind_bind {A B : Type} (m : M A) (k : A -> M B) :
  blind m -> (forall a, blind (k a)) -> blind (bind m k).
Proof.
  intros Hm Hk w1 w2 H. unfold bind.
  destruct (Hm w1 w2 H) as [Hr Hw].
  destruct (m w1) as [r1 w1'], (m w2) as [r2 w2']. cbn [fst snd] in Hr, Hw.
  subst r2. destruct r1 as [a|e].
  - apply Hk, Hw.
  - split; [reflexivity | exact Hw].
Qed.

Lemma blind_attempt {A : Type} (m : M A) : blind m -> blind (attempt m).
Proof.
  intros Hm w1 w2 H. unfold attempt.
  destruct (Hm w1 w2 H) as [Hr Hw].
  destruct (m w1) as [r1 w1'], (m w2) as [r2 w2']. cbn [fst snd] in *.
  split; [congruence | exact Hw].
Qed.

Lemma blind_i2c_readfrom_mem address nbytes :
  blind (i2c_readfrom_mem address nbytes).
Proof.
  intros w1 w2 (He & Hf & Hl & Hi). unfold i2c_readfrom_mem, next_fault.
  rewrite Hf, He. destruct (hd false (faults w2)); cbn.
  - unfold same_device. cbn. rewrite Hf, He, Hl, Hi. auto.
  - unfold same_device. cbn. rewrite Hf, He, Hl, Hi. auto.
Qed.

Ltac blind_crawl :=
  repeat first
    [ apply blind_ret | apply blind_raise | apply blind_lift
    | apply blind_print | apply blind_i2c_readfrom_mem
    | apply blind_attempt
    | apply blind_bind; [|intros ?]
    | lazymatch goal with
      | |- blind (if ?b then _ else _) => destruct b
      | |- blind (match ?x with Some _ => _ | None => _ end) => destruct x
      | |- blind (match ?x with Ok _ => _ | Raise _ => _ end) => destruct x
      end ].

Lemma blind_read_bytes address length :
  blind (read_bytes_from_eeprom address length).
Proof. unfold read_bytes_from_eeprom. blind_crawl. Qed.

Lemma blind_read_string address length :
  blind (read_string_from_eeprom address length).
Proof.
  unfold read_string_from_eeprom.
  apply blind_bind; [apply blind_read_bytes|]. intros x. blind_crawl.
Qed.

Lemma blind_load_event address : blind (load_event_from_eeprom address).
Proof.
  unfold load_event_from_eeprom.
  repeat first
    [ apply blind_read_bytes | apply blind_read_string | progress blind_crawl ].
Qed.

Lemma is_plain_split (l : list line) :
  forallb is_plain l = true ->
  forallb not_header l = true /\ forallb not_loading l = true.
Proof.
  induction l as [|[text args] l IH]; [auto|]. cbn [forallb is_plain].
  intros H. apply andb_prop in H. destruct H as [H Hl].
  apply andb_prop in H. destruct H as [H1 H2].
  destruct (IH Hl) as [-> ->]. cbn [not_header not_loading].
  rewrite H1, H2. auto.
Qed.

Lemma parse_block_not_header (l : line) (rest : list line) :
  not_header l = true -> parse_block l rest = None.
Proof.
  destruct l as [text args]. cbn [not_header parse_block]. intros H.
  apply negb_true_iff in H. rewrite H.
  destruct args as [|[] [|]]; reflexivity.
Qed.

Lemma emitted_skip (l1 l2 : list line) :
  forallb not_header l1 = true -> emitted (l1 ++ l2) = emitted l2.
Proof.
  induction l1 as [|l l1 IH]; [reflexivity|]. cbn [forallb app emitted].
  intros H. apply andb_prop in H. destruct H as [H Hl].
  rewrite (parse_block_not_header _ _ H). auto.
Qed.

Lemma loaded_addresses_app (l1 l2 : list line) :
  loaded_addresses (l1 ++ l2) = loaded_addresses l1 ++ loaded_addresses l2.
Proof.
  induction l1 as [|[text args] l1 IH]; [reflexivity|].
  cbn [app loaded_addresses].
  destruct args as [|[] [|]]; try exact IH.
  destruct (String.eqb text loading_text); [cbn [app]; f_equal|]; exact IH.
Qed.

Lemma loaded_addresses_skip (l : list line) :
  forallb not_loading l = true -> loaded_addresses l = [].
Proof.
  induction l as [|[text args] l IH]; [reflexivity|].
  cbn [forallb not_loading loaded_addresses]. intros H.
  apply andb_prop in H. destruct H as [H Hl]. apply negb_true_iff in H.
  rewrite H. destruct args as [|[] [|]]; auto.
Qed.

Lemma list_all_events_unfold (start_address max_events event_size : Z) :
  list_all_events start_address max_events event_size
  = (print "\nListing All Events:" [] ;;
     for_in (py_range 0 max_events 1)
            (slot_report start_address event_size)).
Proof. reflexivity. Qed.

Lemma py_range_unit (n : Z) :
  py_range 0 n 1 = map Z.of_nat (seq 0 (Z.to_nat n)).
Proof.
  unfold py_range. replace ((n - 0 + 1 - 1) / 1) with n
    by (rewrite Z.div_1_r; lia).
  apply map_ext. intros k. lia.
Qed.

(** One round of the loop: the load runs right after the checking line,
    returns normally, and its result alone decides what is printed next. *)
Lemma slot_report_spec (start_address i : Z) (w : world) :
  let addr := start_address + i * 250 in
  let run := load_event_from_eeprom addr (printed (checking_line i addr) w) in
  exists r l,
    fst run = Ok r
    /\ stdout (snd run)
       = stdout w ++ checking_line i addr :: Line loading_text [AInt addr] :: l
    /\ forallb is_plain l = true
    /\ fst (slot_report start_address 250 i w) = Ok tt
    /\ same_device (snd (slot_report start_address 250 i w)) (snd run)
    /\ stdout (snd (slot_report start_address 250 i w))
       = stdout (snd run) ++ report_lines i r.
Proof.
  intros addr run.
  destruct (load_event_spec addr (printed (checking_line i addr) w))
    as ((r & Hr) & (l & Hout & Hl) & _).
  fold run in Hr, Hout. cbn [stdout printed] in Hout.
  rewrite <- app_assoc in Hout. cbn [app] in Hout.
  exists r, l. conjs; try assumption.
  - unfold slot_report, bind at 1, print at 1. fold addr.
    fold (checking_line i addr). unfold bind at 1. fold run.
    destruct run as [r' w']. cbn [fst] in Hr. subst r'.
    destruct r; reflexivity.
  - unfold slot_report, bind at 1, print at 1. fold addr.
    fold (checking_line i addr). unfold bind at 1. fold run.
    destruct run as [r' w']. cbn [fst] in Hr. subst r'.
    destruct r; repeat split.
  - unfold slot_report, bind at 1, print at 1. fold addr.
    fold (checking_line i addr). unfold bind at 1. fold run.
    destruct run as [r' w']. cbn [fst] in Hr. subst r'.
    destruct r; cbn; rewrite <- ?app_assoc; reflexivity.
Qed.

Lemma bind_ok {A B : Type} (m : M A) (k : A -> M B) (w : world) (a : A) :
  fst (m w) = Ok a -> bind m k w = k a (snd (m w)).
Proof. unfold bind. destruct (m w) as [r w']. cbn. now intros ->. Qed.

Lemma same_device_trans w1 w2 w3 :
  same_device w1 w2 -> same_device w2 w3 -> same_device w1 w3.
Proof.
  unfold same_device. intros (? & ? & ? & ?) (? & ? & ? & ?).
  repeat split; congruence.
Qed.

Lemma emitted_report (i : Z) (r : option Event) (out : list line) :
  emitted (report_lines i r ++ out)
  = match r with
    | Some event => (i, event) :: emitted out
    | None => emitted out
    end.
Proof.
  destruct r as [event|]; cbn.
  - replace (i + 1 - 1) with i by lia. destruct event; reflexivity.
  - reflexivity.
Qed.

Lemma loaded_addresses_report (i : Z) (r : option Event) :
  loaded_addresses (report_lines i r) = [].
Proof. destruct r; reflexivity. Qed.

(** The loop of [list_all_events] against [listSlots_from], from worlds
    that differ at most on the console: both return normally and leave the
    same device, the events listed on the console are the pairs the
    enumeration returns, and the loads announced are those of the slot
    addresses in increasing order. *)
Lemma listing_refines (start_address : Z) (n : nat) :
  forall (s : nat) (w1 w2 : world),
    same_device w1 w2 ->
    exists out l,
      fst (for_in (map Z.of_nat (seq s n)) (slot_report start_address 250) w1)
      = Ok tt
      /\ fst (listSlots_from start_address n (Z.of_nat s) w2) = Ok l
      /\ same_device
           (snd (for_in (map Z.of_nat (seq s n))
                        (slot_report start_address 250) w1))
           (snd (listSlots_from start_address n (Z.of_nat s) w2))
      /\ stdout (snd (for_in (map Z.of_nat (seq s n))
                             (slot_report start_address 250) w1))
         = stdout w1 ++ out
      /\ emitted out = l
      /\ loaded_addresses out
         = map (fun k => start_address + Z.of_nat k * 250) (seq s n).
Proof.
  induction n as [|n IH]; intros s w1 w2 Hsame.
  - exists [], []. cbn. rewrite app_nil_r. conjs; auto.
  - cbn [seq map for_in listSlots_from].
    set (i := Z.of_nat s). set (addr := start_address + i * 250).
    destruct (slot_report_spec start_address i w1)
      as (r & l & Hr & Hout & Hpl & Hb & Hsd & Hbout).
    fold addr in Hr, Hout, Hsd, Hbout.
    assert (Hsame' : same_device (printed (checking_line i addr) w1) w2)
      by exact Hsame.
    destruct (blind_load_event addr _ _ Hsame') as [Hfst Hsnd].
    rewrite Hr in Hfst. symmetry in Hfst.
    pose proof (same_device_trans _ _ _ Hsd Hsnd) as Hnext.
    destruct (IH (S s) _ _ Hnext)
      as (out' & l' & Hb' & Hl' & Hsd' & Hout' & Hem & Hld).
    rewrite (bind_ok _ _ w1 tt Hb).
    rewrite (bind_ok _ _ w2 r Hfst).
    replace (i + 1) with (Z.of_nat (S s)) by (subst i; lia).
    rewrite (bind_ok _ _ _ l' Hl'). cbn [ret fst snd].
    destruct (is_plain_split l Hpl) as [Hnh Hnl].
    exists (checking_line i addr :: Line loading_text [AInt addr]
              :: l ++ report_lines i r ++ out').
    exists (match r with Some event => (i, event) :: l' | None => l' end).
    conjs.
    + exact Hb'.
    + reflexivity.
    + exact Hsd'.
    + rewrite Hout', Hbout, Hout, <- !app_assoc. reflexivity.
    + change (emitted (l ++ report_lines i r ++ out')
              = match r with Some event => (i, event) :: l' | None => l' end).
      rewrite (emitted_skip l _ Hnh), emitted_report, Hem. reflexivity.
    + change (addr :: loaded_addresses (l ++ report_lines i r ++ out')
              = addr :: map (fun k => start_address + Z.of_nat k * 250)
                            (seq (S s) n)).
      rewrite !loaded_addresses_app, (loaded_addresses_skip l Hnl),
        loaded_addresses_report, Hld. reflexivity.
Qed.

Lemma listSlots_from_step (start_address : Z) (n : nat) (i : Z) (w : world)
  (r : option Event) (l : list (Z * Event)) :
  fst (load_event_from_eeprom (start_address + i * 250) w) = Ok r ->
  fst (listSlots_from start_address n (i + 1)
         (snd (load_event_from_eeprom (start_address + i * 250) w))) = Ok l ->
  fst (listSlots_from start_address (S n) i w)
  = Ok (match r with Some event => (i, event) :: l | None => l end).
Proof.
  intros Hr Hl. cbn [listSlots_from].
  rewrite (bind_ok _ _ w r Hr), (bind_ok _ _ _ l Hl). reflexivity.
Qed.

(** C8. [list_all_events start max 250] announces one load per slot index
    0, 1, ..., max-1, in increasing order, at the addresses
    [start + i * 250]; it returns normally; and the events it lists on the
    console, each with its index, are exactly the pairs for which the load
    returned a record, as [listSlots] collects them. In particular, on a
    quiet bus, with a valid event in slot 0, slot 1 erased and a valid event
    in slot 2, listing three slots shows the events of indices 0 and 2, in
    that order, and nothing for index 1. *)
Theorem list_all_events_enumerates (start_address max_events : Z)
  (w : world) :
  exists out,
    stdout (snd (list_all_events start_address max_events 250 w))
    = stdout w ++ out
    /\ fst (list_all_events start_address max_events 250 w) = Ok tt
    /\ loaded_addresses out
       = map (fun k => start_address + Z.of_nat k * 250)
             (seq 0 (Z.to_nat max_events))
    /\ fst (listSlots start_address max_events w) = Ok (emitted out)
    /\ same_device (snd (list_all_events start_address max_events 250 w))
                   (snd (listSlots start_address max_events w))
    /\ (forall e0 e2,
          start_address = 0 -> max_events = 3 ->
          valid_event e0 -> valid_event e2 ->
          faults w = [] ->
          slot_holds (eeprom w) (slot_address 0) (encode e0) ->
          mem_read (eeprom w) (slot_address 1) = xff ->
          slot_holds (eeprom w) (slot_address 2) (encode e2) ->
          emitted out = [(0, e0); (2, e2)]).
Proof.
  rewrite list_all_events_unfold, py_range_unit.
  set (header := Line "\nListing All Events:" []).
  assert (Hsame : same_device (printed header w) w) by (repeat split).
  destruct (listing_refines start_address (Z.to_nat max_events) 0 _ _ Hsame)
    as (out & l & Hr & Hl & Hsd & Hout & Hem & Hld).
  change (Z.of_nat 0) with 0 in Hl, Hsd. fold (listSlots start_address max_events) in Hl, Hsd.
  assert (Hrun : (print "\nListing All Events:" [] ;;
                  for_in (map Z.of_nat (seq 0 (Z.to_nat max_events)))
                         (slot_report start_address 250)) w
                 = for_in (map Z.of_nat (seq 0 (Z.to_nat max_events)))
                          (slot_report start_address 250) (printed header w))
    by reflexivity.
  rewrite Hrun. exists (header :: out). conjs.
  - rewrite Hout. cbn [stdout printed]. rewrite <- app_assoc. reflexivity.
  - exact Hr.
  - exact Hld.
  - rewrite Hl, <- Hem. reflexivity.
  - exact Hsd.
  - intros e0 e2 -> -> Hv0 Hv2 Hf M0 M1 M2.
    change (emitted (header :: out)) with (emitted out). rewrite Hem.
    enough (Hgoal : fst (listSlots 0 3 w) = Ok [(0, e0); (2, e2)])
      by congruence.
    clear - Hv0 Hv2 Hf M0 M1 M2.
    unfold listSlots. change (Z.to_nat 3) with 3%nat.
    (* slot 0 *)
    assert (H0 : fst (load_event_from_eeprom (slot_address 0) w)
                 = Ok (Some e0)).
    { rewrite (load_encoded e0 _ w (proj1 Hv0) M0)
        by (rewrite Hf; apply quiet_for_nil).
      now rewrite (valid_event_no_empty_field e0 Hv0). }
    destruct (load_event_spec (slot_address 0) w)
      as (_ & _ & He1 & _ & Hf1).
    set (w1 := snd (load_event_from_eeprom (slot_address 0) w)) in *.
    (* slot 1 *)
    assert (H1 : fst (load_event_from_eeprom (slot_address 1) w1) = Ok None).
    { apply load_stops_at_first_byte. left. rewrite He1, M1. reflexivity. }
    destruct (load_event_spec (slot_address 1) w1)
      as (_ & _ & He2 & _ & Hf2).
    set (w2 := snd (load_event_from_eeprom (slot_address 1) w1)) in *.
    (* slot 2 *)
    assert (H2 : fst (load_event_from_eeprom (slot_address 2) w2)
                 = Ok (Some e2)).
    { rewrite (load_encoded e2 _ w2 (proj1 Hv2)).
      - now rewrite (valid_event_no_empty_field e2 Hv2).
      - rewrite He2, He1. exact M2.
      - rewrite (Hf2 (Hf1 Hf)). apply quiet_for_nil. }
    apply (listSlots_from_step 0 2 0 w (Some e0) [(2, e2)] H0).
    apply (listSlots_from_step 0 1 1 w1 None [(2, e2)] H1).
    apply (listSlots_from_step 0 0 2 w2 (Some e2) [] H2).
    reflexivity.
Qed.

Lemma valid_event_workshop : valid_event workshop.
Proof.
  unfold valid_event, encodable, valid_text. vm_compute.
  repeat split; discriminate.
Defined.

Lemma list_all_events_enumerates_witness :
  loaded_addresses (stdout (snd (list_all_events 0 3 250 listing_world)))
  = [0; 250; 500]
  /\ emitted (stdout (snd (list_all_events 0 3 250 listing_world)))
     = [(0, ceremony); (2, workshop)].
Proof.
  destruct (list_all_events_enumerates 0 3 listing_world)
    as (out & Hout & _ & Hloads & _ & _ & Hlisted).
  rewrite Hout. cbn [stdout listing_world app]. split.
  - exact Hloads.
  - apply Hlisted; try reflexivity.
    + exact valid_event_ceremony.
    + exact valid_event_workshop.
Defined.

(** * More properties of the program *)

(** ** The clock: BCD and the time registers *)

Lemma dec_to_bcd_eq (v : Z) : dec_to_bcd v = v / 10 * 16 + v mod 10.
Proof. unfold dec_to_bcd. rewrite Z.shiftl_mul_pow2 by lia. reflexivity. Qed.

Lemma bcd_to_dec_eq (b : Z) : bcd_to_dec b = b / 16 * 10 + b mod 16.
Proof.
  unfold bcd_to_dec. rewrite Z.shiftr_div_pow2 by lia.
  change 15 with (Z.ones 4). rewrite Z.land_ones by lia. reflexivity.
Qed.

Lemma dec_to_bcd_range (v : Z) : 0 <= dec_to_bcd v < 256 <-> bcd_field v.
Proof.
  unfold bcd_field. rewrite dec_to_bcd_eq.
  split; intros H; Z.div_mod_to_equations; lia.
Qed.

Lemma bcd_to_dec_to_bcd (v : Z) : bcd_to_dec (dec_to_bcd v) = v.
Proof.
  rewrite bcd_to_dec_eq, dec_to_bcd_eq.
  Z.div_mod_to_equations. lia.
Qed.

(** X1. Decoding the BCD code of any integer gives the integer back. *)
Theorem bcd_round_trip (val : Z) : bcd_to_dec (dec_to_bcd val) = val.
Proof.
  pose proof (bcd_to_dec_to_bcd val) as H.
  rewrite H. reflexivity.
Qed.

(** X2. Encoding the decimal reading of a packed BCD value gives the value
    back as soon as its low nibble is a decimal digit. *)
Theorem bcd_packed_round_trip (b : Z) :
  Z.land b 15 <= 9 -> dec_to_bcd (bcd_to_dec b) = b.
Proof.
  change 15 with (Z.ones 4). rewrite Z.land_ones by lia.
  intros H. rewrite dec_to_bcd_eq, bcd_to_dec_eq.
  Z.div_mod_to_equations. lia.
Qed.

Lemma bcd_packed_round_trip_witness : dec_to_bcd (bcd_to_dec 89) = 89.
Proof. apply (bcd_packed_round_trip 89). vm_compute. discriminate. Defined.

Lemma bytes_of_ints_ok (l : list Z) :
  Forall (fun n => 0 <= n < 256) l -> bytes_of_ints l = Ok (map byte_of_Z l).
Proof.
  induction 1 as [|n l Hn _ IH]; [reflexivity|].
  cbn [bytes_of_ints map].
  destruct (0 <=? n) eqn:E1; [|apply Z.leb_gt in E1; lia].
  destruct (n <? 256) eqn:E2; [|apply Z.ltb_ge in E2; lia].
  cbn. rewrite IH. reflexivity.
Qed.

Lemma bytes_of_ints_bad (l : list Z) :
  Exists (fun n => n < 0 \/ 256 <= n) l -> bytes_of_ints l = Raise ValueError.
Proof.
  induction 1 as [n l Hn|n l _ IH]; cbn [bytes_of_ints].
  - destruct (0 <=? n) eqn:E1; [|reflexivity].
    destruct (n <? 256) eqn:E2; [|reflexivity].
    apply Z.leb_le in E1. apply Z.ltb_lt in E2. lia.
  - destruct ((0 <=? n) && (n <? 256)); [|reflexivity].
    rewrite IH. reflexivity.
Qed.

Lemma year_field (year : Z) : bcd_field (year mod 100).
Proof. unfold bcd_field. pose proof (Z.mod_pos_bound year 100). lia. Qed.

Lemma set_time_data (year month date day hour minute second : Z) :
  bcd_field second -> bcd_field minute -> bcd_field hour ->
  bcd_field day -> bcd_field date -> bcd_field month ->
  bytes_of_ints [dec_to_bcd second; dec_to_bcd minute; dec_to_bcd hour;
                 dec_to_bcd day; dec_to_bcd date; dec_to_bcd month;
                 dec_to_bcd (year mod 100)]
  = Ok (time_registers year month date day hour minute second).
Proof.
  intros Hs Hmi Hh Hdy Hd Hmo.
  apply bytes_of_ints_ok.
  pose proof (year_field year) as Hy.
  repeat constructor; apply dec_to_bcd_range; assumption.
Qed.

Lemma set_time_run (year month date day hour minute second : Z) (c : clock) :
  bcd_field second -> bcd_field minute -> bcd_field hour ->
  bcd_field day -> bcd_field date -> bcd_field month ->
  set_time year month date day hour minute second c
  = (Ok tt,
     let data := time_registers year month date day hour minute second in
     if hd false (clock_faults c)
     then Clock (registers c) (tl (clock_faults c))
                (clock_log c ++ [WriteMem 0 data false])
                (clock_out c ++ [time_failed_line])
     else Clock (regs_write (registers c) 0 data) (tl (clock_faults c))
                (clock_log c ++ [WriteMem 0 data true])
                (clock_out c ++ [time_set_line])).
Proof.
  intros Hs Hmi Hh Hdy Hd Hmo.
  unfold set_time, tbind, tlift.
  rewrite set_time_data by assumption.
  unfold tattempt, tbind, rtc_writeto_mem.
  destruct (hd false (clock_faults c)); reflexivity.
Qed.

(** X3. With every field between 0 and 159, [set_time] never raises and
    makes exactly one transfer: a write at register 0 of the seven BCD
    bytes, seconds first, the year reduced to its last two digits. When the
    chip acknowledges, the registers hold these bytes and the success line
    is printed; otherwise the registers are unchanged and the failure line
    is printed. *)
Theorem set_time_sends_bcd
  (year month date day hour minute second : Z) (c : clock) :
  bcd_field second -> bcd_field minute -> bcd_field hour ->
  bcd_field day -> bcd_field date -> bcd_field month ->
  let data := time_registers year month date day hour minute second in
  let acked := negb (hd false (clock_faults c)) in
  let c' := snd (set_time year month date day hour minute second c) in
  fst (set_time year month date day hour minute second c) = Ok tt /\
  clock_log c' = clock_log c ++ [WriteMem 0 data acked] /\
  registers c'
  = (if acked then regs_write (registers c) 0 data else registers c) /\
  clock_out c'
  = clock_out c ++ [if acked then time_set_line else time_failed_line].
Proof.
  intros Hs Hmi Hh Hdy Hd Hmo. cbv zeta.
  rewrite set_time_run by assumption.
  destruct (hd false (clock_faults c)); cbn; auto.
Qed.

Lemma set_time_sends_bcd_witness :
  let c := Clock (fun _ => x00) [] [] [] in
  let c' := snd (set_time 2024 11 3 7 16 48 30 c) in
  fst (set_time 2024 11 3 7 16 48 30 c) = Ok tt /\
  clock_log c'
  = [WriteMem 0 (time_registers 2024 11 3 7 16 48 30) true] /\
  registers c'
  = regs_write (fun _ => x00) 0 (time_registers 2024 11 3 7 16 48 30) /\
  clock_out c' = [time_set_line].
Proof.
  apply (set_time_sends_bcd 2024 11 3 7 16 48 30
           (Clock (fun _ => x00) [] [] []));
    unfold bcd_field; lia.
Defined.

(** X4. [set_time] does not check its arguments: a second, minute, hour,
    day, date or month that is negative or above 159 makes the construction
    of the seven bytes raise [ValueError], which the function does not
    catch; nothing is sent and nothing is printed. *)
Theorem set_time_rejects_wide_field
  (year month date day hour minute second : Z) (c : clock) :
  Exists (fun v => v < 0 \/ 160 <= v)
         [second; minute; hour; day; date; month] ->
  set_time year month date day hour minute second c = (Raise ValueError, c).
Proof.
  intros H. unfold set_time, tbind, tlift.
  rewrite bytes_of_ints_bad; [reflexivity|].
  assert (Hout : forall v, v < 0 \/ 160 <= v ->
                           dec_to_bcd v < 0 \/ 256 <= dec_to_bcd v).
  { intros v Hv. pose proof (dec_to_bcd_range v) as R.
    unfold bcd_field in R. lia. }
  repeat match goal with
         | H : Exists _ (_ :: _) |- _ =>
           apply Exists_cons in H; destruct H as [H|H];
           [apply Hout in H|]
         | H : Exists _ [] |- _ => apply Exists_nil in H; contradiction
         end;
    repeat (first [ apply Exists_cons_hd; assumption | apply Exists_cons_tl ]).
Qed.

Lemma set_time_rejects_wide_field_witness :
  set_time 2024 11 3 7 16 48 160 (Clock (fun _ => x00) [] [] [])
  = (Raise ValueError, Clock (fun _ => x00) [] [] []).
Proof.
  apply (set_time_rejects_wide_field 2024 11 3 7 16 48 160).
  apply Exists_cons_hd. lia.
Defined.

Lemma regs_read_write7 (r : Z -> byte) (b0 b1 b2 b3 b4 b5 b6 : byte) :
  regs_read (regs_write r 0 [b0; b1; b2; b3; b4; b5; b6]) 0 (Z.to_nat 7)
  = [b0; b1; b2; b3; b4; b5; b6].
Proof. reflexivity. Qed.

Lemma read_field (v : Z) :
  bcd_field v -> bcd_to_dec (int_of_byte (byte_of_Z (dec_to_bcd v))) = v.
Proof.
  intros H. rewrite int_of_byte_of_Z_small by (apply dec_to_bcd_range; exact H).
  apply bcd_to_dec_to_bcd.
Qed.

Lemma read_month (v : Z) :
  0 <= v < 20 ->
  bcd_to_dec (Z.land (int_of_byte (byte_of_Z (dec_to_bcd v))) 31) = v.
Proof.
  intros H.
  assert (Hf : bcd_field v) by (unfold bcd_field; lia).
  rewrite int_of_byte_of_Z_small by (apply dec_to_bcd_range; exact Hf).
  change 31 with (Z.ones 5). rewrite Z.land_ones by lia.
  rewrite Z.mod_small; [apply bcd_to_dec_to_bcd|].
  rewrite dec_to_bcd_eq. Z.div_mod_to_equations. lia.
Qed.

(** X5. On a bus whose next two transfers succeed, reading the time right
    after setting it returns the fields that were set, the year as 2000
    plus its last two digits; this needs every field between 0 and 159 and
    the month below 20, because the read masks the month register with
    0x1F. *)
Theorem set_then_read_time
  (year month date day hour minute second : Z) (c : clock) :
  quiet_for 2 (clock_faults c) ->
  bcd_field second -> bcd_field minute -> bcd_field hour ->
  bcd_field day -> bcd_field date -> 0 <= month < 20 ->
  fst (read_time (snd (set_time year month date day hour minute second c)))
  = Ok (Some (2000 + year mod 100, month, date, day, hour, minute, second)).
Proof.
  intros (Q1 & Q2 & _) Hs Hmi Hh Hdy Hd Hmo.
  assert (Hmo' : bcd_field month) by (unfold bcd_field; lia).
  rewrite set_time_run by assumption. cbv zeta. rewrite Q1. cbv iota. cbn [snd].
  unfold read_time, tattempt, tbind, rtc_readfrom_mem.
  cbn [clock_faults registers clock_log clock_out]. rewrite Q2.
  unfold time_registers. cbn [map]. rewrite regs_read_write7.
  cbn [tlift bytes_getitem nth_error fst snd tprint tret].
  rewrite !read_field by (assumption || apply year_field).
  rewrite read_month by assumption.
  rewrite (Z.add_comm (year mod 100) 2000). reflexivity.
Qed.

Lemma set_then_read_time_witness :
  fst (read_time (snd (set_time 2024 11 3 7 16 48 30
                         (Clock (fun _ => x00) [] [] []))))
  = Ok (Some (2000 + 2024 mod 100, 11, 3, 7, 16, 48, 30)).
Proof.
  apply (set_then_read_time 2024 11 3 7 16 48 30
           (Clock (fun _ => x00) [] [] []));
    first [ apply quiet_for_nil | unfold bcd_field; lia ].
Defined.

Lemma bcd_to_dec_byte (b : byte) : 0 <= bcd_to_dec (int_of_byte b) <= 165.
Proof.
  pose proof (int_of_byte_range b). rewrite bcd_to_dec_eq.
  Z.div_mod_to_equations. lia.
Qed.

Lemma bcd_to_dec_month (b : byte) :
  0 <= bcd_to_dec (Z.land (int_of_byte b) 31) <= 25.
Proof.
  pose proof (int_of_byte_range b).
  change 31 with (Z.ones 5). rewrite Z.land_ones by lia.
  rewrite bcd_to_dec_eq. Z.div_mod_to_equations. lia.
Qed.

(** X6. [read_time] never raises, whatever the registers hold and whatever
    the bus does: it makes one 7-byte read at register 0 and leaves the
    registers as they were. When the read fails it returns [None]. When it
    succeeds it returns seven numbers without checking them: each of
    second, minute, hour, day and date lies between 0 and 165, the month
    between 0 and 25, the year between 2000 and 2165. *)
Theorem read_time_total (c : clock) :
  registers (snd (read_time c)) = registers c
  /\ clock_log (snd (read_time c))
     = clock_log c ++ [ReadMem 0 7 (negb (hd false (clock_faults c)))]
  /\ (hd false (clock_faults c) = true -> fst (read_time c) = Ok None)
  /\ (hd false (clock_faults c) = false ->
      exists year month date day hour minute second,
        fst (read_time c)
        = Ok (Some (year, month, date, day, hour, minute, second))
        /\ 2000 <= year <= 2165 /\ 0 <= month <= 25
        /\ 0 <= date <= 165 /\ 0 <= day <= 165 /\ 0 <= hour <= 165
        /\ 0 <= minute <= 165 /\ 0 <= second <= 165).
Proof.
  unfold read_time, tattempt, tbind, rtc_readfrom_mem.
  destruct (hd false (clock_faults c)) eqn:E.
  - cbn. repeat split; intros; congruence.
  - change (Z.to_nat 7) with 7%nat.
    cbn [regs_read map seq tlift bytes_getitem nth_error fst snd tprint tret
         registers clock_log negb].
    split; [reflexivity|]. split; [reflexivity|].
    split; [discriminate|]. intros _.
    do 7 eexists. split; [reflexivity|].
    pose proof (bcd_to_dec_byte (registers c (0 + Z.of_nat 6))).
    repeat split;
      first [ apply bcd_to_dec_byte | apply bcd_to_dec_month | lia ].
Qed.

(** ** The writer, page by page *)

Lemma firstn_add_skipn {A : Type} (a b : nat) (l : list A) :
  firstn (a + b) l = firstn a l ++ firstn b (skipn a l).
Proof.
  revert l. induction a as [|a IH]; intros l; [reflexivity|].
  destruct l as [|x l]; cbn [Nat.add firstn skipn app].
  - now rewrite firstn_nil.
  - now rewrite IH.
Qed.

Lemma first_pages_S (k : nat) (data : bytes) :
  first_pages (S k) data
  = firstn (Z.to_nat PAGE_SIZE) data
      ++ first_pages k (skipn (Z.to_nat PAGE_SIZE) data).
Proof.
  unfold first_pages. rewrite Nat.mul_succ_r, Nat.add_comm.
  apply firstn_add_skipn.
Qed.

Lemma page_S (k : nat) (data : bytes) :
  page (S k) data = page k (skipn (Z.to_nat PAGE_SIZE) data).
Proof.
  unfold page. rewrite skipn_skipn, Nat.mul_succ_r. reflexivity.
Qed.

Lemma len_first_chunk (data : bytes) :
  data <> [] -> 1 <= len (firstn (Z.to_nat PAGE_SIZE) data) <= PAGE_SIZE.
Proof.
  intros Hne. unfold len, PAGE_SIZE. rewrite length_firstn.
  change (Z.to_nat 32) with 32%nat.
  destruct data as [|b d]; [congruence|]. simpl List.length. lia.
Qed.

Lemma len_full_chunk (data : bytes) :
  skipn (Z.to_nat PAGE_SIZE) data <> [] ->
  len (firstn (Z.to_nat PAGE_SIZE) data) = PAGE_SIZE.
Proof.
  intros Hne. unfold len, PAGE_SIZE in *. rewrite length_firstn.
  change (Z.to_nat 32) with 32%nat in *.
  assert (H : (List.length (skipn 32 data) <> 0)%nat).
  { intros H. apply length_zero_iff_nil in H. contradiction. }
  rewrite length_skipn in H. lia.
Qed.

Lemma page_nonempty (k : nat) (data : bytes) :
  1 <= len (page k data) -> data <> [].
Proof.
  intros H ->. unfold page in H. rewrite skipn_nil, firstn_nil in H.
  cbn in H. lia.
Qed.

(** Every entry of the writer's log is a page of the data or a pause. *)
Lemma write_trace_pages address data l ok :
  write_trace address data l ok -> Forall (page_op address data) l.
Proof.
  induction 1 as [address | address data Hne | address data l ok Hne Htr IH].
  - constructor.
  - constructor; [|constructor].
    exists 0%nat. rewrite (pages_step data Hne).
    split; [lia|]. split; [lia|]. split; [reflexivity|].
    apply len_first_chunk, Hne.
  - constructor; [|constructor; [reflexivity|]].
    + exists 0%nat. rewrite (pages_step data Hne).
      split; [lia|]. split; [lia|]. split; [reflexivity|].
      apply len_first_chunk, Hne.
    + eapply Forall_impl; [|exact IH].
      intros [a chunk acked| |ms]; cbn [page_op]; auto.
      intros (k & Hk & Ha & Hc & Hl).
      exists (S k). rewrite (pages_step data Hne), page_S.
      split; [lia|]. split; [|split; [exact Hc | exact Hl]].
      assert (Hrest : skipn (Z.to_nat PAGE_SIZE) data <> []).
      { apply (page_nonempty k). rewrite <- Hc. lia. }
      rewrite (len_full_chunk data Hrest) in Ha. lia.
Qed.

(** X7. Whatever the bus does, [write_bytes_to_eeprom] returns normally
    and puts on the bus only pages of the data and 10 ms pauses: every
    write carries page [k] of the data, between 1 and 32 bytes, to
    [address + 32 * k]; it never reads. *)
Theorem write_bytes_page_discipline (address : Z) (data : bytes) (w : world) :
  fst (write_bytes_to_eeprom address data w) = Ok tt /\
  exists l,
    bus_log (snd (write_bytes_to_eeprom address data w)) = bus_log w ++ l
    /\ Forall (page_op address data) l.
Proof.
  assert (H : wp (write_bytes_to_eeprom address data)
                 (fun r w' =>
                    r = Ok tt /\
                    exists l, bus_log w' = bus_log w ++ l
                              /\ Forall (page_op address data) l) w).
  { apply wp_write_bytes.
    intros w' [_ (l & ok & Htr & Hlog & _)].
    split; [reflexivity|].
    exists l. split; [exact Hlog|].
    eapply write_trace_pages, Htr. }
  exact H.
Qed.

Lemma wp_conj {A : Type} (m : M A) (Q1 Q2 : result A -> world -> Prop) w :
  wp m Q1 w -> wp m Q2 w -> wp m (fun r w' => Q1 r w' /\ Q2 r w') w.
Proof. unfold wp. auto. Qed.

(** The device after the loop: the pages acknowledged before the first
    failure, and nothing else. *)
Lemma write_loop_memory (fuel : nat) :
  forall address data w,
    (List.length data <= fuel)%nat ->
    len data <= EEPROM_SIZE ->
    wp (write_loop fuel address data)
       (fun _ w' =>
          forall x,
            eeprom w' x
            = mem_write (eeprom w) address
                (first_pages (acked_run (pages (len data)) (faults w)) data)
                x) w.
Proof.
  induction fuel as [|fuel IH]; intros address data w Hfuel Hlen.
  - destruct data; [|simpl in Hfuel; lia].
    intros x. cbn. unfold first_pages. rewrite firstn_nil.
    now rewrite mem_write_nil.
  - destruct data as [|b d].
    { intros x. cbn. unfold first_pages. rewrite firstn_nil.
      now rewrite mem_write_nil. }
    set (data := b :: d) in *.
    assert (Hne : data <> []) by discriminate.
    change (write_loop (S fuel) address data)
      with (r <- attempt (i2c_writeto_mem address
                            (firstn (Z.to_nat PAGE_SIZE) data) ;;
                          sleep_ms 10 ;;
                          ret (address
                               + len (firstn (Z.to_nat PAGE_SIZE) data))) ;;
            match r with
            | Ok address' =>
              write_loop fuel address' (skipn (Z.to_nat PAGE_SIZE) data)
            | Raise e =>
              if is_OSError e
              then print "Failed to write to EEPROM:" [AExn e]
              else raise e
            end).
    set (chunk := firstn (Z.to_nat PAGE_SIZE) data).
    set (rest := skipn (Z.to_nat PAGE_SIZE) data).
    assert (Hsplit : chunk ++ rest = data) by apply firstn_skipn.
    assert (Hl : len chunk + len rest = len data)
      by (rewrite <- len_app, Hsplit; reflexivity).
    pose proof (len_nonneg chunk) as Hc0.
    pose proof (len_nonneg rest) as Hr0.
    rewrite (pages_step data Hne). fold rest. cbn [acked_run].
    apply wp_bind, wp_attempt, wp_bind, wp_i2c_writeto_mem;
      intros Hfault; cbv beta iota; unfold next_fault in Hfault;
      rewrite Hfault.
    + cbn [is_OSError]. apply wp_print. intros x.
      cbn [eeprom printed transferred]. unfold first_pages.
      rewrite Nat.mul_0_r. cbn [firstn]. now rewrite mem_write_nil.
    + wp_steps.
      match goal with |- wp _ _ ?w1 => set (w1' := w1) end.
      assert (Hrest : (List.length rest <= fuel)%nat).
      { subst rest. rewrite length_skipn. simpl in Hfuel. simpl. lia. }
      assert (Hrl : len rest <= EEPROM_SIZE) by lia.
      apply (wp_mono _ _ _ _ (IH (address + len chunk) rest w1' Hrest Hrl)).
      intros r w' Hmem x. rewrite Hmem. subst w1'.
      cbn [eeprom faults logged].
      rewrite first_pages_S. fold chunk rest.
      apply mem_write_app.
      assert (len (first_pages (acked_run (pages (len rest)) (tl (faults w)))
                               rest) <= len rest).
      { unfold first_pages, len. rewrite length_firstn. lia. }
      lia.
Qed.

Lemma write_bytes_memory (address : Z) (data : bytes) (w : world) :
  len data <= EEPROM_SIZE ->
  wp (write_bytes_to_eeprom address data)
     (fun r w' =>
        r = Ok tt /\
        forall x,
          eeprom w' x
          = mem_write (eeprom w) address
              (first_pages (acked_run (pages (len data)) (faults w)) data)
              x) w.
Proof.
  intros Hlen. unfold write_bytes_to_eeprom. apply wp_bind.
  apply (wp_mono _ _ _ _
           (wp_conj _ _ _ _
              (write_loop_spec _ address data w (le_n _))
              (write_loop_memory _ address data w (le_n _) Hlen))).
  intros r w1 [[-> _] Hmem]. apply wp_print.
  split; [reflexivity | exact Hmem].
Qed.

Lemma mem_write_outside m address data x :
  len data <= (x - address) mod EEPROM_SIZE ->
  mem_write m address data x = m x.
Proof.
  unfold mem_write. intros H.
  destruct (_ <? len data) eqn:E; [|reflexivity].
  apply Z.ltb_lt in E. lia.
Qed.

Lemma len_first_pages (k : nat) (data : bytes) :
  len (first_pages k data) <= len data.
Proof. unfold first_pages, len. rewrite length_firstn. lia. Qed.

Lemma first_pages_prefix (k : nat) (data : bytes) :
  exists rest, first_pages k data ++ rest = data.
Proof. eexists. unfold first_pages. apply firstn_skipn. Qed.

(** X8. Whatever the bus does, after [write_bytes_to_eeprom] the device
    holds the pages that were acknowledged before the first failed write,
    all of them when none failed, and is otherwise as before: a failed
    page write leaves a prefix of the data of whole pages on the device. *)
Theorem write_bytes_partial (address : Z) (data : bytes) (w : world) :
  len data <= EEPROM_SIZE ->
  forall x,
    eeprom (snd (write_bytes_to_eeprom address data w)) x
    = mem_write (eeprom w) address
        (first_pages (acked_run (pages (len data)) (faults w)) data) x.
Proof.
  intros Hlen x.
  destruct (write_bytes_memory address data w Hlen) as [_ H].
  apply H.
Qed.

Lemma write_bytes_partial_witness :
  let data := encode ceremony in
  let w := World erased [false; true] [] [] [] in
  eeprom (snd (write_bytes_to_eeprom 0 data w)) 31
  = mem_write erased 0 (firstn 32 data) 31
  /\ eeprom (snd (write_bytes_to_eeprom 0 data w)) 32 = erased 32.
Proof.
  split.
  - apply (write_bytes_partial 0 (encode ceremony)
             (World erased [false; true] [] [] [])).
    vm_compute. discriminate.
  - reflexivity.
Defined.

(** ** What a save leaves on the device and on the console *)

Lemma commit_memory (address : Z) (data : bytes) (w : world) :
  len data <= EEPROM_SIZE ->
  wp (commit address data)
     (fun _ w' =>
        forall x,
          eeprom w' x
          = mem_write (eeprom w) address
              (first_pages (acked_run (pages (len data)) (faults w)) data)
              x) w.
Proof.
  intros Hlen. unfold commit. apply wp_bind.
  apply (wp_mono _ _ _ _ (write_bytes_memory address data w Hlen)).
  intros r w1 [-> Hmem]. wp_steps;
    try match goal with |- context [bytes_eqb ?a ?b] =>
                        destruct (bytes_eqb a b) end;
    wp_steps; intros x; cbn [eeprom printed transferred]; apply Hmem.
Qed.

Ltac in_list :=
  cbn [In app];
  repeat match goal with
         | H : _ \/ _ |- _ => destruct H as [H|H]
         | H : False |- _ => destruct H
         end;
  subst; cbn [In]; auto 10.

Lemma commit_console (address : Z) (data : bytes) (w : world) :
  wp (commit address data)
     (fun _ w' =>
        exists out, stdout w' = stdout w ++ out /\ incl out commit_lines) w.
Proof.
  unfold commit. apply wp_bind, wp_write_bytes.
  intros w1 [_ (l & ok & _ & _ & Hout & _)]. cbv beta iota.
  wp_steps;
    try match goal with |- context [bytes_eqb ?a ?b] =>
                        destruct (bytes_eqb a b) end;
    wp_steps; cbn [stdout printed transferred]; rewrite Hout;
    rewrite <- !app_assoc;
    (eexists; split; [reflexivity|]);
    destruct ok; intros a Ha; unfold commit_lines; cbn [In app] in Ha;
    in_list.
Qed.

Lemma save_fits_cases (e : Event) :
  (name_len e >? 50) = false -> (speaker_len e >? 50) = false ->
  (description_len e >? 138) = false -> len (encode e) <= 250.
Proof.
  rewrite !Z.gtb_ltb, !Z.ltb_ge, len_encode. lia.
Qed.

(** The device after a save, whatever the event and the bus: some leading
    part of the record, of at most 250 bytes, written at [address]. *)
Lemma save_memory (e : Event) (address : Z) (w : world) :
  exists d,
    (exists rest, d ++ rest = encode e)
    /\ len d <= 250
    /\ forall x,
        eeprom (snd (save_event_to_eeprom e address w)) x
        = mem_write (eeprom w) address d x.
Proof.
  assert (Hnone : exists d,
             (exists rest, d ++ rest = encode e) /\ len d <= 250
             /\ forall x, eeprom w x = mem_write (eeprom w) address d x).
  { exists []. split; [exists (encode e); reflexivity|].
    split; [cbn; lia|]. intros x. now rewrite mem_write_nil. }
  rewrite save_event_cases.
  destruct (name_len e >? 50) eqn:En; [exact Hnone|].
  destruct (negb (to_bytes_fits (start_time e))); [exact Hnone|].
  destruct (negb (to_bytes_fits (end_time e))); [exact Hnone|].
  destruct (speaker_len e >? 50) eqn:Es; [exact Hnone|].
  destruct (description_len e >? 138) eqn:Ed; [exact Hnone|].
  pose proof (save_fits_cases e En Es Ed) as Hfit.
  assert (Hlen : len (encode e) <= EEPROM_SIZE) by (unfold EEPROM_SIZE; lia).
  pose proof (commit_memory address (encode e) w Hlen) as Hmem.
  unfold wp in Hmem.
  eexists. split; [apply first_pages_prefix|].
  split; [|exact Hmem].
  pose proof (len_first_pages
                (acked_run (pages (len (encode e))) (faults w)) (encode e)).
  lia.
Qed.

(** X9. A save changes no cell outside its record: whatever the event and
    whatever the bus does, every cell that is not among the
    [len (encode e)] cells from [address] on keeps its byte. What lay
    behind a shorter record stays in the slot. *)
Theorem save_touches_only_its_record
  (e : Event) (address : Z) (w : world) (x : Z) :
  len (encode e) <= (x - address) mod EEPROM_SIZE ->
  eeprom (snd (save_event_to_eeprom e address w)) x = eeprom w x.
Proof.
  intros Hx.
  destruct (save_memory e address w) as (d & [rest Hd] & _ & Hmem).
  rewrite Hmem. apply mem_write_outside.
  rewrite <- Hd, len_app in Hx. pose proof (len_nonneg rest). lia.
Qed.

Lemma save_touches_only_its_record_witness :
  eeprom (snd (save_event_to_eeprom ceremony 0 used_world)) 33
  = eeprom used_world 33.
Proof.
  apply (save_touches_only_its_record ceremony 0 used_world 33).
  vm_compute. discriminate.
Defined.

Lemma slot_offset (i j k : Z) :
  0 <= i < 16 -> 0 <= j < 16 -> i <> j -> 0 <= k < 250 ->
  250 <= ((slot_address j + k) mod EEPROM_SIZE - slot_address i)
           mod EEPROM_SIZE.
Proof.
  unfold slot_address, EEPROM_SIZE. intros Hi Hj Hij Hk.
  rewrite Zminus_mod_idemp_l.
  Z.div_mod_to_equations. lia.
Qed.

Lemma save_other_slot_cell (e : Event) (i j k : Z) (w : world) :
  0 <= i < 16 -> 0 <= j < 16 -> i <> j -> 0 <= k < 250 ->
  mem_read (eeprom (snd (save_event_to_eeprom e (slot_address i) w)))
           (slot_address j + k)
  = mem_read (eeprom w) (slot_address j + k).
Proof.
  intros Hi Hj Hij Hk.
  destruct (save_memory e (slot_address i) w) as (d & _ & Hd & Hmem).
  unfold mem_read. rewrite Hmem. apply mem_write_outside.
  pose proof (slot_offset i j k Hi Hj Hij Hk). lia.
Qed.

(** X10. Slots do not interfere: saving any event at slot [i], whatever
    the bus does, leaves the 250 bytes of every other slot of the sixteen
    as they were. *)
Theorem save_leaves_other_slots (e : Event) (i j : Z) (w : world) :
  0 <= i < 16 -> 0 <= j < 16 -> i <> j ->
  slot_content (eeprom (snd (save_event_to_eeprom e (slot_address i) w))) j
  = slot_content (eeprom w) j.
Proof.
  intros Hi Hj Hij.
  unfold slot_content, mem_read_range.
  apply map_ext_in. intros k Hk. apply in_seq in Hk.
  apply save_other_slot_cell; try assumption. lia.
Qed.

Lemma save_leaves_other_slots_witness :
  slot_content
    (eeprom (snd (save_event_to_eeprom workshop (slot_address 1)
                                       listing_world))) 2
  = slot_content (eeprom listing_world) 2.
Proof.
  apply (save_leaves_other_slots workshop 1 2 listing_world); lia.
Defined.

(** X11. The last check of [save_event_to_eeprom] never fires: an event
    that passes the three length checks serializes to at most
    1 + 50 + 4 + 4 + 1 + 50 + 2 + 138 = 250 bytes, so no save prints the
    line about the serialized size; what a save prints is one rejection
    line or lines of the write and its verification. *)
Theorem save_never_reports_size (e : Event) (address : Z) (w : world) :
  exists out,
    stdout (snd (save_event_to_eeprom e address w)) = stdout w ++ out
    /\ incl out (rejection_lines ++ commit_lines)
    /\ forall n, ~ In (size_line n) out.
Proof.
  assert (Hno : forall out, incl out (rejection_lines ++ commit_lines) ->
                            forall n, ~ In (size_line n) out).
  { intros out Hincl n Hin. apply Hincl in Hin.
    unfold rejection_lines, commit_lines in Hin. cbn [In app] in Hin.
    repeat destruct Hin as [Hin|Hin]; try discriminate Hin. exact Hin. }
  assert (Hone : forall l, In l rejection_lines ->
            exists out,
              stdout (printed l w) = stdout w ++ out
              /\ incl out (rejection_lines ++ commit_lines)
              /\ forall n, ~ In (size_line n) out).
  { intros l Hl. exists [l].
    assert (Hi : incl [l] (rejection_lines ++ commit_lines)).
    { intros a [<-|[]]. apply in_or_app. left. exact Hl. }
    split; [reflexivity|]. split; [exact Hi | apply Hno, Hi]. }
  assert (Hnil : exists out,
             stdout w = stdout w ++ out
             /\ incl out (rejection_lines ++ commit_lines)
             /\ forall n, ~ In (size_line n) out).
  { exists []. split; [now rewrite app_nil_r|].
    split; [intros a []|intros n []]. }
  rewrite save_event_cases.
  destruct (name_len e >? 50); [apply Hone; cbn; auto|].
  destruct (negb (to_bytes_fits (start_time e))); [exact Hnil|].
  destruct (negb (to_bytes_fits (end_time e))); [exact Hnil|].
  destruct (speaker_len e >? 50); [apply Hone; cbn; auto|].
  destruct (description_len e >? 138); [apply Hone; cbn; auto|].
  destruct (commit_console address (encode e) w) as (out & Hout & Hincl).
  exists out.
  assert (Hi : incl out (rejection_lines ++ commit_lines)).
  { intros a Ha. apply in_or_app. right. apply Hincl, Ha. }
  split; [exact Hout|]. split; [exact Hi | apply Hno, Hi].
Qed.

(** ** Strings on the device *)

Lemma write_bytes_quiet (address : Z) (data : bytes) (w : world) :
  len data <= EEPROM_SIZE ->
  quiet_for (pages (len data)) (faults w) ->
  wp (write_bytes_to_eeprom address data)
     (fun r w' =>
        r = Ok tt
        /\ slot_holds (eeprom w') address data
        /\ faults w' = skipn (pages (len data)) (faults w)
        /\ stdout w'
           = stdout w ++ [Line "Bytes written to EEPROM successfully." []]) w.
Proof.
  intros Hlen Hquiet. apply wp_write_bytes.
  intros w1 [_ (l & ok & _ & _ & Hout & _ & Hmem & Hq)].
  destruct (Hq Hquiet) as [-> Hfs].
  cbn [eeprom faults stdout printed]. conjs.
  - reflexivity.
  - apply (slot_holds_ext (mem_write (eeprom w) address data)).
    + intros x. apply Hmem; auto.
    + apply slot_holds_write, Hlen.
  - exact Hfs.
  - rewrite Hout, app_nil_r. reflexivity.
Qed.

(** X12. A string written with [write_string_to_eeprom] is read back by
    [read_string_from_eeprom] with the length of its encoding, when the
    text is well-formed UTF-8 of at most 4096 bytes and the bus is quiet
    for the page writes and the read. *)
Theorem string_round_trip (address : Z) (s : string) (w : world) :
  utf8_check (str_encode s) = true ->
  len (str_encode s) <= EEPROM_SIZE ->
  quiet_for (S (pages (len (str_encode s)))) (faults w) ->
  fst (write_string_to_eeprom address s w) = Ok tt /\
  fst (read_string_from_eeprom address (len (str_encode s))
         (snd (write_string_to_eeprom address s w)))
  = Ok (Some s).
Proof.
  intros Hu Hlen Hquiet.
  assert (H : wp (write_string_to_eeprom address s)
                 (fun r w' =>
                    r = Ok tt /\
                    fst (read_string_from_eeprom address
                           (len (str_encode s)) w') = Ok (Some s)) w).
  { unfold write_string_to_eeprom. apply wp_bind.
    apply (wp_mono _ _ _ _
             (write_bytes_quiet address (str_encode s) w Hlen
                (quiet_for_le _ _ _ (Nat.le_succ_diag_r _) Hquiet))).
    intros r w1 (-> & Hm & Hfs & _). apply wp_print.
    split; [reflexivity|].
    match goal with
    | |- fst (?m ?w2) = ?v => change (wp m (fun r _ => r = v) w2)
    end.
    apply wp_read_string_stored.
    - unfold next_fault. cbn [faults printed]. rewrite Hfs.
      apply quiet_for_hd_skipn, Hquiet.
    - exact Hm.
    - apply utf8_check_decodable, Hu.
    - reflexivity. }
  exact H.
Qed.

Lemma string_round_trip_witness :
  fst (write_string_to_eeprom 100 "Badges!" fresh_world) = Ok tt /\
  fst (read_string_from_eeprom 100 (len (str_encode "Badges!"))
         (snd (write_string_to_eeprom 100 "Badges!" fresh_world)))
  = Ok (Some "Badges!"%string).
Proof.
  apply (string_round_trip 100 "Badges!" fresh_world).
  - reflexivity.
  - vm_compute. discriminate.
  - apply quiet_for_nil.
Defined.

(** ** Loading: the bus, and what a loaded event says about the device *)

Ltac bus_leaf :=
  unfold load_bus_post;
  cbn [bus_log printed transferred];
  rewrite <- ?app_assoc; cbn [app];
  eexists; split; [reflexivity|];
  split; [reflexivity|];
  split; [cbn [List.length]; lia|];
  cbn [existsb is_failed negb orb];
  intros Hfailed; first [discriminate Hfailed | reflexivity].

Lemma load_event_bus (address : Z) (w : world) :
  wp (load_event_from_eeprom address) (load_bus_post w) w.
Proof.
  unfold load_event_from_eeprom. wp_crawl; bus_leaf.
Qed.

(** X13. Whatever the device holds and whatever the bus does,
    [load_event_from_eeprom] returns normally, leaves the device and the
    keyboard as they were, and puts between one and eight transfers on
    the bus, all of them reads. *)
Theorem load_only_reads (address : Z) (w : world) :
  let r := fst (load_event_from_eeprom address w) in
  let w' := snd (load_event_from_eeprom address w) in
  (exists v, r = Ok v)
  /\ eeprom w' = eeprom w
  /\ stdin w' = stdin w
  /\ exists l, bus_log w' = bus_log w ++ l
               /\ forallb is_read l = true
               /\ (1 <= List.length l <= 8)%nat.
Proof.
  cbv zeta.
  destruct (load_event_spec address w) as (Hr & _ & Hm & Hin & _).
  destruct (load_event_bus address w) as (l & Hlog & Hreads & Hn & _).
  split; [exact Hr|]. split; [exact Hm|]. split; [exact Hin|].
  exists l. auto.
Qed.

(** X14. A load in which any read fails gives [None]: no event is ever
    built from a transfer that did not go through. *)
Theorem load_read_failure_gives_none (address : Z) (w : world)
  (l : list bus_op) :
  bus_log (snd (load_event_from_eeprom address w)) = bus_log w ++ l ->
  existsb is_failed l = true ->
  fst (load_event_from_eeprom address w) = Ok None.
Proof.
  intros Hlog Hfailed.
  destruct (load_event_bus address w) as (l' & Hlog' & _ & _ & Hnone).
  rewrite Hlog' in Hlog. apply app_inv_head in Hlog. subst l'.
  apply Hnone, Hfailed.
Qed.

Lemma load_read_failure_gives_none_witness :
  fst (load_event_from_eeprom 0 (second_fails listing_world)) = Ok None.
Proof.
  apply (load_read_failure_gives_none 0 (second_fails listing_world)
           [ReadMem 0 1 true; ReadMem 1 8 false]).
  - reflexivity.
  - reflexivity.
Defined.

Lemma byte_of_Z_int_of_byte (b : byte) : byte_of_Z (int_of_byte b) = b.
Proof.
  unfold byte_of_Z. pose proof (int_of_byte_range b) as Hr.
  rewrite Z.mod_small by lia. unfold int_of_byte.
  rewrite N2Z.id, Byte.of_to_N. reflexivity.
Qed.

Lemma from_bytes_big_bound (bs : bytes) :
  0 <= from_bytes_big bs < 256 ^ len bs.
Proof.
  induction bs as [|b bs IH] using rev_ind.
  - cbn. lia.
  - rewrite from_bytes_big_snoc, len_app.
    change (len [b]) with 1. pose proof (int_of_byte_range b).
    pose proof (len_nonneg bs).
    rewrite Z.pow_add_r by lia. change (256 ^ 1) with 256. nia.
Qed.

(** The big-endian digits of the number a byte string denotes are that
    byte string. *)
Lemma digits_of_from_bytes_big (bs : bytes) :
  rev (le_digits (List.length bs) (from_bytes_big bs)) = bs.
Proof.
  induction bs as [|b bs IH] using rev_ind.
  - reflexivity.
  - rewrite length_app, Nat.add_comm. cbn [List.length Nat.add le_digits rev].
    rewrite from_bytes_big_snoc. pose proof (int_of_byte_range b).
    replace ((from_bytes_big bs * 256 + int_of_byte b) / 256)
      with (from_bytes_big bs) by (Z.div_mod_to_equations; lia).
    rewrite IH. f_equal. f_equal.
    unfold byte_of_Z.
    replace ((from_bytes_big bs * 256 + int_of_byte b) mod 256)
      with (int_of_byte b mod 256)
      by (rewrite Z.add_comm, Z.mod_add by lia; reflexivity).
    apply byte_of_Z_int_of_byte.
Qed.

Lemma slot_holds_range m address n :
  slot_holds m address (mem_read_range m address n).
Proof. unfold slot_holds. now rewrite length_mem_read_range. Qed.

Lemma slot_holds_cat m address d1 d2 :
  slot_holds m address d1 -> slot_holds m (address + len d1) d2 ->
  slot_holds m address (d1 ++ d2).
Proof.
  unfold slot_holds. intros H1 H2.
  rewrite length_app, mem_read_range_app. unfold len in H2.
  now rewrite H1, H2.
Qed.

Lemma slot_holds_byte m address :
  slot_holds m address [mem_read m address].
Proof. unfold slot_holds. apply mem_read_range_1. Qed.

Lemma int_of_byte_nonneg (b : byte) : 0 <= int_of_byte b.
Proof. pose proof (int_of_byte_range b). lia. Qed.

Lemma from_bytes_big_nonneg (bs : bytes) : 0 <= from_bytes_big bs.
Proof. pose proof (from_bytes_big_bound bs). lia. Qed.

Lemma slot_holds_next m address address' d1 d2 :
  slot_holds m address d1 -> address' = address + len d1 ->
  slot_holds m address' d2 -> slot_holds m address (d1 ++ d2).
Proof. intros H1 -> H2. now apply slot_holds_cat. Qed.

Lemma len_mem_read_range m address (n : Z) :
  0 <= n -> len (mem_read_range m address (Z.to_nat n)) = n.
Proof. intros H. unfold len. rewrite length_mem_read_range. lia. Qed.

Lemma str_encode_decoded (bs : bytes) :
  str_encode (string_of_list_byte bs) = bs.
Proof. apply list_byte_of_string_of_list_byte. Qed.

(** Follows a run down every path and keeps what was learnt on the way. *)
Ltac wp_trace :=
  repeat first
    [ lazymatch goal with
      | |- wp (lift (bytes_getitem (mem_read_range _ _ _) _)) _ _ =>
        apply wp_getitem_first; cbv beta iota
      | |- wp (read_string_from_eeprom _ _) _ _ =>
        apply wp_read_string;
        [ first [apply int_of_byte_nonneg | apply from_bytes_big_nonneg]
        | intros ? ? | intros ? ? | intros ? ]; cbv beta iota
      | |- wp (if ?b then _ else _) _ _ => destruct b eqn:?
      end
    | wp_step ].

Lemma load_event_sound (address : Z) (w : world) :
  wp (load_event_from_eeprom address)
     (fun r _ =>
        forall e, r = Ok (Some e) ->
                  loadable e /\ slot_holds (eeprom w) address (encode e)) w.
Proof.
  unfold load_event_from_eeprom. wp_trace;
    try (intros e0 He0; discriminate He0).
  intros e He. injection He as <-.
  cbn [eeprom printed transferred] in *.
  change (Pos.to_nat 4) with (Z.to_nat 4) in *.
  change (Pos.to_nat 2) with (Z.to_nat 2) in *.
  repeat match goal with H : next_fault _ = _ |- _ => clear H end.
  set (m := eeprom w) in *.
  set (n := int_of_byte (mem_read m address)) in *.
  set (bn := mem_read_range m (address + 1) (Z.to_nat n)) in *.
  set (a1 := address + 1 + n) in *.
  set (s4 := mem_read_range m a1 (Z.to_nat 4)) in *.
  set (e4 := mem_read_range m (a1 + 4) (Z.to_nat 4)) in *.
  set (a2 := a1 + 4 + 4) in *.
  set (ns := int_of_byte (mem_read m a2)) in *.
  set (bs := mem_read_range m (a2 + 1) (Z.to_nat ns)) in *.
  set (a3 := a2 + 1 + ns) in *.
  set (d2 := mem_read_range m a3 (Z.to_nat 2)) in *.
  set (nd := from_bytes_big d2) in *.
  set (bd := mem_read_range m (a3 + 2) (Z.to_nat nd)) in *.
  assert (Hn0 : 0 <= n) by apply int_of_byte_nonneg.
  assert (Hns0 : 0 <= ns) by apply int_of_byte_nonneg.
  assert (Hnd0 : 0 <= nd) by apply from_bytes_big_nonneg.
  assert (Lbn : len bn = n) by (apply len_mem_read_range; lia).
  assert (Lbs : len bs = ns) by (apply len_mem_read_range; lia).
  assert (Lbd : len bd = nd) by (apply len_mem_read_range; lia).
  assert (Ls4 : len s4 = 4) by (apply len_mem_read_range; lia).
  assert (Le4 : len e4 = 4) by (apply len_mem_read_range; lia).
  assert (Ld2 : len d2 = 2) by (apply len_mem_read_range; lia).
  repeat match goal with
         | H : (_ || _) = false |- _ =>
           apply orb_false_elim in H; destruct H
         | H : (_ =? _) = false |- _ => apply Z.eqb_neq in H
         | H : (_ >? _) = false |- _ =>
           rewrite Z.gtb_ltb in H; apply Z.ltb_ge in H
         end.
  assert (Hs4 : in_u32 (from_bytes_big s4) = true).
  { apply in_u32_true. pose proof (from_bytes_big_bound s4) as Hb.
    rewrite Ls4 in Hb. change (256 ^ 4) with (2 ^ 32) in Hb. exact Hb. }
  assert (He4 : in_u32 (from_bytes_big e4) = true).
  { apply in_u32_true. pose proof (from_bytes_big_bound e4) as Hb.
    rewrite Le4 in Hb. change (256 ^ 4) with (2 ^ 32) in Hb. exact Hb. }
  assert (Bn : byte_of_Z n = mem_read m address)
    by apply byte_of_Z_int_of_byte.
  assert (Bs : byte_of_Z ns = mem_read m a2)
    by apply byte_of_Z_int_of_byte.
  assert (Ds4 : rev (le_digits 4 (from_bytes_big s4)) = s4).
  { rewrite <- (digits_of_from_bytes_big s4) at 2. unfold s4.
    now rewrite length_mem_read_range. }
  assert (De4 : rev (le_digits 4 (from_bytes_big e4)) = e4).
  { rewrite <- (digits_of_from_bytes_big e4) at 2. unfold e4.
    now rewrite length_mem_read_range. }
  assert (Dd2 : rev (le_digits 2 nd) = d2).
  { unfold nd. rewrite <- (digits_of_from_bytes_big d2) at 2. unfold d2.
    now rewrite length_mem_read_range. }
  pose proof (slot_holds_byte m address) as S0.
  pose proof (slot_holds_range m (address + 1) (Z.to_nat n)) as S1.
  pose proof (slot_holds_range m a1 (Z.to_nat 4)) as S2.
  pose proof (slot_holds_range m (a1 + 4) (Z.to_nat 4)) as S3.
  pose proof (slot_holds_byte m a2) as S4.
  pose proof (slot_holds_range m (a2 + 1) (Z.to_nat ns)) as S5.
  pose proof (slot_holds_range m a3 (Z.to_nat 2)) as S6.
  pose proof (slot_holds_range m (a3 + 2) (Z.to_nat nd)) as S7.
  fold bn in S1. fold s4 in S2. fold e4 in S3. fold bs in S5.
  fold d2 in S6. fold bd in S7.
  assert (Ea1 : a1 = address + 1 + n) by reflexivity.
  assert (Ea2 : a2 = a1 + 4 + 4) by reflexivity.
  assert (Ea3 : a3 = a2 + 1 + ns) by reflexivity.
  clearbody bd nd d2 a3 bs ns a2 e4 s4 a1 bn n.
  unfold loadable, storable, decodable_text, name_len, speaker_len,
    description_len, encode.
  cbn [event_name start_time end_time speaker_name description].
  rewrite !str_encode_decoded, Lbn, Lbs, Lbd, Bn, Bs, Ds4, De4, Dd2.
  conjs; try assumption; try lia.
  apply (slot_holds_next m address (address + 1));
    [exact S0 | reflexivity |].
  apply (slot_holds_next m (address + 1) a1); [exact S1 | lia |].
  apply (slot_holds_next m a1 (a1 + 4)); [exact S2 | lia |].
  apply (slot_holds_next m (a1 + 4) a2); [exact S3 | lia |].
  apply (slot_holds_next m a2 (a2 + 1)); [exact S4 | reflexivity |].
  apply (slot_holds_next m (a2 + 1) a3); [exact S5 | lia |].
  apply (slot_holds_next m a3 (a3 + 2)); [exact S6 | lia |].
  exact S7.
Qed.

(** X15. Whatever [load_event_from_eeprom] returns as an event is on the
    device: if the load gives [e], on any bus, the slot begins with the
    record of [e], every text of [e] has between one byte and its bound
    (50, 50, 138) and is a byte string that the decoder accepts, and both
    times are unsigned 32-bit. Nothing more is known of the texts: the
    decoder accepts byte strings that are not well-formed UTF-8. *)
Theorem load_sound (address : Z) (w : world) (e : Event) :
  fst (load_event_from_eeprom address w) = Ok (Some e) ->
  loadable e /\ slot_holds (eeprom w) address (encode e).
Proof.
  intros H.
  pose proof (load_event_sound address w) as Hs. unfold wp in Hs.
  destruct (Hs e H) as [Hv Hm].
  split; [exact Hv | exact Hm].
Qed.

Lemma load_sound_witness :
  loadable ceremony
  /\ slot_holds (eeprom listing_world) (slot_address 0) (encode ceremony).
Proof.
  apply (load_sound (slot_address 0) listing_world ceremony).
  reflexivity.
Defined.

Lemma len_encode_storable (e : Event) :
  storable e -> 12 <= len (encode e) <= 250.
Proof.
  intros ([_ Hn] & [_ Hs] & [_ Hd] & _). rewrite len_encode.
  unfold name_len, speaker_len, description_len.
  pose proof (len_nonneg (str_encode (event_name e))).
  pose proof (len_nonneg (str_encode (speaker_name e))).
  pose proof (len_nonneg (str_encode (description e))). lia.
Qed.

Lemma loadable_no_empty_field (e : Event) :
  loadable e -> has_empty_field e = false.
Proof.
  intros (_ & Hn & Hs & Hd). unfold has_empty_field.
  destruct (name_len e =? 0) eqn:E1; [apply Z.eqb_eq in E1; lia|].
  destruct (speaker_len e =? 0) eqn:E2; [apply Z.eqb_eq in E2; lia|].
  destruct (description_len e =? 0) eqn:E3; [apply Z.eqb_eq in E3; lia|].
  reflexivity.
Qed.

Lemma encode_prefix_in_slot (e : Event) (t : bytes) :
  loadable e ->
  slot_holds (mem_write erased 0 (firstn 250 (encode e ++ t))) 0 (encode e).
Proof.
  intros [He _]. pose proof (len_encode_storable e He) as Hb.
  assert (Hl : (List.length (encode e) <= 250)%nat) by (unfold len in Hb; lia).
  rewrite firstn_app, (firstn_all2 (encode e)) by exact Hl.
  set (tail := firstn (250 - List.length (encode e)) t).
  assert (Ht : (List.length tail <= 250 - List.length (encode e))%nat).
  { unfold tail. rewrite length_firstn. lia. }
  refine (proj1 (slot_holds_app _ 0 (encode e) tail _)).
  apply slot_holds_write. unfold EEPROM_SIZE, len. rewrite length_app. lia.
Qed.

(** No record of a loadable event is the beginning of another one's. *)
Lemma encode_prefix_free (e1 e2 : Event) (t1 t2 : bytes) :
  loadable e1 -> loadable e2 ->
  encode e1 ++ t1 = encode e2 ++ t2 -> e1 = e2.
Proof.
  intros H1 H2 Heq.
  set (w := World (mem_write erased 0 (firstn 250 (encode e1 ++ t1)))
                  [] [] [] []).
  pose proof (load_storable e1 0 w (proj1 H1)
                (encode_prefix_in_slot e1 t1 H1) (quiet_for_nil 8)) as L1.
  assert (M2 : slot_holds (eeprom w) 0 (encode e2)).
  { unfold w. cbn [eeprom]. rewrite Heq. apply encode_prefix_in_slot, H2. }
  pose proof (load_storable e2 0 w (proj1 H2) M2 (quiet_for_nil 8)) as L2.
  rewrite (loadable_no_empty_field e1 H1) in L1.
  rewrite (loadable_no_empty_field e2 H2) in L2.
  congruence.
Qed.

(** X16. The record layout is self-delimiting on the events of the data
    model: if the records of two such events are each followed by any
    bytes and the two byte strings are equal, the events are equal. In
    particular [encode] is injective, and what lies behind a record never
    changes how it is read. *)
Theorem encode_self_delimiting (e1 e2 : Event) (t1 t2 : bytes) :
  valid_event e1 -> valid_event e2 ->
  encode e1 ++ t1 = encode e2 ++ t2 -> e1 = e2.
Proof.
  intros H1 H2 Heq.
  pose proof (encode_prefix_free e1 e2 t1 t2 (valid_event_loadable e1 H1)
                (valid_event_loadable e2 H2) Heq) as H.
  rewrite H. reflexivity.
Qed.

Lemma encode_self_delimiting_witness : ceremony = ceremony.
Proof.
  apply (encode_self_delimiting ceremony ceremony [x00] [x00]).
  - exact valid_event_ceremony.
  - exact valid_event_ceremony.
  - reflexivity.
Defined.

(** ** The wipe on a bus that fails *)

Lemma write_attempts_app (l1 l2 : list bus_op) :
  write_attempts (l1 ++ l2) = write_attempts l1 ++ write_attempts l2.
Proof. unfold write_attempts. apply flat_map_app. Qed.

(** A buffer of at most one page, on a bus that refuses the transfer. *)
Lemma write_single_page_failed (address : Z) (chunk : bytes) (w : world) :
  chunk <> [] ->
  (List.length chunk <= Z.to_nat PAGE_SIZE)%nat ->
  next_fault w = true ->
  write_bytes_to_eeprom address chunk w
  = (Ok tt,
     printed (Line "Bytes written to EEPROM successfully." [])
       (printed write_failed_line
          (transferred (WriteMem address chunk false) w))).
Proof.
  intros Hne Hlen Hq. unfold write_bytes_to_eeprom.
  destruct chunk as [|b c]; [congruence|].
  change (List.length (b :: c)) with (S (List.length c)).
  cbn [write_loop].
  rewrite (firstn_all2 (b :: c) Hlen).
  unfold bind, attempt, i2c_writeto_mem. rewrite Hq. reflexivity.
Qed.

Lemma wipe_strokes_any (addrs : list Z) :
  Forall (fun addr => EEPROM_SIZE - addr >= PAGE_SIZE) addrs ->
  forall w, wp (wipe_strokes addrs) (strokes_post addrs w) w.
Proof.
  induction 1 as [|addr rest Ha Hrest IH]; intros w.
  - apply wp_ret. unfold strokes_post.
    split; [reflexivity|]. split; [reflexivity|]. split; [reflexivity|].
    split; exists []; now rewrite app_nil_r.
  - cbn [wipe_strokes].
    replace (EEPROM_SIZE - addr >=? PAGE_SIZE) with true
      by (symmetry; rewrite Z.geb_leb; apply Z.leb_le; lia).
    fold blank_page.
    apply wp_bind, wp_attempt, wp_bind.
    destruct (next_fault w) eqn:Hq.
    + eapply wp_run;
        [apply write_single_page_failed;
         [discriminate | reflexivity | exact Hq]|].
      cbv beta iota. wp_steps. eapply wp_mono; [apply IH|]. cbv beta.
      intros r w' (Hr & Hfs & Hin & (t & Hlog & Ht) & (out & Hout & Hno)).
      cbn [faults stdin bus_log stdout printed transferred] in *.
      unfold strokes_post. conjs.
      * exact Hr.
      * rewrite Hfs. apply skipn_tl.
      * exact Hin.
      * eexists. rewrite Hlog, <- app_assoc. split; [reflexivity|].
        rewrite write_attempts_app, Ht. reflexivity.
      * eexists. rewrite Hout, <- !app_assoc. split; [reflexivity|].
        rewrite !existsb_app, Hno. reflexivity.
    + eapply wp_run;
        [apply write_single_page;
         [discriminate | reflexivity | exact Hq]|].
      cbv beta iota. wp_steps. eapply wp_mono; [apply IH|]. cbv beta.
      intros r w' (Hr & Hfs & Hin & (t & Hlog & Ht) & (out & Hout & Hno)).
      cbn [faults stdin bus_log stdout printed transferred logged] in *.
      unfold strokes_post. conjs.
      * exact Hr.
      * rewrite Hfs. apply skipn_tl.
      * exact Hin.
      * eexists. rewrite Hlog, <- !app_assoc. split; [reflexivity|].
        rewrite !write_attempts_app, Ht. reflexivity.
      * eexists. rewrite Hout, <- !app_assoc. split; [reflexivity|].
        rewrite !existsb_app, Hno. reflexivity.
Qed.

(** The read-back loop only reads and only adds to the console. *)
Lemma verify_wiped_frame (addrs : list Z) :
  forall all_wiped w,
    wp (verify_wiped addrs all_wiped)
       (fun _ w' =>
          (exists t, bus_log w' = bus_log w ++ t /\ write_attempts t = [])
          /\ (exists out, stdout w' = stdout w ++ out
                          /\ existsb is_wipe_failure out = false)) w.
Proof.
  induction addrs as [|v_addr rest IH]; intros all_wiped w.
  - split; exists []; now rewrite app_nil_r.
  - cbn [verify_wiped]. apply wp_bind, wp_read_bytes; intros _;
      cbv beta iota.
    + destruct (bytes_eqb _ _).
      * eapply wp_mono; [apply IH|]. cbv beta.
        intros _ w' [(t & Hlog & Ht) (out & Hout & Hno)].
        cbn [bus_log stdout transferred] in *. split.
        -- eexists. rewrite Hlog, <- app_assoc. split; [reflexivity|].
           rewrite write_attempts_app, Ht. reflexivity.
        -- exists out. auto.
      * apply wp_bind, wp_print. cbv beta iota.
        eapply wp_mono; [apply IH|]. cbv beta.
        intros _ w' [(t & Hlog & Ht) (out & Hout & Hno)].
        cbn [bus_log stdout transferred printed] in *. split.
        -- eexists. rewrite Hlog, <- app_assoc. split; [reflexivity|].
           rewrite write_attempts_app, Ht. reflexivity.
        -- eexists. rewrite Hout, <- app_assoc. split; [reflexivity|].
           rewrite existsb_app, Hno. reflexivity.
    + apply wp_raise. cbn [bus_log stdout transferred printed]. split.
      * eexists. split; reflexivity.
      * eexists. split; reflexivity.
Qed.

(** X17. A confirmed wipe never stops at a failed stroke: whatever the
    bus does, it attempts the 128 page writes at 0, 32, ..., 4064 in this
    order and no other write, prints "EEPROM wiped successfully.", and
    never prints the report of a failed stroke, because the writer has
    already swallowed the error. *)
Theorem wipe_ignores_failed_strokes
  (w : world) (reply : string) (rest : list string) :
  stdin w = reply :: rest ->
  confirms reply = true ->
  (exists t, bus_log (snd (wipe_eeprom w)) = bus_log w ++ t
             /\ write_attempts t = wipe_addresses)
  /\ (exists out, stdout (snd (wipe_eeprom w)) = stdout w ++ out
                  /\ In wipe_done_line out
                  /\ existsb is_wipe_failure out = false).
Proof.
  intros Hin Hc.
  assert (H : wp wipe_eeprom
                (fun _ w' =>
                   (exists t, bus_log w' = bus_log w ++ t
                              /\ write_attempts t = wipe_addresses)
                   /\ (exists out, stdout w' = stdout w ++ out
                                   /\ In wipe_done_line out
                                   /\ existsb is_wipe_failure out = false))
                w).
  { unfold wipe_eeprom. wp_step. wp_step.
    apply wp_bind. eapply wp_input; [exact Hin|]. cbv beta iota zeta.
    fold (confirms reply). rewrite Hc. cbn [negb].
    wp_step. wp_step. apply wp_bind.
    eapply wp_mono; [apply (wipe_strokes_any _ wipe_addresses_room)|].
    cbv beta.
    intros r w1 (-> & _ & _ & (t & Hlog & Ht) & (out & Hout & Hno)).
    cbn [negb bus_log stdout printed] in *.
    wp_step. wp_step. apply wp_bind.
    eapply wp_mono; [apply verify_wiped_frame|]. cbv beta.
    intros r w2 [(t2 & Hlog2 & Ht2) (out2 & Hout2 & Hno2)].
    cbn [bus_log stdout printed] in *.
    assert (Hend : forall tail,
               existsb is_wipe_failure tail = false ->
               (exists t0, bus_log w2 = bus_log w ++ t0
                           /\ write_attempts t0 = wipe_addresses)
               /\ (exists out0,
                      stdout w2 ++ tail = stdout w ++ out0
                      /\ In wipe_done_line out0
                      /\ existsb is_wipe_failure out0 = false)).
    { intros tail Htail. split.
      - exists (t ++ t2). rewrite Hlog2, Hlog, <- app_assoc.
        split; [reflexivity|].
        rewrite write_attempts_app, Ht, Ht2. apply app_nil_r.
      - eexists. rewrite Hout2, Hout, <- !app_assoc.
        split; [reflexivity|]. split.
        + cbn [app In]. do 3 right. apply in_or_app. right. left.
          reflexivity.
        + cbn [app]. repeat (rewrite existsb_app || cbn [existsb]).
          rewrite Hno, Hno2, Htail. reflexivity. }
    destruct r as [[|]|e]; wp_steps; cbn [bus_log stdout printed].
    - apply Hend. reflexivity.
    - apply Hend. reflexivity.
    - rewrite <- (app_nil_r (stdout w2)). apply Hend. reflexivity. }
  exact H.
Qed.

Lemma wipe_ignores_failed_strokes_witness :
  let w := World (eeprom used_world) (repeat true 128) [] [] ["y"%string] in
  (exists t, bus_log (snd (wipe_eeprom w)) = bus_log w ++ t
             /\ write_attempts t = wipe_addresses)
  /\ (exists out, stdout (snd (wipe_eeprom w)) = stdout w ++ out
                  /\ In wipe_done_line out
                  /\ existsb is_wipe_failure out = false).
Proof.
  apply (wipe_ignores_failed_strokes
           (World (eeprom used_world) (repeat true 128) [] [] ["y"%string])
           "y" []).
  - reflexivity.
  - reflexivity.
Defined.

(** The read-back when every checked cell reads 0xFF, on a quiet bus. *)
Lemma verify_wiped_passes (addrs : list Z) :
  forall all_wiped w,
    Forall (fun a => mem_read (eeprom w) a = xff) addrs ->
    quiet_for (List.length addrs) (faults w) ->
    verify_wiped addrs all_wiped w
    = (Ok all_wiped,
       World (eeprom w) (skipn (List.length addrs) (faults w))
             (bus_log w ++ map (fun a => ReadMem a 1 true) addrs)
             (stdout w) (stdin w)).
Proof.
  induction addrs as [|v_addr rest IH]; intros all_wiped w Hm Hq.
  - cbn. rewrite app_nil_r. destruct w; reflexivity.
  - destruct Hq as [Hq0 Hq]. inversion Hm as [|? ? Hm0 Hmr]; subst.
    cbn [verify_wiped].
    unfold bind at 1, read_bytes_from_eeprom, bind, attempt,
      i2c_readfrom_mem, next_fault.
    rewrite Hq0. cbn [ret fst snd].
    change (Z.to_nat 1) with 1%nat. rewrite mem_read_range_1, Hm0.
    change (bytes_eqb [xff] [xff]) with true. cbv iota.
    rewrite IH; [|exact Hmr|exact Hq].
    cbn [eeprom faults bus_log stdout stdin transferred map List.length].
    rewrite skipn_tl, <- app_assoc. reflexivity.
Qed.

Lemma nth_tl {A : Type} (k : nat) (l : list A) (d : A) :
  nth k (tl l) d = nth (S k) l d.
Proof. destruct l; [destruct k|]; reflexivity. Qed.

Lemma nth_0_hd {A : Type} (l : list A) (d : A) : nth 0 l d = hd d l.
Proof. destruct l; reflexivity. Qed.

(** The first failed read of the read-back ends it with
    [AttributeError]. *)
Lemma verify_wiped_crash (addrs : list Z) :
  forall k all_wiped w,
    (k < List.length addrs)%nat ->
    quiet_for k (faults w) ->
    nth k (faults w) false = true ->
    wp (verify_wiped addrs all_wiped)
       (fun r _ => r = Raise AttributeError) w.
Proof.
  induction addrs as [|v_addr rest IH]; intros k all_wiped w Hk Hq Hf.
  - simpl in Hk. lia.
  - cbn [verify_wiped]. apply wp_bind, wp_read_bytes; intros Hn;
      cbv beta iota; unfold next_fault in Hn.
    + destruct k as [|k].
      { rewrite nth_0_hd in Hf. congruence. }
      destruct Hq as [_ Hq]. rewrite <- nth_tl in Hf.
      simpl in Hk. apply Nat.succ_lt_mono in Hk.
      destruct (bytes_eqb _ _).
      * apply (IH k); assumption.
      * apply wp_bind, wp_print. cbv beta iota. apply (IH k); assumption.
    + apply wp_raise. reflexivity.
Qed.

Lemma wiped_blank (m : Z -> byte) (a : Z) :
  mem_read (fold_left (fun m addr => mem_write m addr (stroke addr))
                      wipe_addresses m) a = xff.
Proof.
  unfold mem_read.
  rewrite (strokes_memory _ wipe_addresses_room), wipe_addresses_cover.
  reflexivity.
Qed.

(** X18. The whole of a wipe that is confirmed on a bus quiet for its 145
    transfers: it returns normally; the bus carries the 128 strokes and
    then the 17 one-byte reads of the check, nothing else; the console
    shows the warning, the question, the announcement, two lines per
    stroke, then the two success lines; and the reply is used up. *)
Theorem wipe_quiet_transcript
  (w : world) (reply : string) (rest : list string) :
  stdin w = reply :: rest ->
  confirms reply = true ->
  quiet_for 145 (faults w) ->
  fst (wipe_eeprom w) = Ok tt
  /\ bus_log (snd (wipe_eeprom w))
     = bus_log w ++ flat_map stroke_ops wipe_addresses ++ verification_reads
  /\ stdout (snd (wipe_eeprom w)) = stdout w ++ wipe_transcript
  /\ stdin (snd (wipe_eeprom w)) = rest.
Proof.
  intros Hin Hc Hq.
  assert (H : wp wipe_eeprom
                (fun r w' =>
                   r = Ok tt
                   /\ bus_log w'
                      = bus_log w ++ flat_map stroke_ops wipe_addresses
                          ++ verification_reads
                   /\ stdout w' = stdout w ++ wipe_transcript
                   /\ stdin w' = rest) w).
  { unfold wipe_eeprom. wp_step. wp_step.
    apply wp_bind. eapply wp_input; [exact Hin|]. cbv beta iota zeta.
    fold (confirms reply). rewrite Hc. cbn [negb].
    wp_step. wp_step. apply wp_bind.
    eapply wp_run.
    { apply wipe_strokes_quiet; [apply wipe_addresses_room|].
      apply (quiet_for_le 145); [|exact Hq].
      apply Nat.leb_le. reflexivity. }
    cbn [negb]. wp_step. wp_step. apply wp_bind.
    eapply wp_run.
    { apply verify_wiped_passes.
      - apply Forall_forall. intros a _. apply wiped_blank.
      - cbn [faults printed].
        change (List.length wipe_addresses) with 128%nat.
        change (List.length verification_addresses) with 17%nat.
        apply quiet_for_skipn. exact Hq. }
    cbv beta iota. apply wp_print.
    cbn [bus_log stdout stdin faults eeprom printed].
    unfold wipe_transcript, verification_reads, wipe_done_line.
    rewrite <- !app_assoc. auto. }
  exact H.
Qed.

Lemma wipe_quiet_transcript_witness :
  fst (wipe_eeprom used_world) = Ok tt
  /\ bus_log (snd (wipe_eeprom used_world))
     = bus_log used_world ++ flat_map stroke_ops wipe_addresses
         ++ verification_reads
  /\ stdout (snd (wipe_eeprom used_world))
     = stdout used_world ++ wipe_transcript
  /\ stdin (snd (wipe_eeprom used_world)) = [].
Proof.
  apply (wipe_quiet_transcript used_world "  YES " []).
  - reflexivity.
  - reflexivity.
  - apply quiet_for_nil.
Defined.

(** X19. A failed read during the check of a confirmed wipe is not
    handled: whatever happened to the strokes, if the [k]-th of the 17
    reads is the first to fail, [wipe_eeprom] ends with [AttributeError],
    raised by [data.hex()] on the [None] that the failed read gave. *)
Theorem wipe_check_crashes_on_failed_read
  (w : world) (reply : string) (rest : list string) (k : nat) :
  stdin w = reply :: rest ->
  confirms reply = true ->
  (k < 17)%nat ->
  quiet_for k (skipn 128 (faults w)) ->
  nth k (skipn 128 (faults w)) false = true ->
  fst (wipe_eeprom w) = Raise AttributeError.
Proof.
  intros Hin Hc Hk Hq Hf.
  assert (H : wp wipe_eeprom (fun r _ => r = Raise AttributeError) w).
  { unfold wipe_eeprom. wp_step. wp_step.
    apply wp_bind. eapply wp_input; [exact Hin|]. cbv beta iota zeta.
    fold (confirms reply). rewrite Hc. cbn [negb].
    wp_step. wp_step. apply wp_bind.
    eapply wp_mono; [apply (wipe_strokes_any _ wipe_addresses_room)|].
    cbv beta. intros r w1 (-> & Hfs & _).
    cbn [negb faults printed] in *.
    change (List.length wipe_addresses) with 128%nat in Hfs.
    wp_step. wp_step. apply wp_bind.
    eapply wp_mono.
    - apply (verify_wiped_crash verification_addresses k).
      + exact Hk.
      + cbn [faults printed]. rewrite Hfs. exact Hq.
      + cbn [faults printed]. rewrite Hfs. exact Hf.
    - cbv beta. intros r w2 ->. reflexivity. }
  exact H.
Qed.

Lemma wipe_check_crashes_on_failed_read_witness :
  fst (wipe_eeprom
         (World erased (repeat false 130 ++ [true]) [] [] ["yes"%string]))
  = Raise AttributeError.
Proof.
  apply (wipe_check_crashes_on_failed_read
           (World erased (repeat false 130 ++ [true]) [] [] ["yes"%string])
           "yes" [] 2).
  - reflexivity.
  - reflexivity.
  - lia.
  - cbn. auto.
  - reflexivity.
Defined.

(** The device after the strokes, on any bus: 0xFF under the strokes that
    were acknowledged, the old bytes elsewhere. *)
Lemma wipe_strokes_memory (addrs : list Z) :
  Forall (fun addr => EEPROM_SIZE - addr >= PAGE_SIZE) addrs ->
  forall w,
    wp (wipe_strokes addrs)
       (fun _ w' =>
          forall x,
            eeprom w' x
            = if covered (acked_strokes addrs (faults w)) x
              then xff else eeprom w x) w.
Proof.
  induction 1 as [|addr rest Ha Hrest IH]; intros w.
  - apply wp_ret. reflexivity.
  - cbn [wipe_strokes acked_strokes].
    replace (EEPROM_SIZE - addr >=? PAGE_SIZE) with true
      by (symmetry; rewrite Z.geb_leb; apply Z.leb_le; lia).
    fold blank_page.
    apply wp_bind, wp_attempt, wp_bind.
    destruct (next_fault w) eqn:Hq; unfold next_fault in Hq; rewrite Hq.
    + eapply wp_run;
        [apply write_single_page_failed;
         [discriminate | reflexivity | exact Hq]|].
      cbv beta iota. wp_steps. eapply wp_mono; [apply IH|]. cbv beta.
      intros r w' Hmem x. rewrite Hmem. reflexivity.
    + eapply wp_run;
        [apply write_single_page;
         [discriminate | reflexivity | exact Hq]|].
      cbv beta iota. wp_steps. eapply wp_mono; [apply IH|]. cbv beta.
      intros r w' Hmem x. rewrite Hmem.
      cbn [eeprom faults printed logged covered existsb].
      fold (covered (acked_strokes rest (tl (faults w))) x).
      destruct (covered _ x); [now rewrite orb_true_r|].
      rewrite orb_false_r. unfold mem_write.
      change (len blank_page) with PAGE_SIZE.
      destruct (_ <? PAGE_SIZE) eqn:E; [|reflexivity].
      apply Z.ltb_lt in E. unfold blank_page. apply nth_repeat_lt.
      pose proof (Z.mod_pos_bound (x - addr) EEPROM_SIZE eq_refl).
      unfold PAGE_SIZE in *. lia.
Qed.

Lemma covered_mod (addrs : list Z) (a : Z) :
  covered addrs (a mod EEPROM_SIZE) = covered addrs a.
Proof.
  unfold covered. induction addrs as [|addr rest IH]; [reflexivity|].
  cbn [existsb]. rewrite IH, Zminus_mod_idemp_l. reflexivity.
Qed.

(** X20. The check of a wipe looks at 17 cells only. A confirmed wipe
    whose 17 reads go through reports success as soon as these cells read
    0xFF, whatever became of the strokes: afterwards a cell holds 0xFF if a
    stroke that was acknowledged covers it, and its old byte otherwise. *)
Theorem wipe_check_is_sampled
  (w : world) (reply : string) (rest : list string) :
  stdin w = reply :: rest ->
  confirms reply = true ->
  quiet_for 17 (skipn 128 (faults w)) ->
  Forall (reads_blank (eeprom w) (faults w)) verification_addresses ->
  fst (wipe_eeprom w) = Ok tt
  /\ last (stdout (snd (wipe_eeprom w))) (Line EmptyString []) = check_passed_line
  /\ forall x,
      eeprom (snd (wipe_eeprom w)) x
      = if covered (acked_strokes wipe_addresses (faults w)) x
        then xff else eeprom w x.
Proof.
  intros Hin Hc Hq Hs.
  assert (H : wp wipe_eeprom
                (fun r w' =>
                   r = Ok tt
                   /\ last (stdout w') (Line EmptyString []) = check_passed_line
                   /\ forall x,
                       eeprom w' x
                       = if covered (acked_strokes wipe_addresses (faults w)) x
                         then xff else eeprom w x) w).
  { unfold wipe_eeprom. wp_step. wp_step.
    apply wp_bind. eapply wp_input; [exact Hin|]. cbv beta iota zeta.
    fold (confirms reply). rewrite Hc. cbn [negb].
    wp_step. wp_step. apply wp_bind.
    eapply wp_mono.
    { apply wp_conj.
      - apply (wipe_strokes_any _ wipe_addresses_room).
      - apply (wipe_strokes_memory _ wipe_addresses_room). }
    cbv beta. intros r w1 [(-> & Hfs & _) Hmem].
    cbn [negb faults eeprom printed] in *.
    change (List.length wipe_addresses) with 128%nat in Hfs.
    wp_step. wp_step. apply wp_bind.
    eapply wp_run.
    { apply verify_wiped_passes.
      - cbn [eeprom printed]. eapply Forall_impl; [|exact Hs].
        intros a [Hcov | Hold]; unfold mem_read; rewrite Hmem.
        + rewrite covered_mod, Hcov. reflexivity.
        + unfold mem_read in Hold. rewrite Hold.
          destruct (covered _ _); reflexivity.
      - cbn [faults printed]. rewrite Hfs. exact Hq. }
    cbv beta iota. apply wp_print.
    cbn [stdout eeprom printed].
    split; [reflexivity|]. split; [apply last_last|]. exact Hmem. }
  exact H.
Qed.

Lemma wipe_check_is_sampled_witness :
  mem_read (eeprom half_wiped_world) 32 = "!"%byte
  /\ fst (wipe_eeprom half_wiped_world) = Ok tt
  /\ last (stdout (snd (wipe_eeprom half_wiped_world))) (Line EmptyString [])
     = check_passed_line
  /\ forall x,
      eeprom (snd (wipe_eeprom half_wiped_world)) x
      = if covered (acked_strokes wipe_addresses (faults half_wiped_world)) x
        then xff else eeprom half_wiped_world x.
Proof.
  split; [reflexivity|].
  apply (wipe_check_is_sampled half_wiped_world "yes" []).
  - reflexivity.
  - reflexivity.
  - apply quiet_for_nil.
  - repeat constructor.
Defined.

(** ** The listing and the device *)

Lemma skipn_length_app {A : Type} (l1 l2 : list A) :
  skipn (List.length l1) (l1 ++ l2) = l2.
Proof. induction l1; [reflexivity | assumption]. Qed.

(** The console listing is what the enumeration returns. *)
Lemma listing_listSlots (start_address max_events : Z) (w : world) :
  fst (listSlots start_address max_events w)
  = Ok (listing start_address max_events w).
Proof.
  unfold listing. rewrite list_all_events_unfold, py_range_unit.
  set (header := Line "\nListing All Events:" []).
  assert (Hsame : same_device (printed header w) w) by (repeat split).
  destruct (listing_refines start_address (Z.to_nat max_events) 0 _ _ Hsame)
    as (out & l & _ & Hl & _ & Hout & Hem & _).
  change ((print "\nListing All Events:" [] ;;
           for_in (map Z.of_nat (seq 0 (Z.to_nat max_events)))
                  (slot_report start_address 250)) w)
    with (for_in (map Z.of_nat (seq 0 (Z.to_nat max_events)))
                 (slot_report start_address 250) (printed header w)).
  rewrite Hout. cbn [stdout printed]. rewrite <- app_assoc.
  rewrite skipn_length_app. cbn [app].
  change (emitted (header :: out)) with (emitted out).
  rewrite Hem. exact Hl.
Qed.

Lemma listSlots_from_total (start_address : Z) (n : nat) (i : Z) :
  forall w, exists l, fst (listSlots_from start_address n i w) = Ok l.
Proof.
  revert i. induction n as [|n IH]; intros i w.
  - exists []. reflexivity.
  - destruct (load_event_spec (start_address + i * 250) w)
      as ((r & Hr) & _).
    destruct (IH (i + 1)
                 (snd (load_event_from_eeprom (start_address + i * 250) w)))
      as (l & Hl).
    eexists. apply (listSlots_from_step _ _ _ _ r l Hr Hl).
Qed.

Lemma load_stored (start_address i : Z) (e : Event) (w : world) :
  faults w = [] -> stores (eeprom w) start_address i e ->
  fst (load_event_from_eeprom (start_address + i * 250) w) = Ok (Some e).
Proof.
  intros Hf [Hv Hm].
  rewrite (load_storable e _ w (proj1 Hv) Hm)
    by (rewrite Hf; apply quiet_for_nil).
  now rewrite (loadable_no_empty_field e Hv).
Qed.

(** On a quiet bus the enumeration returns the stored events of its
    slots, and nothing else. *)
Lemma listSlots_from_exact (start_address : Z) (n : nat) :
  forall (s : Z) (w : world) (l : list (Z * Event)),
    faults w = [] ->
    fst (listSlots_from start_address n s w) = Ok l ->
    forall i e,
      In (i, e) l
      <-> (s <= i < s + Z.of_nat n /\ stores (eeprom w) start_address i e).
Proof.
  induction n as [|n IH]; intros s w l Hf Hl i e.
  - cbn in Hl. injection Hl as <-. cbn. split; [tauto | lia].
  - destruct (load_event_spec (start_address + s * 250) w)
      as ((r & Hr) & _ & Hm & _ & Hf1).
    pose proof (load_event_sound (start_address + s * 250) w) as Hsound.
    unfold wp in Hsound.
    set (w1 := snd (load_event_from_eeprom (start_address + s * 250) w)) in *.
    destruct (listSlots_from_total start_address n (s + 1) w1) as (l' & Hl').
    rewrite (listSlots_from_step _ _ _ _ r l' Hr Hl') in Hl.
    injection Hl as <-.
    specialize (IH (s + 1) w1 l' (Hf1 Hf) Hl' i e). rewrite Hm in IH.
    assert (Hhead : r = Some e <-> stores (eeprom w) start_address s e).
    { split.
      - intros ->. apply Hsound, Hr.
      - intros Hst.
        pose proof (load_stored start_address s e w Hf Hst) as Hs.
        congruence. }
    destruct r as [e'|].
    + cbn [In]. rewrite IH. split.
      * intros [Heq | [Hi Hst]].
        -- injection Heq as <- <-. split; [lia|]. apply Hhead. reflexivity.
        -- split; [lia | exact Hst].
      * intros [Hi Hst]. destruct (Z.eq_dec i s) as [->|Hne].
        -- left. apply Hhead in Hst. congruence.
        -- right. split; [lia | exact Hst].
    + rewrite IH. split.
      * intros [Hi Hst]. split; [lia | exact Hst].
      * intros [Hi Hst]. destruct (Z.eq_dec i s) as [->|Hne].
        -- apply Hhead in Hst. discriminate Hst.
        -- split; [lia | exact Hst].
Qed.

Lemma listing_stores (start_address max_events : Z) (w : world)
  (i : Z) (e : Event) :
  faults w = [] ->
  In (i, e) (listing start_address max_events w)
  <-> (0 <= i < max_events /\ stores (eeprom w) start_address i e).
Proof.
  intros Hf.
  pose proof (listing_listSlots start_address max_events w) as Hl.
  unfold listSlots in Hl.
  rewrite (listSlots_from_exact _ _ 0 w _ Hf Hl i e).
  split; intros [Hi Hst]; (split; [lia | exact Hst]).
Qed.

(** X21. On a quiet bus, [list_all_events] lists exactly the stored
    events: the pair of an index and an event is on the console if and
    only if the index is below [max_events] and the slot of that index
    holds the record of that event, an event that the loader can return:
    texts of at least one byte, within their bounds, that the decoder
    accepts, and unsigned 32-bit times. This holds whatever else the
    device contains. *)
Theorem listing_exact (start_address max_events : Z) (w : world)
  (i : Z) (e : Event) :
  faults w = [] ->
  In (i, e) (listing start_address max_events w)
  <-> (0 <= i < max_events /\ stores (eeprom w) start_address i e).
Proof.
  intros Hf.
  destruct (listing_stores start_address max_events w i e Hf) as [H1 H2].
  split; [exact H1 | exact H2].
Qed.

Lemma listing_exact_witness :
  In (2, workshop) (listing 0 10 listing_world)
  <-> (0 <= 2 < 10 /\ stores (eeprom listing_world) 0 2 workshop).
Proof.
  apply (listing_exact 0 10 listing_world 2 workshop). reflexivity.
Defined.

Lemma stores_unique (m : Z -> byte) (start_address i : Z) (e1 e2 : Event) :
  stores m start_address i e1 -> stores m start_address i e2 -> e1 = e2.
Proof.
  intros [H1 M1] [H2 M2].
  pose proof (len_encode_storable e1 (proj1 H1)) as B1.
  pose proof (len_encode_storable e2 (proj1 H2)) as B2.
  set (a := start_address + i * 250) in *.
  assert (Hsplit : forall d, slot_holds m a d -> len d <= 250 ->
                             exists t, mem_read_range m a 250 = d ++ t).
  { intros d Hd Hl. unfold slot_holds in Hd.
    replace 250%nat with (List.length d + (250 - List.length d))%nat
      by (unfold len in Hl; lia).
    rewrite mem_read_range_app, Hd. eexists. reflexivity. }
  destruct (Hsplit _ M1 (proj2 B1)) as (t1 & E1).
  destruct (Hsplit _ M2 (proj2 B2)) as (t2 & E2).
  apply (encode_prefix_free e1 e2 t1 t2 H1 H2). congruence.
Qed.

Lemma slot_holds_cells (m m' : Z -> byte) (address : Z) (d : bytes) :
  (forall k, 0 <= k < len d ->
             mem_read m' (address + k) = mem_read m (address + k)) ->
  slot_holds m address d -> slot_holds m' address d.
Proof.
  unfold slot_holds, mem_read_range. intros Hc H.
  rewrite <- H at 2. apply map_ext_in. intros k Hk. apply in_seq in Hk.
  apply Hc. unfold len. lia.
Qed.

Lemma stores_other_slot (e e' : Event) (i j : Z) (w : world) :
  0 <= i < 16 -> 0 <= j < 16 -> i <> j ->
  stores (eeprom (snd (save_event_to_eeprom e (slot_address i) w))) 0 j e'
  <-> stores (eeprom w) 0 j e'.
Proof.
  intros Hi Hj Hij. unfold stores. rewrite Z.add_0_l.
  fold (slot_address j).
  split; intros [Hv Hm]; (split; [exact Hv|]);
    pose proof (len_encode_storable e' (proj1 Hv)) as Hb;
    eapply slot_holds_cells; try exact Hm; intros k Hk.
  - symmetry. apply save_other_slot_cell; try assumption. lia.
  - apply save_other_slot_cell; try assumption. lia.
Qed.

(** X22. Saving an event of the data model in one of the sixteen slots,
    on a quiet bus, changes the listing in that slot only: a listing of
    the first [max_events] slots, at most sixteen, afterwards shows the
    saved event at that index, if the index is listed at all, and no other
    event there; at every other index it shows what it showed before. *)
Theorem save_updates_listing (e e' : Event) (i j max_events : Z)
  (w : world) :
  valid_event e -> 0 <= i < 16 -> max_events <= 16 -> faults w = [] ->
  In (j, e')
     (listing 0 max_events
        (snd (save_event_to_eeprom e (slot_address i) w)))
  <-> (j = i /\ e' = e /\ i < max_events)
      \/ (j <> i /\ In (j, e') (listing 0 max_events w)).
Proof.
  intros Hv Hi Hmax Hf.
  set (w' := snd (save_event_to_eeprom e (slot_address i) w)).
  assert (Hquiet : quiet_for (S (pages (len (encode e))) + 8) (faults w))
    by (rewrite Hf; apply quiet_for_nil).
  destruct (save_then_load e (slot_address i) w (proj1 Hv) Hquiet)
    as (_ & Hm & _ & _).
  fold w' in Hm.
  assert (Hf' : faults w' = []).
  { unfold w'. rewrite (save_encodable e _ w (proj1 Hv)).
    pose proof (len_encode_bound e (proj1 Hv)) as Hb.
    destruct (commit_quiet (slot_address i) (encode e) w)
      as (_ & _ & _ & Hfs & _).
    - unfold EEPROM_SIZE. lia.
    - rewrite Hf. apply quiet_for_nil.
    - rewrite Hfs, Hf. apply skipn_nil. }
  assert (Hst : stores (eeprom w') 0 i e).
  { split; [apply valid_event_loadable, Hv|]. rewrite Z.add_0_l. exact Hm. }
  rewrite (listing_stores 0 max_events w' j e' Hf'),
    (listing_stores 0 max_events w j e' Hf).
  split.
  - intros [Hj Hs]. destruct (Z.eq_dec j i) as [->|Hne].
    + left. split; [reflexivity|]. split; [|lia].
      apply (stores_unique _ _ _ _ _ Hs Hst).
    + right. split; [exact Hne|]. split; [exact Hj|].
      assert (Hj16 : 0 <= j < 16) by lia.
      apply (stores_other_slot e e' i j w Hi Hj16 (not_eq_sym Hne)), Hs.
  - intros [(-> & -> & Hlt) | [Hne [Hj Hs]]].
    + split; [lia | exact Hst].
    + split; [exact Hj|].
      assert (Hj16 : 0 <= j < 16) by lia.
      apply (stores_other_slot e e' i j w Hi Hj16 (not_eq_sym Hne)), Hs.
Qed.

Lemma save_updates_listing_witness :
  In (1, workshop)
     (listing 0 10 (snd (save_event_to_eeprom workshop (slot_address 1)
                                              listing_world)))
  <-> (1 = 1 /\ workshop = workshop /\ 1 < 10)
      \/ (1 <> 1 /\ In (1, workshop) (listing 0 10 listing_world)).
Proof.
  apply (save_updates_listing workshop workshop 1 1 10 listing_world).
  - exact valid_event_workshop.
  - lia.
  - lia.
  - reflexivity.
Defined.

(** ** The reset script against the demo *)

Lemma reset_save_event_cases (e : Event) (address : Z) (w : world) :
  CalendarReset.save_event_to_eeprom e address w =
  if name_len e >? 50 then
    print "Event name too long! Maximum 50 bytes allowed." [] w
  else if negb (to_bytes_fits (start_time e)) then (Raise OverflowError, w)
  else if negb (to_bytes_fits (end_time e)) then (Raise OverflowError, w)
  else if speaker_len e >? 50 then
    print "Speaker name too long! Maximum 50 bytes allowed." [] w
  else if description_len e >? 138 then
    print "Description too long! Maximum 138 bytes allowed." [] w
  else (CalendarReset.write_bytes_to_eeprom address (encode e) ;;
        print "Event saved successfully." []) w.
Proof.
  pose proof (len_encode e) as Hlen. revert Hlen.
  unfold CalendarReset.save_event_to_eeprom, encode, name_len, speaker_len,
    description_len.
  set (n := str_encode (event_name e)).
  set (s := str_encode (speaker_name e)).
  set (d := str_encode (description e)).
  intros Hlen.
  pose proof (len_nonneg n). pose proof (len_nonneg s).
  pose proof (len_nonneg d).
  destruct (len n >? 50) eqn:En; [reflexivity|].
  rewrite Z.gtb_ltb in En. apply Z.ltb_ge in En.
  rewrite bytearray_append_ok by lia. cbn [bind lift app].
  rewrite (to_bytes_big_4 (start_time e)).
  destruct (to_bytes_fits (start_time e)) eqn:Es; cbn [negb];
    [|reflexivity].
  cbn [bind lift].
  rewrite (to_bytes_big_4 (end_time e)).
  destruct (to_bytes_fits (end_time e)) eqn:Ee; cbn [negb];
    [|reflexivity].
  cbn [bind lift].
  destruct (len s >? 50) eqn:Esp; [reflexivity|].
  rewrite Z.gtb_ltb in Esp. apply Z.ltb_ge in Esp.
  rewrite bytearray_append_ok by lia. cbn [bind lift].
  destruct (len d >? 138) eqn:Ed; [reflexivity|].
  rewrite Z.gtb_ltb in Ed. apply Z.ltb_ge in Ed.
  rewrite to_bytes_big_ok by (change (256 ^ Z.of_nat 2) with 65536; lia).
  cbn [bind lift].
  cbn [app] in Hlen |- *.
  repeat first [rewrite <- app_assoc | rewrite <- app_comm_cons].
  cbn [app].
  destruct (len _ >? 250) eqn:Etot.
  - rewrite Z.gtb_ltb in Etot. apply Z.ltb_lt in Etot. lia.
  - reflexivity.
Qed.

(** The end of the demo's save, from the world the writer's loop left. *)
Lemma commit_after_loop (address : Z) (data : bytes) (w : world) :
  let w1 := snd (write_loop (List.length data) address data w) in
  fst (write_loop (List.length data) address data w) = Ok tt ->
  fst (commit address data w) = Ok tt
  /\ eeprom (snd (commit address data w)) = eeprom w1
  /\ stdin (snd (commit address data w)) = stdin w1
  /\ faults (snd (commit address data w)) = tl (faults w1)
  /\ bus_log (snd (commit address data w))
     = bus_log w1 ++ [ReadMem address (len data) (negb (next_fault w1))].
Proof.
  intros w1 Hr.
  change (wp (commit address data)
             (fun r w' =>
                r = Ok tt
                /\ eeprom w' = eeprom w1
                /\ stdin w' = stdin w1
                /\ faults w' = tl (faults w1)
                /\ bus_log w'
                   = bus_log w1
                       ++ [ReadMem address (len data) (negb (next_fault w1))])
             w).
  unfold commit, write_bytes_to_eeprom. apply wp_bind, wp_bind.
  apply (wp_run _ _ _ (Ok tt) w1).
  { rewrite (surjective_pairing (write_loop _ address data w)), Hr.
    reflexivity. }
  cbv beta iota. wp_steps;
    try match goal with |- context [bytes_eqb ?a ?b] =>
                        destruct (bytes_eqb a b) end;
    wp_steps;
    match goal with
    | H : next_fault _ = _ |- _ =>
      unfold next_fault in H |- *; cbn [faults printed] in H; rewrite H
    end;
    cbn [eeprom stdin faults bus_log printed transferred negb];
    repeat split.
Qed.

(** X23. The save of the reset script and the save of the demo treat every
    event alike on every bus: they end the same way, with the same
    exception if any, and they leave the same bytes on the device. Their
    bus logs differ by the read-back of the demo and by nothing else: when
    the event passes the checks and goes to the writer, the demo's log is
    the script's followed by one read of the whole record, acknowledged or
    not as the bus decides; when the event is turned away or [to_bytes]
    raises, the two logs are equal. *)
Theorem reset_save_agrees (e : Event) (address : Z) (w : world) :
  let reset := CalendarReset.save_event_to_eeprom e address w in
  let demo := save_event_to_eeprom e address w in
  fst reset = fst demo
  /\ eeprom (snd reset) = eeprom (snd demo)
  /\ stdin (snd reset) = stdin (snd demo)
  /\ bus_log (snd demo)
     = bus_log (snd reset)
         ++ (if passes_checks e
             then [ReadMem address (len (encode e))
                           (negb (next_fault (snd reset)))]
             else []).
Proof.
  cbv zeta. rewrite reset_save_event_cases, save_event_cases.
  unfold passes_checks.
  destruct (name_len e >? 50);
    [cbn [negb andb fst snd print printed eeprom stdin bus_log];
     rewrite app_nil_r; auto|].
  destruct (to_bytes_fits (start_time e));
    [|cbn [negb andb fst snd eeprom stdin bus_log];
      rewrite app_nil_r; auto].
  destruct (to_bytes_fits (end_time e));
    [|cbn [negb andb fst snd eeprom stdin bus_log];
      rewrite app_nil_r; auto].
  destruct (speaker_len e >? 50);
    [cbn [negb andb fst snd print printed eeprom stdin bus_log];
     rewrite app_nil_r; auto|].
  destruct (description_len e >? 138);
    [cbn [negb andb fst snd print printed eeprom stdin bus_log];
     rewrite app_nil_r; auto|].
  cbn [negb andb].
  destruct (write_loop_spec _ address (encode e) w (le_n _)) as [Hr _].
  destruct (commit_after_loop address (encode e) w Hr)
    as (Hc & Hm & Hin & _ & Hlog).
  unfold CalendarReset.write_bytes_to_eeprom, bind.
  remember (write_loop (List.length (encode e)) address (encode e) w)
    as run eqn:Erun in *.
  destruct run as [r w1].
  cbn [fst snd] in *. subst r.
  cbn [print fst snd eeprom stdin bus_log printed].
  split; [symmetry; exact Hc|]. split; [symmetry; exact Hm|].
  split; [symmetry; exact Hin|]. exact Hlog.
Qed.

Lemma agree_blind {A : Type} (m : M A) : blind m -> agree m m.
Proof. exact (fun H => H). Qed.

Lemma agree_ret {A : Type} (a : A) : agree (ret a) (ret a).
Proof. apply agree_blind, blind_ret. Qed.

Lemma agree_bind {A B : Type} (m1 m2 : M A) (k1 k2 : A -> M B) :
  agree m1 m2 -> (forall a, agree (k1 a) (k2 a)) ->
  agree (bind m1 k1) (bind m2 k2).
Proof.
  intros Hm Hk w1 w2 H. unfold bind.
  destruct (Hm w1 w2 H) as [Hr Hw].
  destruct (m1 w1) as [r1 w1'], (m2 w2) as [r2 w2']. cbn [fst snd] in Hr, Hw.
  subst r2. destruct r1 as [a|e].
  - apply Hk, Hw.
  - split; [reflexivity | exact Hw].
Qed.

Lemma agree_print_l {A : Type} text args (m1 m2 : M A) :
  agree m1 m2 -> agree (print text args ;; m1) m2.
Proof.
  intros Hm w1 w2 H. unfold bind, print.
  apply Hm. destruct H as (? & ? & ? & ?). repeat split; assumption.
Qed.

Lemma agree_print_r {A : Type} text args (m1 m2 : M A) :
  agree m1 m2 -> agree m1 (print text args ;; m2).
Proof.
  intros Hm w1 w2 H. unfold bind, print.
  apply Hm. destruct H as (? & ? & ? & ?). repeat split; assumption.
Qed.

Lemma erased_length_invalid (n : Z) (bound : Z) :
  bound < 255 -> (n =? 255) = true -> (n =? 0) || (n >? bound) = true.
Proof.
  intros Hb H. apply Z.eqb_eq in H. subst n.
  rewrite Z.gtb_ltb. replace (bound <? 255) with true
    by (symmetry; apply Z.ltb_lt; exact Hb).
  apply orb_true_r.
Qed.

Lemma erased_description_invalid (n : Z) :
  (n =? 65535) = true -> (n =? 0) || (n >? 138) = true.
Proof.
  intros H. apply Z.eqb_eq in H. subst n. reflexivity.
Qed.

Ltac agree_crawl :=
  repeat first
    [ apply agree_ret
    | apply agree_print_l
    | apply agree_print_r
    | apply agree_bind;
      [ first [ apply agree_blind, blind_read_bytes
              | apply agree_blind, blind_read_string
              | apply agree_blind, blind_lift ]
      | intros ? ]
    | lazymatch goal with
      | |- agree (match ?x with Some _ => _ | None => _ end)
                 (match ?x with Some _ => _ | None => _ end) => destruct x
      | |- agree (if ?b then _ else _) (if ?b then _ else _) => destruct b
      | |- agree (if ?n =? 255 then _ else _) (if ?c then _ else _) =>
        let E := fresh "E" in
        destruct (n =? 255) eqn:E;
        [ rewrite (erased_length_invalid n 50 eq_refl E) |]
      | |- agree (if ?n =? 65535 then _ else _) (if ?c then _ else _) =>
        let E := fresh "E" in
        destruct (n =? 65535) eqn:E;
        [ rewrite (erased_description_invalid n E) |]
      end ].

Lemma reset_load_agree (address : Z) :
  agree (load_event_from_eeprom address)
        (CalendarReset.load_event_from_eeprom address).
Proof.
  unfold load_event_from_eeprom, CalendarReset.load_event_from_eeprom.
  agree_crawl.
Qed.

(** X24. The load of the reset script and the load of the demo decide
    alike on every device and every bus: they return the same event or
    the same [None], make the same transfers, and leave the same device;
    the demo only prints more. The two extra tests of the demo, for an
    erased speaker or description length, change no result, since 255 and
    65535 are above the bounds the script tests. *)
Theorem reset_load_agrees (address : Z) (w : world) :
  fst (CalendarReset.load_event_from_eeprom address w)
  = fst (load_event_from_eeprom address w)
  /\ same_device (snd (CalendarReset.load_event_from_eeprom address w))
                 (snd (load_event_from_eeprom address w)).
Proof.
  assert (Hw : same_device w w) by (repeat split).
  destruct (reset_load_agree address w w Hw) as [Hr (He & Hf & Hl & Hi)].
  split; [symmetry; exact Hr|].
  repeat split; symmetry; assumption.
Qed.

Lemma reset_write_single_page (address : Z) (chunk : bytes) (w : world) :
  chunk <> [] ->
  (List.length chunk <= Z.to_nat PAGE_SIZE)%nat ->
  next_fault w = false ->
  CalendarReset.write_bytes_to_eeprom address chunk w
  = (Ok tt,
     logged (SleepMs 10)
       (World (mem_write (eeprom w) address chunk) (tl (faults w))
              (bus_log w ++ [WriteMem address chunk true])
              (stdout w) (stdin w))).
Proof.
  intros Hne Hlen Hq. unfold CalendarReset.write_bytes_to_eeprom.
  destruct chunk as [|b c]; [congruence|].
  change (List.length (b :: c)) with (S (List.length c)).
  cbn [write_loop].
  rewrite (firstn_all2 (b :: c) Hlen), (skipn_all2 (b :: c) Hlen).
  unfold bind, attempt, i2c_writeto_mem. rewrite Hq.
  cbn [sleep_ms ret fst snd].
  destruct (List.length c); reflexivity.
Qed.

Lemma reset_wipe_strokes_quiet (addrs : list Z) :
  forall w,
    Forall (fun addr => EEPROM_SIZE - addr >= PAGE_SIZE) addrs ->
    quiet_for (List.length addrs) (faults w) ->
    CalendarReset.wipe_strokes addrs w
    = (Ok true,
       World (fold_left (fun m addr => mem_write m addr (stroke addr)) addrs
                        (eeprom w))
             (skipn (List.length addrs) (faults w))
             (bus_log w ++ flat_map stroke_ops addrs)
             (stdout w) (stdin w)).
Proof.
  induction addrs as [|addr rest IH]; intros w Hroom Hq.
  - cbn. rewrite !app_nil_r. destruct w; reflexivity.
  - inversion Hroom as [|? ? Ha Hrest]; subst.
    destruct Hq as [Hq0 Hq].
    cbn [CalendarReset.wipe_strokes].
    replace (EEPROM_SIZE - addr >=? PAGE_SIZE) with true
      by (symmetry; rewrite Z.geb_leb; apply Z.leb_le; lia).
    fold blank_page.
    unfold bind at 1. unfold attempt.
    rewrite reset_write_single_page; [|discriminate|reflexivity|exact Hq0].
    rewrite IH; [|exact Hrest|exact Hq].
    cbn [eeprom faults bus_log stdout stdin printed logged fold_left
         flat_map List.length].
    unfold stroke_ops at 2. rewrite (stroke_room addr Ha).
    rewrite skipn_tl. repeat (f_equal; try (rewrite <- !app_assoc; reflexivity)).
Qed.

(** X25. The wipe of the reset script asks nothing and checks nothing: on
    a bus quiet for its 128 page writes it returns normally, puts exactly
    the 128 strokes of 0xFF on the bus, leaves every byte of the device at
    0xFF, and prints only its first and its last line. *)
Theorem reset_wipe_erases (w : world) :
  quiet_for 128 (faults w) ->
  let w' := snd (CalendarReset.wipe_eeprom w) in
  fst (CalendarReset.wipe_eeprom w) = Ok tt
  /\ bus_log w' = bus_log w ++ flat_map stroke_ops wipe_addresses
  /\ (forall a, mem_read (eeprom w') a = xff)
  /\ stdout w' = stdout w ++ [Line "Wiping EEPROM..." []; wipe_done_line]
  /\ stdin w' = stdin w.
Proof.
  intros Hq. cbv zeta.
  assert (H : wp CalendarReset.wipe_eeprom
                (fun r w' =>
                   r = Ok tt
                   /\ bus_log w'
                      = bus_log w ++ flat_map stroke_ops wipe_addresses
                   /\ (forall a, mem_read (eeprom w') a = xff)
                   /\ stdout w'
                      = stdout w ++ [Line "Wiping EEPROM..." [];
                                     wipe_done_line]
                   /\ stdin w' = stdin w) w).
  { unfold CalendarReset.wipe_eeprom. wp_step. wp_step. apply wp_bind.
    eapply wp_run.
    { apply reset_wipe_strokes_quiet; [apply wipe_addresses_room|].
      exact Hq. }
    cbn [negb]. apply wp_print.
    cbn [bus_log eeprom stdout stdin printed].
    split; [reflexivity|]. split; [reflexivity|].
    split; [intros a; apply wiped_blank|].
    split; [rewrite <- app_assoc; reflexivity | reflexivity]. }
  exact H.
Qed.

Lemma reset_wipe_erases_witness :
  fst (CalendarReset.wipe_eeprom used_world) = Ok tt
  /\ bus_log (snd (CalendarReset.wipe_eeprom used_world))
     = bus_log used_world ++ flat_map stroke_ops wipe_addresses
  /\ (forall a,
        mem_read (eeprom (snd (CalendarReset.wipe_eeprom used_world))) a
        = xff)
  /\ stdout (snd (CalendarReset.wipe_eeprom used_world))
     = stdout used_world ++ [Line "Wiping EEPROM..." []; wipe_done_line]
  /\ stdin (snd (CalendarReset.wipe_eeprom used_world))
     = stdin used_world.
Proof.
  apply (reset_wipe_erases used_world). apply quiet_for_nil.
Defined.
